(** * Nancealoid vocal tract: a shallow embedding of [tract.c]

    The development follows the feature-complete variant of the program
    (the one with [target_z], [rigidity], damping, frication and the
    wall-compliance code).

    Numbers.  The C code computes with [double] and with
    [jack_default_audio_sample_t] (a [float]).  Both are embedded as the
    type [double] below: a finite value is a rational, and the three
    special values of IEEE arithmetic that the code can produce by dividing
    by zero are kept ([PInf], [NInf], [NaN]).  The operations of [Dbl] are
    exact: rounding, overflow and the sign of zero are not modelled, and a
    decimal literal such as [0.1] stands for its decimal value.  The
    statements made with them are those that do not depend on rounding.
    Where a statement does depend on it (the bounds of [reflection], the
    end points of [map2range], where the articulation filter comes to
    rest, the number of segments), the computation is embedded a second
    time in [B64], whose operations round to the nearest binary64 number
    as the C operations on [double] do. *)

From Stdlib Require Import ZArith QArith Qabs Qround Qminmax Qpower Lia Lqa.
From Stdlib Require Import List Bool.
From Stdlib Require Import Setoid Morphisms.
Import ListNotations.

Set Implicit Arguments.

(* ================================================================== *)
(** ** Arithmetic of the C floating-point types                        *)
(* ================================================================== *)

Module Dbl.

Inductive double : Type :=
| Fin (q : Q)
| PInf
| NInf
| NaN.

Definition is_zero (q : Q) : bool := (Qnum q =? 0)%Z.
Definition is_neg (q : Q) : bool := (Qnum q <? 0)%Z.
Definition is_pos (q : Q) : bool := (0 <? Qnum q)%Z.

(** [inf * q] for a finite [q]. *)
Definition scale_inf (q : Q) : double :=
  if is_zero q then NaN else if is_pos q then PInf else NInf.

Definition dneg (x : double) : double :=
  match x with
  | Fin q => Fin (- q)
  | PInf => NInf
  | NInf => PInf
  | NaN => NaN
  end.

Definition dadd (x y : double) : double :=
  match x, y with
  | NaN, _ | _, NaN => NaN
  | Fin a, Fin b => Fin (a + b)
  | PInf, NInf | NInf, PInf => NaN
  | PInf, _ | _, PInf => PInf
  | NInf, _ | _, NInf => NInf
  end.

Definition dsub (x y : double) : double := dadd x (dneg y).

Definition dmul (x y : double) : double :=
  match x, y with
  | NaN, _ | _, NaN => NaN
  | Fin a, Fin b => Fin (a * b)
  | PInf, Fin b | Fin b, PInf => scale_inf b
  | NInf, Fin b | Fin b, NInf => scale_inf (- b)
  | PInf, PInf | NInf, NInf => PInf
  | PInf, NInf | NInf, PInf => NInf
  end.

Definition ddiv (x y : double) : double :=
  match x, y with
  | NaN, _ | _, NaN => NaN
  | Fin a, Fin b =>
      if is_zero b then scale_inf a else Fin (a / b)
  | Fin _, (PInf | NInf) => Fin 0
  | PInf, Fin b => if is_neg b then NInf else PInf
  | NInf, Fin b => if is_neg b then PInf else NInf
  | (PInf | NInf), (PInf | NInf) => NaN
  end.

(** The C comparison [x < y]: false as soon as an operand is NaN. *)
Definition dltb (x y : double) : bool :=
  match x, y with
  | NaN, _ | _, NaN => false
  | Fin a, Fin b => negb (Qle_bool b a)
  | NInf, (Fin _ | PInf) => true
  | Fin _, PInf => true
  | _, _ => false
  end.

(** Conversion of a C [int] to [double]. *)
Definition i2d (n : Z) : double := Fin (inject_Z n).

(** Truncation toward zero of a finite value, as the C cast [(int)x]. *)
Definition Qtrunc (q : Q) : Z := Z.quot (Qnum q) (Zpos (Qden q)).

Definition INT_MAX : Z := 2147483647.
Definition INT_MIN : Z := -2147483648.

(** The cast [(int)x]: undefined ([None]) for a value that is not finite
    or does not fit an [int]. *)
Definition d2i (x : double) : option Z :=
  match x with
  | Fin q =>
      let n := Qtrunc q in
      if (INT_MIN <=? n)%Z && (n <=? INT_MAX)%Z then Some n else None
  | _ => None
  end.

(** Same value: [Qeq] on finite values, identity on the special ones. *)
Definition deq (x y : double) : Prop :=
  match x, y with
  | Fin a, Fin b => a == b
  | PInf, PInf | NInf, NInf | NaN, NaN => True
  | _, _ => False
  end.

Definition finite (x : double) : Prop :=
  match x with Fin _ => True | _ => False end.

(** The real relation "strictly positive": NaN is not. *)
Definition dpositive (x : double) : Prop :=
  match x with
  | Fin q => 0 < q
  | PInf => True
  | _ => False
  end.

End Dbl.
Import Dbl.

Infix "=d=" := deq (at level 70, no associativity).

(* ================================================================== *)
(** ** Rounding to binary64                                            *)
(* ================================================================== *)

(** The arithmetic of [Dbl] is exact.  The C program rounds every result
    to the nearest binary64 number, ties to even, and overflows to an
    infinity; [B64] does the same: each operation is the exact operation
    followed by [round64].  The sign of zero is not kept. *)

Module B64.

(** The nearest integer, ties to even. *)
Definition rne (x : Q) : Z :=
  let f := Qfloor x in
  match Qcompare (x - inject_Z f) (1 # 2) with
  | Lt => f
  | Gt => (f + 1)%Z
  | Eq => if Z.even f then f else (f + 1)%Z
  end.

(** The integer part of the binary logarithm of a positive number. *)
Definition ilog2 (q : Q) : Z :=
  let e0 := (Z.log2 (Qnum q) - Z.log2 (Zpos (Qden q)))%Z in
  if Qle_bool (2 ^ e0) q then e0 else (e0 - 1)%Z.

(** The exponent of the last place: 53 significant bits, and no exponent
    below that of the subnormal numbers. *)
Definition fexp (q : Q) : Z := Z.max (ilog2 q - 52) (-1074).

Definition round_pos (a : Q) : Q :=
  let k := fexp a in inject_Z (rne (a / 2 ^ k)) * 2 ^ k.

Definition round64 (q : Q) : double :=
  match Qnum q with
  | Z0 => Fin 0
  | Zpos _ =>
      let r := round_pos q in
      if Qle_bool (2 ^ 1024) r then PInf else Fin r
  | Zneg _ =>
      let r := round_pos (- q) in
      if Qle_bool (2 ^ 1024) r then NInf else Fin (- r)
  end.

Definition rnd (x : double) : double :=
  match x with
  | Fin q => round64 q
  | _ => x
  end.

Definition add (x y : double) : double := rnd (dadd x y).
Definition sub (x y : double) : double := rnd (dsub x y).
Definition mul (x y : double) : double := rnd (dmul x y).
Definition div (x y : double) : double := rnd (ddiv x y).

(** A decimal literal, and the conversion of an [int]. *)
Definition lit (q : Q) : double := round64 q.
Definition of_int (n : Z) : double := round64 (inject_Z n).

(** [q] is a binary64 number. *)
Definition is_b64 (q : Q) : Prop := round64 q =d= Fin q.

(** The functions of the program whose properties depend on rounding. *)
Definition reflection (source_z target_z : double) : double :=
  div (sub target_z source_z) (add target_z source_z).

Definition map2range (value : Z) (min max : double) : double :=
  add min (mul (sub max min) (div (of_int value) (lit 127))).

Definition glide (current target drag : double) : double :=
  add current (mul (sub target current) drag).

End B64.

(** The order of the extended real line on [double]; NaN is not
    comparable. *)
Definition ext_le (x y : double) : Prop :=
  match x, y with
  | NaN, _ | _, NaN => False
  | NInf, _ => True
  | _, PInf => True
  | Fin a, Fin b => a <= b
  | _, _ => False
  end.

(* ================================================================== *)
(** ** Constants of the program                                        *)
(* ================================================================== *)

Definition SPEED_OF_SOUND : Z := 34300.
Definition TRACT_LENGTH : double := Fin (35 # 2).
Definition NEUTRAL_Z : double := Fin 1.
Definition THROAT_Z : double := Fin 5.
Definition DRAIN_Z : double := Fin (1 # 10).
Definition MIN_AREA : double := Fin (1 # 1000000).

Definition CONTROLLER_TONGUE_POSITION : Z := 0x15.
Definition CONTROLLER_TONGUE_HEIGHT : Z := 0x16.
Definition CONTROLLER_LIPS_ROUNDEDNESS : Z := 0x17.
Definition CONTROLLER_TRACT_LENGTH : Z := 0x18.
Definition CONTROLLER_DRAG : Z := 0x19.
Definition CONTROLLER_PRESSURE : Z := 0x1a.
Definition CONTROLLER_DAMPING : Z := 0x1b.

Definition CONTROLLER_TRACT_LENGTH_MIN : double := Fin 8.
Definition CONTROLLER_TRACT_LENGTH_MAX : double := Fin 24.

Definition TONGUE_BACK : Q := 2 # 10.
Definition TONGUE_FRONT : Q := 9 # 10.

Definition DEFAULT_INTERPOLATION_DRAG : double := Fin (4 # 10000).
Definition DRAG_MIN : double := Fin (1 # 1000).
Definition DRAG_MAX : double := Fin (1 # 10000).

Definition MIN_DIAPHRAM_PRESSURE : double := Fin (- (2 # 10)).
Definition MAX_DIAPHRAM_PRESSURE : double := Fin (2 # 10).

Definition DEFAULT_DAMPING : double := Fin (4 # 100).
Definition MIN_DAMPING : double := Fin 0.
Definition MAX_DAMPING : double := Fin (2 # 10).

Definition FRICATION : double := Fin (1 # 10).
Definition PHYSICAL_DAMPING : double := Fin 1.
Definition LIPS_RIGIDITY : double := Fin 1.

Definition PHONEME_CHANNEL : Z := 0x9.

(** [M_PI] of [math.h]: the binary64 number nearest to pi. *)
Definition M_PI : Q := 884279719003555 # 281474976710656.

(* ================================================================== *)
(** ** Data                                                            *)
(* ================================================================== *)

(** [struct Segment] *)
Record Segment : Type := mkSegment {
  z : double;
  target_z : double;
  rigidity : double;
  left : double;
  right : double
}.

(** [struct Phoneme] *)
Record Phoneme : Type := mkPhoneme {
  tongue_height : double;
  tongue_position : double;
  lips_roundedness : double
}.

Definition PHONEME_A := mkPhoneme (Fin (9 # 10)) (Fin 0) (Fin 0).
Definition PHONEME_I := mkPhoneme (Fin (9 # 10)) (Fin 1) (Fin 0).
Definition PHONEME_U := mkPhoneme (Fin 0) (Fin 0) (Fin (9 # 10)).
Definition PHONEME_E := mkPhoneme (Fin (9 # 10)) (Fin (5 # 10)) (Fin 0).
Definition PHONEME_O := mkPhoneme (Fin (9 # 10)) (Fin (25 # 100)) (Fin (9 # 10)).
Definition PHONEME_SCHWA := mkPhoneme (Fin 0) (Fin 0) (Fin 0).
Definition PHONEME_UH := mkPhoneme (Fin (7 # 10)) (Fin 0) (Fin (6 # 10)).
Definition PHONEME_AH := mkPhoneme (Fin (7 # 10)) (Fin 0) (Fin 0).
Definition PHONEME_UE := mkPhoneme (Fin (9 # 10)) (Fin 1) (Fin (9 # 10)).
Definition PHONEME_II := mkPhoneme (Fin (9 # 10)) (Fin (75 # 100)) (Fin 0).
Definition PHONEME_OE := mkPhoneme (Fin 0) (Fin 0) (Fin (75 # 100)).

(** A [struct Phoneme *]: the address of [ambient_phoneme] or of one of the
    preset globals (which the program never writes). *)
Inductive PhonemePtr : Type :=
| AmbientPtr
| PresetPtr (p : Phoneme).

(** What the program takes from its surroundings: the JACK sample rate,
    [cos] of libm on finite arguments, and the C library's [rand] (the
    value returned by its k-th call) with its [RAND_MAX]. *)
Record Env : Type := mkEnv {
  jack_get_sample_rate : Z;
  cos : Q -> Q;
  rand : nat -> Z;
  RAND_MAX : Z
}.

(** The global variables.  [segments_front] and [segments_back] always
    point to [buffer1] and [buffer2], one each; [front_is_buffer1] says
    which ([segments_front == buffer1]).  [rand_calls] is the state of the
    C library's generator: the number of calls made to [rand]. *)
Record State : Type := mkState {
  rate : Z;
  unit_length : double;
  tract_length : double;
  nsegments : Z;
  buffer1 : list Segment;
  buffer2 : list Segment;
  front_is_buffer1 : bool;
  ambient_phoneme : Phoneme;
  target_phoneme : PhonemePtr;
  current_phoneme : Phoneme;
  interpolation_drag : double;
  diaphram_pressure : double;
  damping : double;
  rand_calls : nat
}.

Definition segments_front (s : State) : list Segment :=
  if front_is_buffer1 s then buffer1 s else buffer2 s.

Definition segments_back (s : State) : list Segment :=
  if front_is_buffer1 s then buffer2 s else buffer1 s.

Definition set_front (s : State) (l : list Segment) : State :=
  if front_is_buffer1 s
  then mkState (rate s) (unit_length s) (tract_length s) (nsegments s)
         l (buffer2 s) true (ambient_phoneme s) (target_phoneme s)
         (current_phoneme s) (interpolation_drag s) (diaphram_pressure s)
         (damping s) (rand_calls s)
  else mkState (rate s) (unit_length s) (tract_length s) (nsegments s)
         (buffer1 s) l false (ambient_phoneme s) (target_phoneme s)
         (current_phoneme s) (interpolation_drag s) (diaphram_pressure s)
         (damping s) (rand_calls s).

Definition set_back (s : State) (l : list Segment) : State :=
  if front_is_buffer1 s
  then mkState (rate s) (unit_length s) (tract_length s) (nsegments s)
         (buffer1 s) l true (ambient_phoneme s) (target_phoneme s)
         (current_phoneme s) (interpolation_drag s) (diaphram_pressure s)
         (damping s) (rand_calls s)
  else mkState (rate s) (unit_length s) (tract_length s) (nsegments s)
         l (buffer2 s) false (ambient_phoneme s) (target_phoneme s)
         (current_phoneme s) (interpolation_drag s) (diaphram_pressure s)
         (damping s) (rand_calls s).

Definition deref (s : State) (p : PhonemePtr) : Phoneme :=
  match p with
  | AmbientPtr => ambient_phoneme s
  | PresetPtr q => q
  end.

(** The value read at an index outside an array (undefined in C). *)
Definition nowhere : Segment := mkSegment NaN NaN NaN NaN NaN.

(** [a[i] = f(a[i])]; nothing is written outside the array. *)
Fixpoint upd (i : nat) (f : Segment -> Segment) (l : list Segment)
  : list Segment :=
  match l, i with
  | [], _ => []
  | x :: t, O => f x :: t
  | x :: t, S j => x :: upd j f t
  end.

(** [for (int i = 0; i < n; i++) body] *)
Definition for_loop {A : Type} (n : Z) (body : nat -> A -> A) (a : A) : A :=
  fold_left (fun acc i => body i acc) (seq 0 (Z.to_nat n)) a.

Definition add_left (i : nat) (v : double) : list Segment -> list Segment :=
  upd i (fun s => mkSegment (z s) (target_z s) (rigidity s)
                            (dadd (left s) v) (right s)).

Definition add_right (i : nat) (v : double) : list Segment -> list Segment :=
  upd i (fun s => mkSegment (z s) (target_z s) (rigidity s)
                            (left s) (dadd (right s) v)).

Definition store_z (i : nat) (v : double) : list Segment -> list Segment :=
  upd i (fun s => mkSegment v (target_z s) (rigidity s) (left s) (right s)).

Definition store_left (i : nat) (v : double) : list Segment -> list Segment :=
  upd i (fun s => mkSegment (z s) (target_z s) (rigidity s) v (right s)).

Definition store_right (i : nat) (v : double) : list Segment -> list Segment :=
  upd i (fun s => mkSegment (z s) (target_z s) (rigidity s) (left s) v).

(* ================================================================== *)
(** ** The program                                                     *)
(* ================================================================== *)

Definition get_mapped_phoneme (note : Z) : PhonemePtr :=
  if (note =? 0x24)%Z then PresetPtr PHONEME_A
  else if (note =? 0x25)%Z then PresetPtr PHONEME_I
  else if (note =? 0x26)%Z then PresetPtr PHONEME_U
  else if (note =? 0x27)%Z then PresetPtr PHONEME_E
  else if (note =? 0x28)%Z then PresetPtr PHONEME_O
  else if (note =? 0x29)%Z then PresetPtr PHONEME_SCHWA
  else if (note =? 0x2a)%Z then PresetPtr PHONEME_UH
  else if (note =? 0x2b)%Z then PresetPtr PHONEME_AH
  else if (note =? 0x2c)%Z then PresetPtr PHONEME_UE
  else if (note =? 0x2d)%Z then PresetPtr PHONEME_II
  else if (note =? 0x2e)%Z then PresetPtr PHONEME_OE
  else AmbientPtr.

Definition swap_buffers (s : State) : State :=
  mkState (rate s) (unit_length s) (tract_length s) (nsegments s)
    (buffer1 s) (buffer2 s) (negb (front_is_buffer1 s))
    (ambient_phoneme s) (target_phoneme s) (current_phoneme s)
    (interpolation_drag s) (diaphram_pressure s) (damping s) (rand_calls s).

(** [cos] of libm on a [double]. *)
Definition dcos (E : Env) (x : double) : double :=
  match x with
  | Fin q => Fin (cos E q)
  | _ => NaN
  end.

(** The body of the loop of [update_shape], for segment [i]. *)
Definition shape_segment (E : Env) (start stop : Z) (cur : Phoneme)
    (set_z : bool) (i : nat) (s : Segment) : Segment :=
  let ntongue := (stop - start)%Z in
  let s1 :=
    if (Z.of_nat i <? start)%Z then
      mkSegment (z s) THROAT_Z (rigidity s) (left s) (right s)
    else if (stop <=? Z.of_nat i)%Z then
      mkSegment (z s)
        (dmul (ddiv (Fin 1)
                    (dadd (dsub (Fin 1) (lips_roundedness cur)) MIN_AREA))
              NEUTRAL_Z)
        LIPS_RIGIDITY (left s) (right s)
    else
      let unit_pos :=
        ddiv (i2d (Z.of_nat i - start)) (i2d (ntongue - 1)) in
      let phase := dsub unit_pos (tongue_position cur) in
      let value :=
        dmul (dcos E (ddiv (dmul phase (Fin M_PI)) (Fin 2)))
             (tongue_height cur) in
      let unit_area := dsub (Fin 1) value in
      mkSegment (z s)
        (dmul (ddiv (Fin 1) (dadd unit_area MIN_AREA)) NEUTRAL_Z)
        (rigidity s) (left s) (right s) in
  if set_z
  then mkSegment (target_z s1) (target_z s1) (rigidity s1) (left s1) (right s1)
  else s1.

Definition tongue_start (n : Z) : Z := Qtrunc (TONGUE_BACK * inject_Z n).
Definition tongue_stop (n : Z) : Z := Qtrunc (TONGUE_FRONT * inject_Z n).

Definition update_shape (E : Env) (set_z : bool) (s : State) : State :=
  let start := tongue_start (nsegments s) in
  let stop := tongue_stop (nsegments s) in
  set_front s
    (for_loop (nsegments s)
       (fun i => upd i (shape_segment E start stop (current_phoneme s) set_z i))
       (segments_front s)).

Definition neutral_segment : Segment :=
  mkSegment NEUTRAL_Z NEUTRAL_Z (Fin 1) (Fin 0) (Fin 0).

(** [init_tract].  [alloc1] and [alloc2] tell whether the two calls of
    [malloc] succeed.  The result is [None] when the C program has no
    defined behaviour: the cast to [int] of a value out of range, or the
    first store of the initialisation loop through a null pointer.  The
    two quotients are exact here; [segment_count] below is the number of
    segments with the quotients rounded to binary64, which is the same at
    the sample rates in common use and one less at some others. *)
Definition init_tract (E : Env) (alloc1 alloc2 : bool)
    (desired_length : double) (s : State) : option State :=
  let rate' := jack_get_sample_rate E in
  let unit_length' := ddiv (i2d SPEED_OF_SOUND) (i2d rate') in
  match d2i (ddiv desired_length unit_length') with
  | None => None
  | Some n =>
      let tract_length' := dmul (i2d n) unit_length' in
      if (0 <? n)%Z && negb (alloc1 && alloc2) then None
      else
        Some (update_shape E true
                (mkState rate' unit_length' tract_length' n
                   (repeat neutral_segment (Z.to_nat n))
                   (repeat neutral_segment (Z.to_nat n))
                   true
                   (ambient_phoneme s) (target_phoneme s) (current_phoneme s)
                   (interpolation_drag s) (diaphram_pressure s) (damping s)
                   (rand_calls s)))
  end.

(** The body of the copy loop of [resize_tract], on the pair of new
    buffers. *)
Definition copy_waves (old1 old2 : list Segment) (i : nat)
    (new : list Segment * list Segment) : list Segment * list Segment :=
  let b1 := store_left i (left (nth i old1 nowhere)) (fst new) in
  let b1 := store_right i (right (nth i old1 nowhere)) b1 in
  let b2 := store_left i (left (nth i old2 nowhere)) (snd new) in
  let b2 := store_right i (right (nth i old2 nowhere)) b2 in
  (b1, b2).

Definition resize_tract (E : Env) (alloc1 alloc2 : bool)
    (desired_length : double) (s : State) : option State :=
  let old_nsegments := nsegments s in
  let old1 := buffer1 s in
  let old2 := buffer2 s in
  match init_tract E alloc1 alloc2 desired_length s with
  | None => None
  | Some s' =>
      let n := if (old_nsegments <? nsegments s')%Z
               then old_nsegments else nsegments s' in
      let new := for_loop n (copy_waves old1 old2) (buffer1 s', buffer2 s') in
      Some (mkState (rate s') (unit_length s') (tract_length s') (nsegments s')
              (fst new) (snd new)
              (front_is_buffer1 s')
              (ambient_phoneme s') (target_phoneme s') (current_phoneme s')
              (interpolation_drag s') (diaphram_pressure s') (damping s')
              (rand_calls s'))
  end.

Definition reflection (source_z target_z : double) : double :=
  ddiv (dsub target_z source_z) (dadd target_z source_z).

(** [noise()], at the [k]-th call of [rand]. *)
Definition noise (E : Env) (k : nat) : double :=
  dsub (ddiv (i2d (rand E k)) (ddiv (i2d (RAND_MAX E)) (Fin 2))) (Fin 1).

(** The first loop of [run_tract] ("initialize the new buffer"): the
    segment written to the back buffer, from the front segment [old]. *)
Definition carried (old : Segment) : Segment :=
  let new_target_z := target_z old in
  let old_area := ddiv (Fin 1) (z old) in
  let target_area := ddiv (Fin 1) new_target_z in
  let delta := dsub target_area old_area in
  let new_area := dadd old_area (dmul delta PHYSICAL_DAMPING) in
  let new_area := if dltb new_area (Fin 0) then MIN_AREA else new_area in
  mkSegment (ddiv (Fin 1) new_area) new_target_z (rigidity old)
            (Fin 0) (Fin 0).

(** The body of that loop, at segment [i]. *)
Definition carry_over (front : list Segment) (i : nat)
    (back : list Segment) : list Segment :=
  upd i (fun _ => carried (nth i front nowhere)) back.

(** What the second loop of [run_tract] carries from one segment to the
    next: the back buffer, [drain], and the state of [rand]. *)
Record Scatter : Type := mkScatter {
  bk : list Segment;
  drain : double;
  rand_count : nat
}.

(** [if (velocity < 0) velocity = 0;] *)
Definition clip_velocity (reflected : double) : double :=
  if dltb reflected (Fin 0) then Fin 0 else reflected.

(** "process audio moving right (toward lips)": the first half of the
    loop body, returning the updated running [area] as well. *)
Definition move_right (E : Env) (damping diaphram_pressure : double)
    (glottal_source : double) (front : list Segment) (i : nat)
    (a : Scatter) (area : double) : Scatter * double :=
  let old := nth i front nowhere in
  if (i =? 0)%nat then
    let gamma := dsub (Fin 1) (reflection DRAIN_Z (z old)) in
    (mkScatter
       (add_right i
          (dadd (dadd (dmul (left old) (dsub (Fin 1) damping))
                      (dmul glottal_source gamma))
                diaphram_pressure)
          (bk a))
       (drain a) (rand_count a),
     area)
  else
    let old_left := nth (i - 1) front nowhere in
    let gamma := reflection (z old_left) (z old) in
    let reflected := dmul (right old_left) gamma in
    let b := add_right i (dsub (right old_left) reflected) (bk a) in
    let b := add_left (i - 1) (dmul reflected (dsub (Fin 1) damping)) b in
    let velocity := clip_velocity reflected in
    let b := add_left (i - 1)
               (dmul (dmul FRICATION velocity) (noise E (rand_count a))) b in
    (mkScatter b (drain a) (S (rand_count a)),
     dadd area (dmul reflected (dsub (Fin 1) (rigidity old)))).

(** "process audio moving left (toward glottis)": the second half. *)
Definition move_left (E : Env) (n : Z) (damping : double)
    (front : list Segment) (i : nat)
    (a : Scatter) (area : double) : Scatter * double :=
  let old := nth i front nowhere in
  if (Z.of_nat i =? n - 1)%Z then
    let gamma := reflection (z old) DRAIN_Z in
    let reflected := dmul (right old) gamma in
    let drain' := dsub (right old) reflected in
    let b := add_left i (dmul reflected (dsub (Fin 1) damping)) (bk a) in
    (mkScatter b drain' (rand_count a),
     dadd area (dmul reflected (dsub (Fin 1) (rigidity old))))
  else
    let old_right := nth (i + 1) front nowhere in
    let gamma := reflection (z old_right) (z old) in
    let reflected := dmul (left old_right) gamma in
    let b := add_left i (dsub (left old_right) reflected) (bk a) in
    let b := add_right (i + 1) (dmul reflected (dsub (Fin 1) damping)) b in
    let velocity := clip_velocity reflected in
    let b := add_right (i + 1)
               (dmul (dmul FRICATION velocity) (noise E (rand_count a))) b in
    (mkScatter b (drain a) (S (rand_count a)),
     dadd area (dmul reflected (dsub (Fin 1) (rigidity old)))).

(** [if (area < 0) area = MIN_AREA;] *)
Definition clamp_area (area : double) : double :=
  if dltb area (Fin 0) then MIN_AREA else area.

(** The body of the second loop of [run_tract] ("process each segment"). *)
Definition scatter (E : Env) (n : Z) (damping diaphram_pressure : double)
    (glottal_source : double) (front : list Segment) (i : nat)
    (a : Scatter) : Scatter :=
  let area := ddiv (Fin 1) (z (nth i (bk a) nowhere)) in
  let '(a1, area1) :=
    move_right E damping diaphram_pressure glottal_source front i a area in
  let '(a2, area2) := move_left E n damping front i a1 area1 in
  mkScatter (store_z i (ddiv (Fin 1) (clamp_area area2)) (bk a2))
            (drain a2) (rand_count a2).

(** "update current phoneme toward target phoneme": one field. *)
Definition glide (current target drag : double) : double :=
  dadd current (dmul (dsub target current) drag).

Definition advance_phoneme (current target : Phoneme) (drag : double)
  : Phoneme :=
  mkPhoneme
    (glide (tongue_height current) (tongue_height target) drag)
    (glide (tongue_position current) (tongue_position target) drag)
    (glide (lips_roundedness current) (lips_roundedness target) drag).

(** The globals with [current_phoneme] and the state of [rand] replaced. *)
Definition set_current (s : State) (p : Phoneme) (calls : nat) : State :=
  mkState (rate s) (unit_length s) (tract_length s) (nsegments s)
    (buffer1 s) (buffer2 s) (front_is_buffer1 s)
    (ambient_phoneme s) (target_phoneme s) p
    (interpolation_drag s) (diaphram_pressure s) (damping s) calls.

(** [run_tract]: the output sample and the new values of the globals. *)
Definition run_tract (E : Env) (glottal_source : double) (s : State)
  : double * State :=
  let front := segments_front s in
  let back0 := for_loop (nsegments s) (carry_over front) (segments_back s) in
  let sc :=
    for_loop (nsegments s)
      (scatter E (nsegments s) (damping s) (diaphram_pressure s)
               glottal_source front)
      (mkScatter back0 (Fin 0) (rand_calls s)) in
  let s1 := set_back s (bk sc) in
  let s2 := swap_buffers s1 in
  let s3 :=
    set_current s2
      (advance_phoneme (current_phoneme s2) (deref s2 (target_phoneme s2))
                       (interpolation_drag s2))
      (rand_count sc) in
  (drain sc, update_shape E false s3).

Definition map2range (value : Z) (min max : double) : double :=
  dadd min (dmul (dsub max min) (ddiv (i2d value) (Fin 127))).

(** A MIDI event as [process] reads it: the first three bytes of its
    buffer. *)
Record MidiEvent : Type := mkMidiEvent {
  status : Z;
  data1 : Z;
  data2 : Z
}.

Definition set_ambient (s : State) (p : Phoneme) : State :=
  mkState (rate s) (unit_length s) (tract_length s) (nsegments s)
    (buffer1 s) (buffer2 s) (front_is_buffer1 s)
    p (target_phoneme s) (current_phoneme s)
    (interpolation_drag s) (diaphram_pressure s) (damping s) (rand_calls s).

Definition set_controls (s : State) (drag pressure damp : double) : State :=
  mkState (rate s) (unit_length s) (tract_length s) (nsegments s)
    (buffer1 s) (buffer2 s) (front_is_buffer1 s)
    (ambient_phoneme s) (target_phoneme s) (current_phoneme s)
    drag pressure damp (rand_calls s).

(** One turn of the event loop of [process]. *)
Definition handle_event (E : Env) (alloc1 alloc2 : bool) (ev : MidiEvent)
    (s : State) : option State :=
  let type := Z.land (status ev) 0xf0 in
  let chan := Z.land (status ev) 0x0f in
  if (type =? 0xb0)%Z then
    let id := data1 ev in
    let value := data2 ev in
    let amb := ambient_phoneme s in
    if (id =? CONTROLLER_TRACT_LENGTH)%Z then
      resize_tract E alloc1 alloc2
        (map2range value CONTROLLER_TRACT_LENGTH_MIN
                   CONTROLLER_TRACT_LENGTH_MAX) s
    else if (id =? CONTROLLER_TONGUE_HEIGHT)%Z then
      Some (set_ambient s
              (mkPhoneme (map2range value (Fin 0) (Fin 1))
                         (tongue_position amb) (lips_roundedness amb)))
    else if (id =? CONTROLLER_TONGUE_POSITION)%Z then
      Some (set_ambient s
              (mkPhoneme (tongue_height amb)
                         (map2range value (Fin 0) (Fin 1))
                         (lips_roundedness amb)))
    else if (id =? CONTROLLER_LIPS_ROUNDEDNESS)%Z then
      Some (set_ambient s
              (mkPhoneme (tongue_height amb) (tongue_position amb)
                         (map2range value (Fin 0) (Fin 1))))
    else if (id =? CONTROLLER_DRAG)%Z then
      Some (set_controls s (map2range value DRAG_MIN DRAG_MAX)
                         (diaphram_pressure s) (damping s))
    else if (id =? CONTROLLER_PRESSURE)%Z then
      Some (set_controls s (interpolation_drag s)
              (map2range value MIN_DIAPHRAM_PRESSURE MAX_DIAPHRAM_PRESSURE)
              (damping s))
    else if (id =? CONTROLLER_DAMPING)%Z then
      Some (set_controls s (interpolation_drag s) (diaphram_pressure s)
              (map2range value MIN_DAMPING MAX_DAMPING))
    else Some s
  else if (type =? 0x80)%Z && (chan =? PHONEME_CHANNEL)%Z then Some s
  else if (type =? 0x90)%Z && (chan =? PHONEME_CHANNEL)%Z then
    Some (set_ambient s (deref s (get_mapped_phoneme (data1 ev))))
  else Some s.

(** The sample loop of [process]: the outputs, in order, and the state. *)
Fixpoint run_samples (E : Env) (input : list double) (s : State)
  : list double * State :=
  match input with
  | [] => ([], s)
  | source :: rest =>
      let '(out, s1) := run_tract E source s in
      let '(outs, s2) := run_samples E rest s1 in
      (out :: outs, s2)
  end.

(** The globals before [main] runs (static storage is zeroed; the null
    buffers are empty arrays). *)
Definition zero_phoneme : Phoneme := mkPhoneme (Fin 0) (Fin 0) (Fin 0).

Definition startup : State :=
  mkState 0 (Fin 0) (Fin 0) 0 [] [] true
    zero_phoneme AmbientPtr zero_phoneme (Fin 0) (Fin 0) (Fin 0) 0.

(** "setup the vocal tract" in [main]. *)
Definition main_setup (E : Env) (alloc1 alloc2 : bool) : option State :=
  let amb := mkPhoneme (Fin 0) (Fin (5 # 10)) (Fin 0) in
  init_tract E alloc1 alloc2 TRACT_LENGTH
    (mkState (rate startup) (unit_length startup) (tract_length startup)
       (nsegments startup) (buffer1 startup) (buffer2 startup)
       (front_is_buffer1 startup)
       amb AmbientPtr amb
       DEFAULT_INTERPOLATION_DRAG (Fin 0) DEFAULT_DAMPING
       (rand_calls startup)).

(** The states the running program can be in: after [main]'s setup, any
    event and any sample. *)
Inductive Reachable (E : Env) : State -> Prop :=
| reach_setup : forall a1 a2 s,
    main_setup E a1 a2 = Some s -> Reachable E s
| reach_event : forall a1 a2 ev s s',
    Reachable E s -> handle_event E a1 a2 ev s = Some s' -> Reachable E s'
| reach_sample : forall source s,
    Reachable E s -> Reachable E (snd (run_tract E source s)).

(* ================================================================== *)
(** ** Notions used by the statements                                  *)
(* ================================================================== *)

(** Total squared traveling-wave amplitude of a buffer. *)
Definition energy (l : list Segment) : double :=
  fold_right
    (fun s acc =>
       dadd (dadd (dmul (left s) (left s)) (dmul (right s) (right s))) acc)
    (Fin 0) l.

Definition dle (x y : double) : Prop :=
  match x, y with
  | Fin a, Fin b => a <= b
  | _, _ => False
  end.

(** The arrays have [nsegments] elements each. *)
Definition well_formed (s : State) : Prop :=
  length (buffer1 s) = Z.to_nat (nsegments s) /\
  length (buffer2 s) = Z.to_nat (nsegments s).

(** Every amplitude of a buffer is a finite number. *)
Definition finite_waves (l : list Segment) : Prop :=
  Forall (fun s => finite (left s) /\ finite (right s)) l.

(** Every impedance of a buffer is the same finite number [zz]. *)
Definition uniform_z (zz : Q) (l : list Segment) : Prop :=
  Forall (fun s => z s =d= Fin zz) l.

(** *** Closed forms of the second loop of [run_tract]

    What the loop adds to each field of the back buffer, written as
    functions of the front buffer.  [c0] is the state of [rand] when the
    loop starts. *)

Section ClosedForms.
Variable E : Env.
Variable n : Z.
Variables damping diaphram_pressure glottal_source : double.
Variable front : list Segment.
Variable c0 : nat.

Definition reflected_right (i : nat) : double :=
  dmul (right (nth (i - 1) front nowhere))
       (reflection (z (nth (i - 1) front nowhere))
                   (z (nth i front nowhere))).

Definition reflected_left (i : nat) : double :=
  dmul (left (nth (i + 1) front nowhere))
       (reflection (z (nth (i + 1) front nowhere))
                   (z (nth i front nowhere))).

Definition reflected_lips (i : nat) : double :=
  dmul (right (nth i front nowhere))
       (reflection (z (nth i front nowhere)) DRAIN_Z).

Definition glottis_inflow : double :=
  dadd (dadd (dmul (left (nth 0 front nowhere)) (dsub (Fin 1) damping))
             (dmul glottal_source
                   (dsub (Fin 1)
                         (reflection DRAIN_Z (z (nth 0 front nowhere))))))
       diaphram_pressure.

(** Added to [back[i].right] at turn [i]. *)
Definition own_right (i : nat) : double :=
  if (i =? 0)%nat then glottis_inflow
  else dsub (right (nth (i - 1) front nowhere)) (reflected_right i).

(** Added to [back[i].left] at turn [i]. *)
Definition own_left (i : nat) : double :=
  if (Z.of_nat i =? n - 1)%Z
  then dmul (reflected_lips i) (dsub (Fin 1) damping)
  else dsub (left (nth (i + 1) front nowhere)) (reflected_left i).

(** [back[j].right] once turn [j - 1] has run, from its value [r0]
    before the loop. *)
Definition arrived_right (j : nat) (r0 : double) : double :=
  if (j =? 0)%nat then r0
  else
    dadd (dadd r0 (dmul (reflected_left (j - 1)) (dsub (Fin 1) damping)))
         (dmul (dmul FRICATION (clip_velocity (reflected_left (j - 1))))
               (noise E (c0 + 2 * (j - 1)))).

(** [back[j].right] after the loop. *)
Definition final_right (j : nat) (r0 : double) : double :=
  dadd (arrived_right j r0) (own_right j).

(** [back[j].left] after the loop, from its value [l0] before. *)
Definition final_left (j : nat) (l0 : double) : double :=
  if (Z.of_nat j =? n - 1)%Z then dadd l0 (own_left j)
  else
    dadd (dadd (dadd l0 (own_left j))
               (dmul (reflected_right (j + 1)) (dsub (Fin 1) damping)))
         (dmul (dmul FRICATION (clip_velocity (reflected_right (j + 1))))
               (noise E (c0 + 2 * j + 1))).

(** The running [area] of turn [i] after its first half. *)
Definition area_right (i : nat) (area : double) : double :=
  if (i =? 0)%nat then area
  else dadd area (dmul (reflected_right i)
                       (dsub (Fin 1) (rigidity (nth i front nowhere)))).

(** The running [area] of turn [i] after its second half. *)
Definition area_left (i : nat) (area : double) : double :=
  dadd area
    (dmul (if (Z.of_nat i =? n - 1)%Z
           then reflected_lips i else reflected_left i)
          (dsub (Fin 1) (rigidity (nth i front nowhere)))).

(** [back[i].z] after the loop, from its value [z0] before. *)
Definition final_z (i : nat) (z0 : double) : double :=
  ddiv (Fin 1)
       (clamp_area (area_left i (area_right i (ddiv (Fin 1) z0)))).

(** The state of [rand] after [k] turns of a loop of [len] turns. *)
Definition rand_after (len k : nat) : nat :=
  if (k =? 0)%nat then c0
  else if (k =? len)%nat then c0 + (2 * k - 2)
  else c0 + (2 * k - 1).

(** The invariant of the loop after [k] turns, the back buffer having
    been [back0] at the start. *)
Definition scattered (back0 : list Segment) (k : nat) (a : Scatter)
  : Prop :=
  length (bk a) = length back0 /\
  rand_count a = rand_after (length back0) k /\
  forall j, (j < length back0)%nat ->
    right (nth j (bk a) nowhere) =
      (if (j <? k)%nat then final_right j (right (nth j back0 nowhere))
       else if (j =? k)%nat
       then arrived_right j (right (nth j back0 nowhere))
       else right (nth j back0 nowhere)) /\
    left (nth j (bk a) nowhere) =
      (if (S j <? k)%nat then final_left j (left (nth j back0 nowhere))
       else if (S j =? k)%nat
       then dadd (left (nth j back0 nowhere)) (own_left j)
       else left (nth j back0 nowhere)) /\
    z (nth j (bk a) nowhere) =
      (if (j <? k)%nat then final_z j (z (nth j back0 nowhere))
       else z (nth j back0 nowhere)) /\
    target_z (nth j (bk a) nowhere) = target_z (nth j back0 nowhere) /\
    rigidity (nth j (bk a) nowhere) = rigidity (nth j back0 nowhere).
End ClosedForms.

(** What the copy loop of [resize_tract] makes of a new segment: the
    amplitudes of the old one in it. *)
Definition transplant (old new : Segment) : Segment :=
  mkSegment (z new) (target_z new) (rigidity new) (left old) (right old).

(** Every segment of a buffer has rigidity 1. *)
Definition all_rigid (l : list Segment) : Prop :=
  Forall (fun s => rigidity s = Fin 1) l.

(** The invariant of the running program: arrays of [nsegments] segments,
    all of rigidity 1. *)
Definition sound (s : State) : Prop :=
  well_formed s /\ all_rigid (buffer1 s) /\ all_rigid (buffer2 s).


(** The number a finite value stands for (0 for the others). *)
Definition qv (x : double) : Q :=
  match x with
  | Fin q => q
  | _ => 0
  end.

(** [g 0 + g 1 + ... + g (n - 1)]. *)
Fixpoint sumQ (n : nat) (g : nat -> Q) : Q :=
  match n with
  | O => 0
  | S n' => g 0%nat + sumQ n' (fun j => g (S j))
  end.

(** Squared amplitudes of one segment, as a number. *)
Definition amp2 (s : Segment) : Q :=
  qv (left s) * qv (left s) + qv (right s) * qv (right s).

(** [if (velocity < 0) velocity = 0;] on a finite value. *)
Definition clipq (q : Q) : Q := if negb (Qle_bool 0 q) then 0 else q.

(** Total squared amplitude of a buffer, as a number. *)
Definition energyQ (l : list Segment) : Q :=
  fold_right (fun s acc => amp2 s + acc) 0 l.

Definition is_finite (x : double) : bool :=
  match x with
  | Fin _ => true
  | _ => false
  end.

(** [finite_waves], as a test. *)
Definition waves_finite (l : list Segment) : bool :=
  forallb (fun s => is_finite (left s) && is_finite (right s)) l.

(** The inflow at the glottis as the specification words it: all of the
    wave arriving from the right, the source scaled by
    [1 - reflection DRAIN_Z z], and the diaphragm pressure. *)
Definition glottis_inflow_lossless (diaphram_pressure glottal_source : double)
    (front : list Segment) : double :=
  dadd (dadd (left (nth 0 front nowhere))
             (dmul glottal_source
                   (dsub (Fin 1)
                         (reflection DRAIN_Z (z (nth 0 front nowhere))))))
       diaphram_pressure.

(** The target impedance that [update_shape] gives a tongue segment at
    the normalised position [u], and the one it gives a lip segment. *)
Definition profile_z (E : Env) (cur : Phoneme) (u : double) : double :=
  dmul (ddiv (Fin 1)
          (dadd (dsub (Fin 1)
                   (dmul (dcos E (ddiv (dmul (dsub u (tongue_position cur))
                                             (Fin M_PI))
                                       (Fin 2)))
                         (tongue_height cur)))
                MIN_AREA))
       NEUTRAL_Z.

Definition lips_z (cur : Phoneme) : double :=
  dmul (ddiv (Fin 1) (dadd (dsub (Fin 1) (lips_roundedness cur)) MIN_AREA))
       NEUTRAL_Z.

(** Two finite values no further apart than [eps]. *)
Definition within (eps x y : double) : Prop :=
  match eps, x, y with
  | Fin e, Fin a, Fin b => Qabs (a - b) <= e
  | _, _, _ => False
  end.

(** A stand-in for libm's [cos] on rationals, for running the model on
    concrete inputs: the Taylor polynomial of degree 4, kept within
    [-1, 1] and rounded down to a multiple of 1/65536. *)
Definition cos_poly (q : Q) : Q :=
  inject_Z
    (Qfloor (Qmax (- (1)) (Qmin 1 (1 - q * q / 2 + q * q * q * q / 24))
             * 65536))
  / 65536.

Definition env_at (sample_rate : Z) : Env :=
  mkEnv sample_rate cos_poly (fun k => Z.of_nat k) 2147483647.

(** A chain of two neutral segments at the default settings of [main],
    with a wave of amplitude 1 going left in segment 0. *)
Definition echo_at_glottis : State :=
  mkState 44100 (Fin (34300 # 44100)) (Fin (68600 # 44100)) 2
    [mkSegment (Fin 1) (Fin 1) (Fin 1) (Fin 1) (Fin 0); neutral_segment]
    [neutral_segment; neutral_segment]
    true zero_phoneme AmbientPtr zero_phoneme
    DEFAULT_INTERPOLATION_DRAG (Fin 0) DEFAULT_DAMPING 0.

(** A chain of 22 neutral segments (44100 Hz, 17.5 cm) whose current
    phoneme is the preset [PHONEME_U], before and after [update_shape]:
    the latter is the chain that [init_tract] builds for that phoneme. *)
Definition unshaped_u : State :=
  mkState 44100 (Fin (34300 # 44100)) (Fin (754600 # 44100)) 22
    (repeat neutral_segment 22) (repeat neutral_segment 22)
    true PHONEME_U AmbientPtr PHONEME_U
    DEFAULT_INTERPOLATION_DRAG (Fin 0) DEFAULT_DAMPING 0.

Definition shaped_u : State := update_shape (env_at 44100) true unshaped_u.

(** The event "controller 0x18 (tract length) set to [value]". *)
Definition set_length_event (value : Z) : MidiEvent :=
  mkMidiEvent 0xb0 CONTROLLER_TRACT_LENGTH value.

(** What a state is when the program could not get that far. *)
Definition or_startup (o : option State) : State :=
  match o with
  | Some s => s
  | None => startup
  end.

(** The program at 44100 Hz: after [main]'s setup, then after one sample
    of amplitude 1, then after a change of tract length to 24 cm. *)
Definition tract_at_setup : State :=
  or_startup (main_setup (env_at 44100) true true).

Definition tract_after_impulse : State :=
  snd (run_tract (env_at 44100) (Fin 1) tract_at_setup).

Definition tract_resized : State :=
  or_startup (handle_event (env_at 44100) true true (set_length_event 127)
                           tract_after_impulse).

(** The program at 11025 Hz: after [main]'s setup, then after a change of
    tract length to 8 cm (controller value 0), then after one silent
    sample. *)
Definition short_at_setup : State :=
  or_startup (main_setup (env_at 11025) true true).

Definition short_tract : State :=
  or_startup (handle_event (env_at 11025) true true (set_length_event 0)
                           short_at_setup).

Definition short_tract_next : State :=
  snd (run_tract (env_at 11025) (Fin 0) short_tract).

(** The program at 8000 Hz: four segments, none of throat; with the
    phoneme of [main] the three tongue segments and the lip segment have
    the same impedance, 1 / (1 + MIN_AREA).  After [main]'s setup, then
    after one input sample of amplitude 1. *)
Definition narrow_at_setup : State :=
  or_startup (main_setup (env_at 8000) true true).

Definition narrow_after_impulse : State :=
  snd (run_tract (env_at 8000) (Fin 1) narrow_at_setup).

(** The program at 44100 Hz after a note-on for the preset A (note 0x24
    on the phoneme channel). *)
Definition tract_note_a : State :=
  or_startup (handle_event (env_at 44100) true true
                           (mkMidiEvent 0x99 0x24 100) tract_at_setup).

(** The program at 11025 Hz (five segments: one of throat, three of
    tongue, one of lips) after [main]'s setup and one input sample of
    amplitude 1, which puts a wave of amplitude 2/51 into segment 0. *)
Definition short_after_impulse : State :=
  snd (run_tract (env_at 11025) (Fin 1) short_at_setup).

(* ================================================================== *)
(** ** The rest of [process], and notions for its properties           *)
(* ================================================================== *)

(** The event loop of [process], from event number [i] on; [mem i] tells
    whether the two allocations of a resize at event [i] succeed. *)
Fixpoint handle_events (E : Env) (mem : nat -> bool * bool) (i : nat)
    (events : list MidiEvent) (s : State) : option State :=
  match events with
  | [] => Some s
  | ev :: rest =>
      match handle_event E (fst (mem i)) (snd (mem i)) ev s with
      | None => None
      | Some s1 => handle_events E mem (S i) rest s1
      end
  end.

(** [process]: the events of the block first, then its samples; the
    result is the content of the output buffer and the new globals. *)
Definition process (E : Env) (mem : nat -> bool * bool)
    (events : list MidiEvent) (input : list double) (s : State)
  : option (list double * State) :=
  match handle_events E mem 0 events s with
  | None => None
  | Some s1 => Some (run_samples E input s1)
  end.

(** A finite value between two bounds. *)
Definition between (lo hi : Q) (x : double) : Prop :=
  match x with
  | Fin q => lo <= q /\ q <= hi
  | _ => False
  end.

(** The phonemes that [get_mapped_phoneme] can return besides the
    ambient one. *)
Definition presets : list Phoneme :=
  [PHONEME_A; PHONEME_I; PHONEME_U; PHONEME_E; PHONEME_O; PHONEME_SCHWA;
   PHONEME_UH; PHONEME_AH; PHONEME_UE; PHONEME_II; PHONEME_OE].

(** The three fields of a phoneme are numbers from 0 to 1. *)
Definition normalized (p : Phoneme) : Prop :=
  between 0 1 (tongue_height p) /\
  between 0 1 (tongue_position p) /\
  between 0 1 (lips_roundedness p).

(** A control-change event and a note-on event on the phoneme channel,
    as [process] tells them apart. *)
Definition is_control_change (ev : MidiEvent) : Prop :=
  Z.land (status ev) 0xf0 = 0xb0%Z.

Definition is_phoneme_note_on (ev : MidiEvent) : Prop :=
  Z.land (status ev) 0xf0 = 0x90%Z /\
  Z.land (status ev) 0x0f = PHONEME_CHANNEL.

(** ** The regular regime of the program                               *)
(* ================================================================== *)

(** A MIDI data byte: seven bits. *)
Definition data_byte (v : Z) : Prop := (0 <= v <= 127)%Z.

(** The smallest and the largest impedance that [update_shape] asks for
    when the cosine is within [-1, 1] and the phoneme within [0, 1]: the
    area [unit_area + MIN_AREA] is then between [MIN_AREA] and
    [2 + MIN_AREA]. *)
Definition z_low : Q := 1000000 # 2000001.
Definition z_high : Q := 1000000.

Definition in_range (x : double) : Prop := between z_low z_high x.

(** A segment with impedances in range, rigidity 1 and finite waves. *)
Definition regular_segment (s : Segment) : Prop :=
  in_range (z s) /\ in_range (target_z s) /\ rigidity s = Fin 1 /\
  finite (left s) /\ finite (right s).

Definition regular (s : State) : Prop :=
  well_formed s /\
  (3 <= nsegments s)%Z /\
  Forall regular_segment (segments_front s) /\
  finite_waves (segments_back s) /\
  normalized (ambient_phoneme s) /\
  normalized (current_phoneme s) /\
  target_phoneme s = AmbientPtr /\
  between 0 1 (interpolation_drag s) /\
  finite (diaphram_pressure s) /\
  finite (damping s).

(** A buffer without sound: every amplitude is 0. *)
Definition silent (l : list Segment) : Prop :=
  Forall (fun s => left s =d= Fin 0 /\ right s =d= Fin 0) l.


(** The binary64 number nearest to 1e-17. *)
Definition tiny_impedance : Q :=
  6490371073168535 # 649037107316853453566312041152512.


(** The tests [=d=] and [between], as functions. *)
Definition deq_b (x y : double) : bool :=
  match x, y with
  | Fin a, Fin b => Qeq_bool a b
  | PInf, PInf | NInf, NInf | NaN, NaN => true
  | _, _ => false
  end.

Definition between_b (lo hi : Q) (x : double) : bool :=
  match x with
  | Fin q => Qle_bool lo q && Qle_bool q hi
  | _ => false
  end.

(** The pairs [min], [max] that [process] passes to [map2range]. *)
Definition byte_ranges : list (double * double) :=
  [(Fin 0, Fin 1);
   (CONTROLLER_TRACT_LENGTH_MIN, CONTROLLER_TRACT_LENGTH_MAX);
   (DRAG_MIN, DRAG_MAX);
   (MIN_DIAPHRAM_PRESSURE, MAX_DIAPHRAM_PRESSURE);
   (MIN_DAMPING, MAX_DAMPING)].

(** What [map2range] does in binary64 at the byte [v], for [min] and
    [max] as the program holds them: the result is between them, the
    byte 0 gives [min], the next byte gives a result further from [min],
    and the byte 127 gives [max] when [exact_end] asks for it. *)
Definition byte_ok (exact_end : bool) (lo hi : double) (v : Z) : bool :=
  let a := B64.rnd lo in
  let b := B64.rnd hi in
  let r := B64.map2range v a b in
  between_b (Qmin (qv a) (qv b)) (Qmax (qv a) (qv b)) r
  && (if (v =? 0)%Z then deq_b r a else true)
  && (if (v =? 127)%Z then (if exact_end then deq_b r b else true)
      else if dltb a b then dltb r (B64.map2range (v + 1) a b)
           else dltb (B64.map2range (v + 1) a b) r).


(** The number of segments as [init_tract] computes it in binary64:
    [(int)(desired_length / ((double)SPEED_OF_SOUND / rate))]. *)
Definition segment_count (sample_rate : Z) (desired_length : double)
  : option Z :=
  d2i (B64.div desired_length
         (B64.div (B64.of_int SPEED_OF_SOUND) (B64.of_int sample_rate))).

(** Sample rates in common use. *)
Definition common_rates : list Z :=
  [8000; 11025; 16000; 22050; 32000; 44100; 48000; 88200; 96000; 192000]%Z.

(** The exact quotient of [init_tract] and the binary64 one give the same
    number of segments. *)
Definition same_count (sample_rate : Z) (exact rounded : double) : bool :=
  match d2i (ddiv exact (ddiv (i2d SPEED_OF_SOUND) (i2d sample_rate))),
        segment_count sample_rate rounded with
  | Some n, Some m => (n =? m)%Z
  | _, _ => false
  end.

Definition default_count_ok (sample_rate : Z) : bool :=
  same_count sample_rate TRACT_LENGTH (B64.rnd TRACT_LENGTH).

Definition byte_count_ok (sample_rate v : Z) : bool :=
  same_count sample_rate
    (map2range v CONTROLLER_TRACT_LENGTH_MIN CONTROLLER_TRACT_LENGTH_MAX)
    (B64.map2range v (B64.rnd CONTROLLER_TRACT_LENGTH_MIN)
                     (B64.rnd CONTROLLER_TRACT_LENGTH_MAX)).


(* ================================================================== *)
(** * Properties                                                       *)
(* ================================================================== *)

(** ** Arithmetic *)

#[global] Instance deq_Equivalence : Equivalence deq.
Proof.
  split.
  - intros [q| | |]; simpl; auto. reflexivity.
  - intros [a| | |] [b| | |]; simpl; auto. intro H; symmetry; exact H.
  - intros [a| | |] [b| | |] [c| | |]; simpl; auto; try contradiction.
    intros H1 H2; rewrite H1; exact H2.
Qed.

Lemma is_zero_true (q : Q) : is_zero q = true <-> q == 0.
Proof.
  unfold is_zero, Qeq. simpl. rewrite Z.eqb_eq. lia.
Qed.

Lemma is_zero_false (q : Q) : is_zero q = false <-> ~ q == 0.
Proof.
  rewrite <- is_zero_true. destruct (is_zero q); split; congruence.
Qed.

Lemma is_pos_true (q : Q) : is_pos q = true <-> 0 < q.
Proof.
  unfold is_pos, Qlt. simpl. rewrite Z.ltb_lt. lia.
Qed.

Lemma is_neg_true (q : Q) : is_neg q = true <-> q < 0.
Proof.
  unfold is_neg, Qlt. simpl. rewrite Z.ltb_lt. lia.
Qed.

Lemma dadd_zero_l (x : double) : dadd (Fin 0) x =d= x.
Proof.
  destruct x; simpl; auto. lra.
Qed.

Lemma ddiv_fin (a b : Q) : ~ b == 0 -> ddiv (Fin a) (Fin b) = Fin (a / b).
Proof.
  intro H. simpl. apply is_zero_false in H. rewrite H. reflexivity.
Qed.

#[global] Instance dadd_Proper : Proper (deq ==> deq ==> deq) dadd.
Proof.
  intros [a| | |] [b| | |] H1 [c| | |] [d| | |] H2; simpl in *;
    try contradiction; auto.
  rewrite H1, H2. reflexivity.
Qed.

#[global] Instance dneg_Proper : Proper (deq ==> deq) dneg.
Proof.
  intros [a| | |] [b| | |] H; simpl in *; try contradiction; auto.
  rewrite H. reflexivity.
Qed.

#[global] Instance dsub_Proper : Proper (deq ==> deq ==> deq) dsub.
Proof.
  intros x x' Hx y y' Hy. unfold dsub. rewrite Hx, Hy. reflexivity.
Qed.

#[global] Instance dmul_Proper : Proper (deq ==> deq ==> deq) dmul.
Proof.
  assert (Hz : forall a b, a == b -> is_zero a = is_zero b).
  { intros a b H. destruct (is_zero b) eqn:Hb.
    - apply is_zero_true. rewrite H. now apply is_zero_true.
    - apply is_zero_false. rewrite H. now apply is_zero_false. }
  assert (Hp : forall a b, a == b -> is_pos a = is_pos b).
  { intros a b H. destruct (is_pos b) eqn:Hb.
    - apply is_pos_true. rewrite H. now apply is_pos_true.
    - destruct (is_pos a) eqn:Ha; auto.
      apply is_pos_true in Ha. rewrite H in Ha. apply is_pos_true in Ha.
      congruence. }
  assert (Hs : forall a b, a == b -> scale_inf a = scale_inf b).
  { intros a b H. unfold scale_inf. now rewrite (Hz a b H), (Hp a b H). }
  intros [a| | |] [b| | |] H1 [c| | |] [d| | |] H2; simpl in *;
    try contradiction; auto;
    try (rewrite (Hs _ _ H1)); try (rewrite (Hs _ _ H2));
    try reflexivity.
  - rewrite H1, H2. reflexivity.
  - rewrite (Hs (- a) (- b)); [reflexivity | now rewrite H1].
  - rewrite (Hs (- c) (- d)); [reflexivity | now rewrite H2].
Qed.

Lemma finite_inv (x : double) : finite x -> exists q, x = Fin q.
Proof.
  destruct x; simpl; try contradiction. intros _. now exists q.
Qed.

Lemma dltb_fin (a b : Q) : dltb (Fin a) (Fin b) = true <-> a < b.
Proof.
  simpl. rewrite negb_true_iff. split.
  - intro H. apply Qnot_le_lt. intro Hle.
    apply Qle_bool_iff in Hle. congruence.
  - intro H. destruct (Qle_bool b a) eqn:Hb; auto.
    apply Qle_bool_iff in Hb. lra.
Qed.

Lemma dltb_fin_false (a b : Q) : dltb (Fin a) (Fin b) = false <-> b <= a.
Proof.
  simpl. rewrite negb_false_iff. apply Qle_bool_iff.
Qed.

(** ** Arrays and loops *)

Lemma length_upd (i : nat) (f : Segment -> Segment) (l : list Segment) :
  length (upd i f l) = length l.
Proof.
  revert i. induction l as [|x t IH]; intros [|i]; simpl; auto.
Qed.

Lemma nth_upd (i j : nat) (f : Segment -> Segment) (l : list Segment)
    (d : Segment) :
  (j < length l)%nat ->
  nth j (upd i f l) d = if (j =? i)%nat then f (nth j l d) else nth j l d.
Proof.
  revert i j. induction l as [|x t IH]; intros i j Hj; simpl in Hj.
  - lia.
  - destruct i as [|i], j as [|j]; simpl; auto.
    apply IH. lia.
Qed.

Lemma upd_beyond (i : nat) (f : Segment -> Segment) (l : list Segment) :
  (length l <= i)%nat -> upd i f l = l.
Proof.
  revert i. induction l as [|x t IH]; intros [|i] H; simpl in *; auto.
  - lia.
  - f_equal. apply IH. lia.
Qed.

Lemma for_loop_nat {A : Type} (k : nat) (body : nat -> A -> A) (a : A) :
  for_loop (Z.of_nat (S k)) body a = body k (for_loop (Z.of_nat k) body a).
Proof.
  unfold for_loop. rewrite !Nat2Z.id, seq_S, fold_left_app. reflexivity.
Qed.

Lemma for_loop_zero {A : Type} (n : Z) (body : nat -> A -> A) (a : A) :
  (n <= 0)%Z -> for_loop n body a = a.
Proof.
  intro H. unfold for_loop.
  replace (Z.to_nat n) with 0%nat by lia. reflexivity.
Qed.

(** A loop that rewrites segment [i] at turn [i], from that segment
    alone, is a map over the first [n] segments. *)
Lemma pointwise_loop (g : nat -> Segment -> Segment) (k : nat)
    (l : list Segment) :
  length (for_loop (Z.of_nat k) (fun i => upd i (g i)) l) = length l /\
  forall j d, (j < length l)%nat ->
    nth j (for_loop (Z.of_nat k) (fun i => upd i (g i)) l) d =
    if (j <? k)%nat then g j (nth j l d) else nth j l d.
Proof.
  induction k as [|k [IHlen IH]].
  - split; [reflexivity | intros j d _; reflexivity].
  - rewrite for_loop_nat. split.
    + rewrite length_upd. exact IHlen.
    + intros j d Hj. rewrite nth_upd by lia. rewrite IH by exact Hj.
      destruct (Nat.eqb_spec j k) as [->|Hne].
      * rewrite Nat.ltb_irrefl.
        replace (k <? S k)%nat with true by (symmetry; apply Nat.ltb_lt; lia).
        reflexivity.
      * destruct (Nat.ltb_spec j k), (Nat.ltb_spec j (S k));
          try reflexivity; lia.
Qed.

(** ** The reflection coefficient *)

Lemma reflection_fin (z1 z2 : Q) :
  0 < z1 -> 0 < z2 ->
  reflection (Fin z1) (Fin z2) = Fin ((z2 + - z1) / (z2 + z1)).
Proof.
  intros H1 H2. unfold reflection, dsub. simpl dneg. simpl dadd.
  apply ddiv_fin. lra.
Qed.

Lemma product_within_unit (c h : Q) :
  -1 <= c -> c <= 1 -> 0 <= h -> h <= 1 -> -1 <= c * h /\ c * h <= 1.
Proof.
  intros C1 C2 H1 H2.
  assert (A : c * h <= 1 * h) by (apply Qmult_le_compat_r; assumption).
  assert (B : (-1) * h <= c * h) by (apply Qmult_le_compat_r; assumption).
  split; lra.
Qed.

(** ** Rounding to binary64 *)

Lemma rne_bounds (x : Q) : (Qfloor x <= B64.rne x <= Qfloor x + 1)%Z.
Proof.
  unfold B64.rne. cbv zeta.
  destruct (Qcompare _ _); [destruct (Z.even _)| |]; lia.
Qed.

Lemma rne_Proper (x y : Q) : x == y -> B64.rne x = B64.rne y.
Proof.
  intro H. unfold B64.rne. cbv zeta. rewrite (Qfloor_comp _ _ H).
  assert (Hc : Qcompare (x - inject_Z (Qfloor y)) (1 # 2)
               = Qcompare (y - inject_Z (Qfloor y)) (1 # 2)).
  { apply Qcompare_comp; [rewrite H; reflexivity | reflexivity]. }
  rewrite Hc. reflexivity.
Qed.

Lemma rne_mono (x y : Q) : x <= y -> (B64.rne x <= B64.rne y)%Z.
Proof.
  intro H. pose proof (Qfloor_resp_le _ _ H) as Hf.
  destruct (Z.eq_dec (Qfloor x) (Qfloor y)) as [He|Hne].
  - unfold B64.rne. cbv zeta. rewrite He.
    destruct (Qcompare_spec (x - inject_Z (Qfloor y)) (1 # 2)) as [A|A|A];
      destruct (Qcompare_spec (y - inject_Z (Qfloor y)) (1 # 2)) as [B|B|B];
      destruct (Z.even (Qfloor y)); try lia; exfalso; lra.
  - pose proof (rne_bounds x). pose proof (rne_bounds y). lia.
Qed.

Lemma rne_inject (n : Z) : B64.rne (inject_Z n) = n.
Proof.
  unfold B64.rne. cbv zeta. rewrite Qfloor_Z.
  destruct (Qcompare_spec (inject_Z n - inject_Z n) (1 # 2)) as [A|A|A];
    [exfalso; lra | reflexivity | exfalso; lra].
Qed.

Lemma pow2_pos (k : Z) : 0 < 2 ^ k.
Proof. apply Qpower_0_lt. reflexivity. Qed.

Lemma pow2_plus (a b : Z) : 2 ^ (a + b) == 2 ^ a * 2 ^ b.
Proof. apply Qpower_plus. intro H. discriminate H. Qed.

Lemma pow2_le (a b : Z) : (a <= b)%Z -> 2 ^ a <= 2 ^ b.
Proof. intro H. apply Qpower_le_compat_l; [exact H | discriminate]. Qed.

Lemma pow2_lt (a b : Z) : (a < b)%Z -> 2 ^ a < 2 ^ b.
Proof. intro H. apply Qpower_lt_compat_l; [exact H | reflexivity]. Qed.

Lemma pow2_inject (k : Z) : (0 <= k)%Z -> inject_Z (2 ^ k) == 2 ^ k.
Proof. intro H. apply (Zpower_Qpower 2 k H). Qed.

Lemma pow2_div (a b : Z) : 2 ^ a / 2 ^ b == 2 ^ (a - b).
Proof.
  symmetry. apply Qpower_minus. intro H. discriminate H.
Qed.

Lemma ilog2_spec (q : Q) :
  0 < q -> 2 ^ B64.ilog2 q <= q /\ q < 2 ^ (B64.ilog2 q + 1).
Proof.
  intro Hq. destruct q as [n d].
  assert (Hn : (0 < n)%Z).
  { unfold Qlt in Hq. cbn [Qnum Qden] in Hq. lia. }
  unfold B64.ilog2. cbn [Qnum Qden].
  set (la := Z.log2 n). set (lb := Z.log2 (Z.pos d)).
  destruct (Z.log2_spec n Hn) as (N0 & N1).
  destruct (Z.log2_spec (Z.pos d) ltac:(lia)) as (D0 & D1).
  fold la in N0, N1. fold lb in D0, D1.
  assert (La : (0 <= la)%Z) by apply Z.log2_nonneg.
  assert (Lb : (0 <= lb)%Z) by apply Z.log2_nonneg.
  rewrite Zle_Qle in N0, D0. rewrite Zlt_Qlt in N1, D1.
  rewrite pow2_inject in N0, N1, D0, D1 by lia.
  assert (Hdiv : n # d == inject_Z n / inject_Z (Z.pos d)) by apply Qmake_Qdiv.
  set (N := inject_Z n) in *. set (D := inject_Z (Z.pos d)) in *.
  assert (HD : 0 < D).
  { unfold D. change 0 with (inject_Z 0). rewrite <- Zlt_Qlt. lia. }
  assert (Hup : n # d < 2 ^ (la - lb + 1)).
  { rewrite Hdiv. apply Qlt_shift_div_r; [exact HD|].
    assert (E : 2 ^ (la - lb + 1) * 2 ^ lb == 2 ^ Z.succ la).
    { rewrite <- pow2_plus. replace (la - lb + 1 + lb)%Z with (Z.succ la) by lia.
      reflexivity. }
    assert (M : 2 ^ (la - lb + 1) * 2 ^ lb <= 2 ^ (la - lb + 1) * D).
    { rewrite !(Qmult_comm (2 ^ (la - lb + 1))).
      apply Qmult_le_compat_r; [exact D0|]. apply Qlt_le_weak, pow2_pos. }
    rewrite E in M. apply (Qlt_le_trans _ _ _ N1 M). }
  assert (Hlow : 2 ^ (la - lb - 1) < n # d).
  { rewrite Hdiv. apply Qlt_shift_div_l; [exact HD|].
    assert (E : 2 ^ (la - lb - 1) * 2 ^ Z.succ lb == 2 ^ la).
    { rewrite <- pow2_plus. replace (la - lb - 1 + Z.succ lb)%Z with la by lia.
      reflexivity. }
    assert (M : 2 ^ (la - lb - 1) * D < 2 ^ (la - lb - 1) * 2 ^ Z.succ lb).
    { rewrite !(Qmult_comm (2 ^ (la - lb - 1))).
      apply Qmult_lt_compat_r; [apply pow2_pos | exact D1]. }
    rewrite E in M. apply (Qlt_le_trans _ _ _ M N0). }
  destruct (Qle_bool (2 ^ (la - lb)) (n # d)) eqn:Hb.
  - apply Qle_bool_iff in Hb. split; assumption.
  - replace (la - lb - 1 + 1)%Z with (la - lb)%Z by lia. split.
    + apply Qlt_le_weak. exact Hlow.
    + apply Qnot_le_lt. intro H. apply Qle_bool_iff in H. congruence.
Qed.

Lemma ilog2_unique (q : Q) (e : Z) :
  0 < q -> 2 ^ e <= q -> q < 2 ^ (e + 1) -> B64.ilog2 q = e.
Proof.
  intros Hq H0 H1. destruct (ilog2_spec Hq) as (S0 & S1).
  destruct (Z.lt_trichotomy (B64.ilog2 q) e) as [Hlt|[Heq|Hgt]].
  - exfalso. pose proof (@pow2_le (B64.ilog2 q + 1) e ltac:(lia)) as P.
    apply (Qlt_irrefl q). apply (Qlt_le_trans _ _ _ S1).
    apply (Qle_trans _ _ _ P H0).
  - exact Heq.
  - exfalso. pose proof (@pow2_le (e + 1) (B64.ilog2 q) ltac:(lia)) as P.
    apply (Qlt_irrefl q). apply (Qlt_le_trans _ _ _ H1).
    apply (Qle_trans _ _ _ P S0).
Qed.

Lemma ilog2_Proper (a b : Q) : 0 < a -> a == b -> B64.ilog2 a = B64.ilog2 b.
Proof.
  intros Ha H. assert (Hb : 0 < b) by (rewrite <- H; exact Ha).
  destruct (ilog2_spec Hb) as (S0 & S1).
  apply ilog2_unique; [exact Ha | rewrite H; exact S0 | rewrite H; exact S1].
Qed.

Lemma ilog2_mono (a b : Q) :
  0 < a -> a <= b -> (B64.ilog2 a <= B64.ilog2 b)%Z.
Proof.
  intros Ha H. assert (Hb : 0 < b) by (apply (Qlt_le_trans _ _ _ Ha H)).
  destruct (ilog2_spec Ha) as (A0 & A1). destruct (ilog2_spec Hb) as (B0 & B1).
  destruct (Z_le_gt_dec (B64.ilog2 a) (B64.ilog2 b)) as [Hle|Hgt];
    [exact Hle|].
  exfalso. pose proof (@pow2_le (B64.ilog2 b + 1) (B64.ilog2 a) ltac:(lia)) as P.
  apply (Qlt_irrefl b). apply (Qlt_le_trans _ _ _ B1).
  apply (Qle_trans _ _ _ P). apply (Qle_trans _ _ _ A0 H).
Qed.

(** Rounding to the grid of step [2 ^ k] is monotone and keeps the powers
    [2 ^ j], [j >= k]. *)
Lemma grid_mono (k : Z) (x y : Q) :
  x <= y ->
  inject_Z (B64.rne (x / 2 ^ k)) * 2 ^ k
    <= inject_Z (B64.rne (y / 2 ^ k)) * 2 ^ k.
Proof.
  intro H. apply Qmult_le_compat_r; [|apply Qlt_le_weak, pow2_pos].
  rewrite <- Zle_Qle. apply rne_mono.
  apply Qmult_le_compat_r; [exact H|].
  apply Qlt_le_weak, Qinv_lt_0_compat, pow2_pos.
Qed.

Lemma grid_power (k j : Z) :
  (k <= j)%Z -> inject_Z (B64.rne (2 ^ j / 2 ^ k)) * 2 ^ k == 2 ^ j.
Proof.
  intro H.
  assert (E : 2 ^ j / 2 ^ k == inject_Z (2 ^ (j - k))).
  { rewrite pow2_div. symmetry. apply pow2_inject. lia. }
  rewrite (rne_Proper E), rne_inject, pow2_inject by lia.
  rewrite <- pow2_plus. replace (j - k + k)%Z with j by lia. reflexivity.
Qed.

Lemma grid_zero (k : Z) : inject_Z (B64.rne (0 / 2 ^ k)) * 2 ^ k == 0.
Proof.
  assert (E : 0 / 2 ^ k == inject_Z 0) by (unfold Qdiv; ring).
  rewrite (rne_Proper E), rne_inject. ring.
Qed.

Lemma fexp_mono (a b : Q) :
  0 < a -> a <= b -> (B64.fexp a <= B64.fexp b)%Z.
Proof.
  intros Ha H. unfold B64.fexp. pose proof (ilog2_mono Ha H). lia.
Qed.

Lemma round_pos_nonneg (a : Q) : 0 <= a -> 0 <= B64.round_pos a.
Proof.
  intro Ha. unfold B64.round_pos. cbv zeta.
  rewrite <- (grid_zero (B64.fexp a)). apply grid_mono. exact Ha.
Qed.

Lemma round_pos_Proper (a b : Q) :
  0 < a -> a == b -> B64.round_pos a == B64.round_pos b.
Proof.
  intros Ha H. unfold B64.round_pos, B64.fexp. cbv zeta.
  rewrite (ilog2_Proper Ha H).
  set (k := Z.max (B64.ilog2 b - 52) (-1074)).
  assert (E : a / 2 ^ k == b / 2 ^ k) by (rewrite H; reflexivity).
  rewrite (rne_Proper E). reflexivity.
Qed.

Lemma round_pos_mono (a b : Q) :
  0 < a -> a <= b -> B64.round_pos a <= B64.round_pos b.
Proof.
  intros Ha H. assert (Hb : 0 < b) by apply (Qlt_le_trans _ _ _ Ha H).
  pose proof (fexp_mono Ha H) as Hk.
  destruct (Z.eq_dec (B64.fexp a) (B64.fexp b)) as [He|Hne].
  - unfold B64.round_pos. cbv zeta. rewrite He. apply grid_mono. exact H.
  - pose proof (ilog2_mono Ha H) as Hi.
    destruct (ilog2_spec Ha) as (A0 & A1).
    destruct (ilog2_spec Hb) as (B0 & B1).
    set (ea := B64.ilog2 a) in *. set (eb := B64.ilog2 b) in *.
    assert (Hkb : B64.fexp b = (eb - 52)%Z) by (unfold B64.fexp in *; lia).
    assert (Hlt : (ea < eb)%Z) by (unfold B64.fexp in *; lia).
    assert (Ua : a <= 2 ^ eb).
    { apply Qlt_le_weak. apply (Qlt_le_trans _ _ _ A1).
      apply pow2_le. lia. }
    apply (Qle_trans _ (2 ^ eb)).
    + unfold B64.round_pos. cbv zeta.
      rewrite <- (@grid_power (B64.fexp a) eb) by lia.
      apply grid_mono. exact Ua.
    + unfold B64.round_pos. cbv zeta.
      rewrite <- (@grid_power (B64.fexp b) eb) at 1 by lia.
      apply grid_mono. exact B0.
Qed.

(** [round64] by the sign of its argument. *)
Lemma round64_zero (q : Q) : q == 0 -> B64.round64 q = Fin 0.
Proof.
  intro H. unfold B64.round64.
  assert (Hn : Qnum q = 0%Z).
  { unfold Qeq in H. cbn [Qnum Qden] in H. lia. }
  rewrite Hn. reflexivity.
Qed.

Lemma round64_pos (q : Q) :
  0 < q ->
  B64.round64 q =
  if Qle_bool (2 ^ 1024) (B64.round_pos q) then PInf
  else Fin (B64.round_pos q).
Proof.
  intro H. unfold B64.round64.
  destruct (Qnum q) as [|p|p] eqn:Hn; [| reflexivity |];
    exfalso; unfold Qlt in H; cbn [Qnum Qden] in H; rewrite Hn in H; lia.
Qed.

Lemma round64_neg (q : Q) :
  q < 0 ->
  B64.round64 q =
  if Qle_bool (2 ^ 1024) (B64.round_pos (- q)) then NInf
  else Fin (- B64.round_pos (- q)).
Proof.
  intro H. unfold B64.round64.
  destruct (Qnum q) as [|p|p] eqn:Hn; [| | reflexivity];
    exfalso; unfold Qlt in H; cbn [Qnum Qden] in H; rewrite Hn in H; lia.
Qed.

Lemma huge_Proper (a b : Q) :
  a == b -> Qle_bool (2 ^ 1024) a = Qle_bool (2 ^ 1024) b.
Proof.
  intro H. destruct (Qle_bool (2 ^ 1024) b) eqn:Hb.
  - apply Qle_bool_iff. rewrite H. apply Qle_bool_iff. exact Hb.
  - destruct (Qle_bool (2 ^ 1024) a) eqn:Ha; [|reflexivity].
    apply Qle_bool_iff in Ha. rewrite H in Ha. apply Qle_bool_iff in Ha.
    congruence.
Qed.

Lemma round64_Proper (a b : Q) : a == b -> B64.round64 a =d= B64.round64 b.
Proof.
  intro H. destruct (Q_dec a 0) as [[Hn|Hp]|Hz].
  - assert (Hb : b < 0) by (rewrite <- H; exact Hn).
    rewrite (round64_neg Hn), (round64_neg Hb).
    assert (Ho : - a == - b) by (rewrite H; reflexivity).
    assert (Hpa : 0 < - a) by lra.
    pose proof (round_pos_Proper Hpa Ho) as R.
    rewrite (huge_Proper R).
    destruct (Qle_bool _ _); cbn [deq]; [exact I | rewrite R; reflexivity].
  - assert (Hb : 0 < b) by (rewrite <- H; exact Hp).
    rewrite (round64_pos Hp), (round64_pos Hb).
    pose proof (round_pos_Proper Hp H) as R.
    rewrite (huge_Proper R).
    destruct (Qle_bool _ _); cbn [deq]; [exact I | exact R].
  - rewrite (round64_zero Hz), (@round64_zero b) by (rewrite <- H; exact Hz).
    reflexivity.
Qed.

Lemma round64_opp (q : Q) : B64.round64 (- q) =d= dneg (B64.round64 q).
Proof.
  destruct (Q_dec q 0) as [[Hn|Hp]|Hz].
  - assert (Hpo : 0 < - q) by lra.
    rewrite (round64_pos Hpo), (round64_neg Hn).
    destruct (Qle_bool _ _); cbn [dneg deq]; [exact I | ring].
  - assert (Hno : - q < 0) by lra.
    rewrite (round64_neg Hno), (round64_pos Hp).
    assert (E : - - q == q) by ring.
    pose proof (@round_pos_Proper (- - q) q ltac:(lra) E) as R.
    rewrite (huge_Proper R).
    destruct (Qle_bool _ _); cbn [dneg deq]; [exact I | rewrite R; reflexivity].
  - rewrite (round64_zero Hz), (@round64_zero (- q)) by (rewrite Hz; reflexivity).
    cbn [dneg deq]. reflexivity.
Qed.

Lemma round64_mono (a b : Q) :
  a <= b -> ext_le (B64.round64 a) (B64.round64 b).
Proof.
  intro H.
  destruct (Q_dec a 0) as [[An|Ap]|Az]; destruct (Q_dec b 0) as [[Bn|Bp]|Bz];
    try (exfalso; lra).
  - rewrite (round64_neg An), (round64_neg Bn).
    pose proof (@round_pos_mono (- b) (- a) ltac:(lra) ltac:(lra)) as M.
    destruct (Qle_bool (2 ^ 1024) (B64.round_pos (- a))) eqn:Ha;
      destruct (Qle_bool (2 ^ 1024) (B64.round_pos (- b))) eqn:Hb;
      cbn [ext_le]; try exact I.
    + apply Qle_bool_iff in Hb.
      assert (Hc : Qle_bool (2 ^ 1024) (B64.round_pos (- a)) = true)
        by (apply Qle_bool_iff; apply (Qle_trans _ _ _ Hb M)).
      congruence.
    + lra.
  - rewrite (round64_neg An), (round64_pos Bp).
    pose proof (@round_pos_nonneg (- a) ltac:(lra)) as Na.
    pose proof (@round_pos_nonneg b ltac:(lra)) as Nb.
    destruct (Qle_bool _ (B64.round_pos (- a)));
      destruct (Qle_bool _ (B64.round_pos b)); cbn [ext_le]; try exact I.
    lra.
  - rewrite (round64_neg An), (round64_zero Bz).
    pose proof (@round_pos_nonneg (- a) ltac:(lra)) as Na.
    destruct (Qle_bool _ _); cbn [ext_le]; [exact I | lra].
  - rewrite (round64_pos Ap), (round64_pos Bp).
    pose proof (round_pos_mono Ap H) as M.
    destruct (Qle_bool (2 ^ 1024) (B64.round_pos a)) eqn:Ha;
      destruct (Qle_bool (2 ^ 1024) (B64.round_pos b)) eqn:Hb;
      cbn [ext_le]; try exact I.
    + apply Qle_bool_iff in Ha.
      assert (Hc : Qle_bool (2 ^ 1024) (B64.round_pos b) = true)
        by (apply Qle_bool_iff; apply (Qle_trans _ _ _ Ha M)).
      congruence.
    + exact M.
  - rewrite (round64_zero Az), (round64_pos Bp).
    pose proof (@round_pos_nonneg b ltac:(lra)) as Nb.
    destruct (Qle_bool _ _); cbn [ext_le]; [exact I | exact Nb].
  - rewrite (round64_zero Az), (round64_zero Bz). cbn [ext_le]. lra.
Qed.

Lemma ext_le_deq (x x' y y' : double) :
  x =d= x' -> y =d= y' -> ext_le x y -> ext_le x' y'.
Proof.
  destruct x as [a| | |], x' as [a'| | |]; cbn [deq]; try contradiction;
    destruct y as [b| | |], y' as [b'| | |]; cbn [deq ext_le];
    try contradiction; auto.
  intros Ha Hb H. rewrite <- Ha, <- Hb. exact H.
Qed.

Lemma is_b64_opp (q : Q) : B64.is_b64 q -> B64.is_b64 (- q).
Proof.
  unfold B64.is_b64. intro H. rewrite round64_opp, H. reflexivity.
Qed.

Lemma is_b64_zero : B64.is_b64 0.
Proof. reflexivity. Qed.

Lemma is_b64_one : B64.is_b64 1.
Proof. vm_compute. reflexivity. Qed.

(** A number between two binary64 numbers rounds to a number between
    them. *)
Lemma round64_between (lo hi q : Q) :
  B64.is_b64 lo -> B64.is_b64 hi -> lo <= q -> q <= hi ->
  exists r : Q, B64.round64 q = Fin r /\ lo <= r /\ r <= hi.
Proof.
  unfold B64.is_b64. intros Hlo Hhi H0 H1.
  pose proof (@ext_le_deq _ _ _ _ Hlo (reflexivity (B64.round64 q))
                (round64_mono H0)) as L.
  pose proof (@ext_le_deq _ _ _ _ (reflexivity (B64.round64 q)) Hhi
                (round64_mono H1)) as U.
  destruct (B64.round64 q) as [r| | |]; cbn [ext_le] in L, U;
    try contradiction.
  exists r. repeat split; assumption.
Qed.

(** ** The reflection coefficient in binary64 *)

Lemma b64_reflection_formula (z1 z2 : Q) :
  B64.reflection (Fin z1) (Fin z2) =
  B64.rnd (ddiv (B64.round64 (z2 + - z1)) (B64.round64 (z2 + z1))).
Proof. reflexivity. Qed.

(** The rounded difference and the rounded sum of two positive binary64
    numbers. *)
Lemma b64_difference_and_sum (z1 z2 : Q) :
  0 < z1 -> 0 < z2 -> B64.is_b64 z1 -> B64.is_b64 z2 ->
  exists p : Q,
    B64.round64 (z2 + - z1) = Fin p /\
    (z1 <= z2 -> 0 <= p) /\ (z2 <= z1 -> p <= 0) /\
    (B64.round64 (z2 + z1) = PInf \/
     exists s : Q,
       B64.round64 (z2 + z1) = Fin s /\ 0 < s /\ - s <= p /\ p <= s).
Proof.
  intros H1 H2 B1 B2.
  destruct (@round64_between (- z1) z2 (z2 + - z1) (@is_b64_opp _ B1) B2
              ltac:(lra) ltac:(lra)) as (p & Hp & P0 & P1).
  exists p. split; [exact Hp|].
  split; [|split].
  - intro H. pose proof (@round64_mono 0 (z2 + - z1) ltac:(lra)) as M.
    rewrite Hp in M. exact M.
  - intro H. pose proof (@round64_mono (z2 + - z1) 0 ltac:(lra)) as M.
    rewrite Hp in M. exact M.
  - pose proof (@round64_mono z2 (z2 + z1) ltac:(lra)) as L.
    pose proof (@round64_mono (z2 + - z1) (z2 + z1) ltac:(lra)) as U.
    pose proof (@round64_mono (- (z2 + z1)) (z2 + - z1) ltac:(lra)) as D.
    rewrite Hp in U, D.
    pose proof (round64_opp (z2 + z1)) as O.
    unfold B64.is_b64 in B2.
    destruct (B64.round64 (z2 + z1)) as [s| | |] eqn:Hs.
    + right. exists s. split; [reflexivity|].
      destruct (B64.round64 z2) as [b| | |]; cbn [deq] in B2;
        try contradiction.
      cbn [ext_le] in L, U.
      destruct (B64.round64 (- (z2 + z1))) as [m| | |]; cbn [dneg deq] in O;
        try contradiction.
      cbn [ext_le] in D. repeat split; lra.
    + left. reflexivity.
    + exfalso.
      destruct (B64.round64 z2) as [b| | |]; cbn [deq] in B2;
        cbn [ext_le] in L; contradiction.
    + exfalso.
      destruct (B64.round64 z2) as [b| | |]; cbn [deq] in B2;
        cbn [ext_le] in L; contradiction.
Qed.

Lemma b64_quotient (p s : Q) :
  0 < s -> - s <= p -> p <= s ->
  exists r : Q,
    B64.round64 (p / s) = Fin r /\ -1 <= r /\ r <= 1 /\
    (0 <= p -> 0 <= r) /\ (p <= 0 -> r <= 0).
Proof.
  intros Hs H0 H1.
  assert (Q0 : -1 <= p / s) by (apply Qle_shift_div_l; lra).
  assert (Q1 : p / s <= 1) by (apply Qle_shift_div_r; lra).
  destruct (@round64_between (-1) 1 (p / s) (@is_b64_opp 1 is_b64_one)
              is_b64_one Q0 Q1) as (r & Hr & R0 & R1).
  exists r. split; [exact Hr|]. split; [exact R0|]. split; [exact R1|].
  split; intro H.
  - assert (Hq : 0 <= p / s) by (apply Qle_shift_div_l; lra).
    pose proof (round64_mono Hq) as M. rewrite Hr in M. exact M.
  - assert (Hq : p / s <= 0) by (apply Qle_shift_div_r; lra).
    pose proof (round64_mono Hq) as M. rewrite Hr in M. exact M.
Qed.

(** C4, as the code has it.  In binary64, for strictly positive finite
    impedances, [reflection z1 z2] is the rounded quotient of the rounded
    difference by the rounded sum; it is a finite number from -1 to 1,
    both included; it is not negative when [z1 <= z2], not positive when
    [z2 <= z1], and 0 when they are equal; and exchanging the two
    impedances changes its sign and nothing else. *)
Theorem reflection_bounded_antisymmetric (z1 z2 : Q) :
  0 < z1 -> 0 < z2 -> B64.is_b64 z1 -> B64.is_b64 z2 ->
  B64.reflection (Fin z1) (Fin z2) =
    B64.div (B64.sub (Fin z2) (Fin z1)) (B64.add (Fin z2) (Fin z1)) /\
  exists r : Q,
    B64.reflection (Fin z1) (Fin z2) = Fin r /\
    -1 <= r /\ r <= 1 /\
    (z1 <= z2 -> 0 <= r) /\
    (z2 <= z1 -> r <= 0) /\
    B64.reflection (Fin z2) (Fin z1) =d= Fin (- r).
Proof.
  intros H1 H2 B1 B2. split; [reflexivity|].
  rewrite (b64_reflection_formula z1 z2), (b64_reflection_formula z2 z1).
  destruct (b64_difference_and_sum H1 H2 B1 B2)
    as (p & Hp & P0 & P1 & Hsum).
  (* the same quantities with the impedances exchanged *)
  assert (Hp' : B64.round64 (z1 + - z2) =d= Fin (- p)).
  { assert (E : z1 + - z2 == - (z2 + - z1)) by ring.
    rewrite (round64_Proper E), round64_opp, Hp. reflexivity. }
  assert (Hs' : B64.round64 (z1 + z2) =d= B64.round64 (z2 + z1)).
  { apply round64_Proper. ring. }
  rewrite Hp.
  destruct (B64.round64 (z1 + - z2)) as [p'| | |]; cbn [deq] in Hp';
    try contradiction.
  destruct Hsum as [Hinf | (s & Hs & Spos & S0 & S1)].
  - rewrite Hinf in Hs' |- *.
    destruct (B64.round64 (z1 + z2)) as [s'| | |]; cbn [deq] in Hs';
      try contradiction.
    cbn [ddiv B64.rnd]. exists 0.
    split; [reflexivity|]. repeat split; try lra.
  - rewrite Hs in Hs' |- *.
    destruct (B64.round64 (z1 + z2)) as [s'| | |]; cbn [deq] in Hs';
      try contradiction.
    rewrite !ddiv_fin by lra. cbn [B64.rnd].
    destruct (b64_quotient Spos S0 S1) as (r & Hr & R0 & R1 & Rp & Rn).
    exists r. split; [exact Hr|]. split; [exact R0|]. split; [exact R1|].
    split; [intro H; apply Rp, P0, H|].
    split; [intro H; apply Rn, P1, H|].
    assert (E : p' / s' == - (p / s)).
    { rewrite Hp', Hs'. field. lra. }
    rewrite (round64_Proper E), round64_opp, Hr. reflexivity.
Qed.

Lemma reflection_bounded_antisymmetric_witness :
  B64.reflection (Fin 1) (Fin 5) =
    B64.div (B64.sub (Fin 5) (Fin 1)) (B64.add (Fin 5) (Fin 1)) /\
  exists r : Q,
    B64.reflection (Fin 1) (Fin 5) = Fin r /\
    -1 <= r /\ r <= 1 /\
    (1 <= 5 -> 0 <= r) /\
    (5 <= 1 -> r <= 0) /\
    B64.reflection (Fin 5) (Fin 1) =d= Fin (- r).
Proof.
  refine (@reflection_bounded_antisymmetric 1 5 _ _ _ _).
  - reflexivity.
  - reflexivity.
  - exact is_b64_one.
  - vm_compute. reflexivity.
Defined.

(** C4 as stated fails in binary64.  The binary64 number nearest to
    1e-17 and the number 1 are strictly positive impedances; the rounded
    difference and the rounded sum are both 1, so the coefficient is
    exactly 1 one way and exactly -1 the other way: not strictly between
    -1 and 1. *)
Lemma reflection_reaches_one :
  B64.lit (1 # 100000000000000000) =d= Fin tiny_impedance /\
  0 < tiny_impedance /\
  B64.is_b64 tiny_impedance /\ B64.is_b64 1 /\
  B64.sub (Fin 1) (Fin tiny_impedance) =d= Fin 1 /\
  B64.add (Fin 1) (Fin tiny_impedance) =d= Fin 1 /\
  B64.reflection (Fin tiny_impedance) (Fin 1) =d= Fin 1 /\
  B64.reflection (Fin 1) (Fin tiny_impedance) =d= Fin (-1) /\
  ~ (exists r : Q,
       B64.reflection (Fin tiny_impedance) (Fin 1) =d= Fin r /\
       -1 < r /\ r < 1).
Proof.
  assert (E : B64.reflection (Fin tiny_impedance) (Fin 1) =d= Fin 1)
    by (vm_compute; reflexivity).
  split; [vm_compute; reflexivity|].
  split; [reflexivity|].
  split; [vm_compute; reflexivity|].
  split; [exact is_b64_one|].
  split; [vm_compute; reflexivity|].
  split; [vm_compute; reflexivity|].
  split; [exact E|].
  split; [vm_compute; reflexivity|].
  intros (r & Hr & _ & R1).
  rewrite E in Hr. cbn [deq] in Hr. lra.
Qed.

(** ** Buffer pointers *)

Ltac by_buffer s :=
  unfold update_shape, set_front, set_back, swap_buffers,
         segments_front, segments_back;
  destruct (front_is_buffer1 s); reflexivity.

Lemma front_set_front (s : State) (l : list Segment) :
  segments_front (set_front s l) = l.
Proof. by_buffer s. Qed.

Lemma back_set_front (s : State) (l : list Segment) :
  segments_back (set_front s l) = segments_back s.
Proof. by_buffer s. Qed.

Lemma front_swap_set_back (s : State) (l : list Segment) :
  segments_front (swap_buffers (set_back s l)) = l.
Proof. by_buffer s. Qed.

Lemma back_swap_set_back (s : State) (l : list Segment) :
  segments_back (swap_buffers (set_back s l)) = segments_front s.
Proof. by_buffer s. Qed.

Lemma nsegments_set_current (s : State) (l : list Segment) (p : Phoneme)
    (c : nat) :
  nsegments (set_current (swap_buffers (set_back s l)) p c) = nsegments s.
Proof.
  unfold set_current, swap_buffers, set_back.
  destruct (front_is_buffer1 s); reflexivity.
Qed.

Lemma update_shape_scalars (E : Env) (b : bool) (s : State) :
  rate (update_shape E b s) = rate s /\
  unit_length (update_shape E b s) = unit_length s /\
  tract_length (update_shape E b s) = tract_length s /\
  nsegments (update_shape E b s) = nsegments s /\
  front_is_buffer1 (update_shape E b s) = front_is_buffer1 s.
Proof. repeat split; by_buffer s. Qed.

Lemma update_shape_controls (E : Env) (b : bool) (s : State) :
  ambient_phoneme (update_shape E b s) = ambient_phoneme s /\
  target_phoneme (update_shape E b s) = target_phoneme s /\
  current_phoneme (update_shape E b s) = current_phoneme s /\
  interpolation_drag (update_shape E b s) = interpolation_drag s /\
  diaphram_pressure (update_shape E b s) = diaphram_pressure s /\
  damping (update_shape E b s) = damping s /\
  rand_calls (update_shape E b s) = rand_calls s.
Proof. repeat split; by_buffer s. Qed.

Lemma update_shape_back (E : Env) (b : bool) (s : State) :
  segments_back (update_shape E b s) = segments_back s.
Proof. unfold update_shape. apply back_set_front. Qed.

(** ** Initialisation *)

(** C9. At a sample rate of 44100 Hz, [init_tract] with the desired length
    17.5 cm succeeds and sets [unit_length] to 34300/44100 (about 0.7778),
    [nsegments] to 22 and [tract_length] to 22 times [unit_length] (about
    17.11). *)
Theorem init_tract_derived_values
    (libm_cos : Q -> Q) (librand : nat -> Z) (rand_max : Z) (s : State) :
  exists s' : State,
    init_tract (mkEnv 44100 libm_cos librand rand_max) true true
               TRACT_LENGTH s = Some s' /\
    unit_length s' =d= Fin (34300 / 44100) /\
    nsegments s' = 22%Z /\
    d2i (ddiv TRACT_LENGTH (unit_length s')) = Some 22%Z /\
    tract_length s' =d= dmul (i2d 22) (unit_length s') /\
    dle (Fin (7777 # 10000)) (unit_length s') /\
    dle (unit_length s') (Fin (7778 # 10000)) /\
    dle (Fin (1711 # 100)) (tract_length s') /\
    dle (tract_length s') (Fin (1712 # 100)).
Proof.
  eexists. split.
  - unfold init_tract. cbn [jack_get_sample_rate].
    change (d2i (ddiv TRACT_LENGTH (ddiv (i2d SPEED_OF_SOUND) (i2d 44100))))
      with (Some 22%Z).
    cbv iota beta. reflexivity.
  - destruct (update_shape_scalars
                (mkEnv 44100 libm_cos librand rand_max) true
                (mkState 44100 (ddiv (i2d SPEED_OF_SOUND) (i2d 44100))
                   (dmul (i2d 22) (ddiv (i2d SPEED_OF_SOUND) (i2d 44100)))
                   22 (repeat neutral_segment (Z.to_nat 22))
                   (repeat neutral_segment (Z.to_nat 22)) true
                   (ambient_phoneme s) (target_phoneme s) (current_phoneme s)
                   (interpolation_drag s) (diaphram_pressure s) (damping s)
                   (rand_calls s)))
      as (_ & Hu & Ht & Hn & _).
    rewrite Hu, Ht, Hn. cbn [unit_length tract_length nsegments].
    repeat split; vm_compute; congruence.
Qed.

(** ** One turn of the scattering loop *)

Ltac upd_fields :=
  unfold add_right, add_left, store_z, store_left, store_right;
  repeat (rewrite nth_upd by (rewrite ?length_upd; assumption)).

Ltac split_eqb :=
  repeat match goal with
         | |- context [(?a =? ?b)%nat] => destruct (Nat.eqb_spec a b)
         end;
  cbn [z target_z rigidity left right]; try reflexivity; try lia.

Section ScatterTurn.
Variable E : Env.
Variable n : Z.
Variables damping diaphram_pressure glottal_source : double.
Variable front : list Segment.

Let turn_right := move_right E damping diaphram_pressure glottal_source front.
Let turn_left := move_left E n damping front.

Lemma move_right_scalars (i : nat) (a : Scatter) (area : double) :
  length (bk (fst (turn_right i a area))) = length (bk a) /\
  drain (fst (turn_right i a area)) = drain a /\
  rand_count (fst (turn_right i a area)) =
    (rand_count a + if (i =? 0)%nat then 0 else 1)%nat /\
  snd (turn_right i a area) = area_right front i area.
Proof.
  unfold turn_right, move_right, area_right, reflected_right.
  destruct (i =? 0)%nat; cbn [fst snd bk drain rand_count];
    unfold add_right, add_left; rewrite ?length_upd;
    repeat split; lia.
Qed.

Lemma move_right_fields (i j : nat) (a : Scatter) (area : double) :
  (j < length (bk a))%nat ->
  right (nth j (bk (fst (turn_right i a area))) nowhere) =
    (if (j =? i)%nat
     then dadd (right (nth j (bk a) nowhere))
               (own_right damping diaphram_pressure glottal_source front i)
     else right (nth j (bk a) nowhere)) /\
  left (nth j (bk (fst (turn_right i a area))) nowhere) =
    (if (S j =? i)%nat
     then dadd (dadd (left (nth j (bk a) nowhere))
                     (dmul (reflected_right front i)
                           (dsub (Fin 1) damping)))
               (dmul (dmul FRICATION
                           (clip_velocity (reflected_right front i)))
                     (noise E (rand_count a)))
     else left (nth j (bk a) nowhere)) /\
  z (nth j (bk (fst (turn_right i a area))) nowhere) =
    z (nth j (bk a) nowhere) /\
  target_z (nth j (bk (fst (turn_right i a area))) nowhere) =
    target_z (nth j (bk a) nowhere) /\
  rigidity (nth j (bk (fst (turn_right i a area))) nowhere) =
    rigidity (nth j (bk a) nowhere).
Proof.
  intro Hj.
  unfold turn_right, move_right, own_right, glottis_inflow, reflected_right.
  destruct (Nat.eqb_spec i 0) as [->|Hi]; cbn [fst bk].
  - upd_fields. repeat split; split_eqb.
  - upd_fields. repeat split; split_eqb.
Qed.

Lemma move_left_scalars (i : nat) (a : Scatter) (area : double) :
  length (bk (fst (turn_left i a area))) = length (bk a) /\
  rand_count (fst (turn_left i a area)) =
    (rand_count a + if (Z.of_nat i =? n - 1)%Z then 0 else 1)%nat /\
  snd (turn_left i a area) = area_left n front i area.
Proof.
  unfold turn_left, move_left, area_left, reflected_left, reflected_lips.
  destruct (Z.of_nat i =? n - 1)%Z; cbn [fst snd bk drain rand_count];
    unfold add_right, add_left; rewrite ?length_upd;
    repeat split; lia.
Qed.

Lemma move_left_fields (i j : nat) (a : Scatter) (area : double) :
  (j < length (bk a))%nat ->
  right (nth j (bk (fst (turn_left i a area))) nowhere) =
    (if (j =? S i)%nat && negb (Z.of_nat i =? n - 1)%Z
     then dadd (dadd (right (nth j (bk a) nowhere))
                     (dmul (reflected_left front i)
                           (dsub (Fin 1) damping)))
               (dmul (dmul FRICATION
                           (clip_velocity (reflected_left front i)))
                     (noise E (rand_count a)))
     else right (nth j (bk a) nowhere)) /\
  left (nth j (bk (fst (turn_left i a area))) nowhere) =
    (if (j =? i)%nat
     then dadd (left (nth j (bk a) nowhere)) (own_left n damping front i)
     else left (nth j (bk a) nowhere)) /\
  z (nth j (bk (fst (turn_left i a area))) nowhere) =
    z (nth j (bk a) nowhere) /\
  target_z (nth j (bk (fst (turn_left i a area))) nowhere) =
    target_z (nth j (bk a) nowhere) /\
  rigidity (nth j (bk (fst (turn_left i a area))) nowhere) =
    rigidity (nth j (bk a) nowhere).
Proof.
  intro Hj.
  unfold turn_left, move_left, own_left, reflected_left, reflected_lips.
  destruct (Z.of_nat i =? n - 1)%Z; cbn [fst bk negb andb].
  - rewrite andb_false_r. upd_fields. repeat split; split_eqb.
  - rewrite andb_true_r. replace (i + 1)%nat with (S i) by lia.
    upd_fields. repeat split; split_eqb.
Qed.

End ScatterTurn.

Section ScatterLoop.
Variable E : Env.
Variables damping diaphram_pressure glottal_source : double.
Variable front : list Segment.

Lemma scatter_unfold (n : Z) (i : nat) (a : Scatter) :
  scatter E n damping diaphram_pressure glottal_source front i a =
  let r := move_right E damping diaphram_pressure glottal_source front i a
             (ddiv (Fin 1) (z (nth i (bk a) nowhere))) in
  let l := move_left E n damping front i (fst r) (snd r) in
  mkScatter (store_z i (ddiv (Fin 1) (clamp_area (snd l))) (bk (fst l)))
            (drain (fst l)) (rand_count (fst l)).
Proof.
  unfold scatter.
  destruct (move_right E damping diaphram_pressure glottal_source front i a
              (ddiv (Fin 1) (z (nth i (bk a) nowhere)))) as [a1 area1].
  cbn [fst snd].
  destruct (move_left E n damping front i a1 area1) as [a2 area2].
  reflexivity.
Qed.

(** The initial back buffer, its length, and the state of [rand]. *)
Variable back0 : list Segment.
Variable c0 : nat.
Let len := length back0.
Let n := Z.of_nat len.
Let turn := scatter E n damping diaphram_pressure glottal_source front.

Let inv := scattered E n damping diaphram_pressure glottal_source front c0
             back0.

Lemma scattered_start (d : double) :
  inv 0%nat (mkScatter back0 d c0).
Proof.
  split; [reflexivity|]. split; [reflexivity|].
  intros j Hj. cbn [bk].
  unfold arrived_right.
  destruct (Nat.eqb_spec j 0) as [->|Hne]; repeat split.
Qed.

Lemma scattered_step (k : nat) (a : Scatter) :
  (k < len)%nat -> inv k a -> inv (S k) (turn k a).
Proof.
  intros Hk (Hlen & Hrand & Hfields).
  fold len in Hlen, Hrand, Hfields.
  unfold turn. rewrite scatter_unfold. cbv zeta.
  set (r := move_right E damping diaphram_pressure glottal_source front k a
              (ddiv (Fin 1) (z (nth k (bk a) nowhere)))).
  destruct (move_right_scalars E damping diaphram_pressure glottal_source
              front k a (ddiv (Fin 1) (z (nth k (bk a) nowhere))))
    as (Hrl & _ & Hrr & Hra).
  fold r in Hrl, Hrr, Hra.
  set (l := move_left E n damping front k (fst r) (snd r)).
  destruct (move_left_scalars E n damping front k (fst r) (snd r))
    as (Hll & Hlr & Hla).
  fold l in Hll, Hlr, Hla.
  unfold inv, scattered. fold len. cbn [bk drain rand_count].
  assert (Hlast : (Z.of_nat k =? n - 1)%Z = (S k =? len)%nat).
  { unfold n. destruct (Z.eqb_spec (Z.of_nat k) (Z.of_nat len - 1)),
      (Nat.eqb_spec (S k) len); try reflexivity; lia. }
  split; [unfold store_z; rewrite length_upd; congruence|].
  split.
  { rewrite Hlr, Hrr, Hrand, Hlast. unfold rand_after.
    destruct (Nat.eqb_spec k 0), (Nat.eqb_spec k len),
      (Nat.eqb_spec (S k) len); cbn [Nat.eqb]; lia. }
  intros j Hj.
  destruct (Hfields j Hj) as (Fr & Fl & Fz & Ft & Fg).
  assert (Hj1 : (j < length (bk a))%nat) by lia.
  assert (Hj2 : (j < length (bk (fst r)))%nat) by lia.
  assert (Hj3 : (j < length (bk (fst l)))%nat) by lia.
  destruct (@move_right_fields E damping diaphram_pressure glottal_source
              front k j a (ddiv (Fin 1) (z (nth k (bk a) nowhere))) Hj1)
    as (Rr & Rl & Rz & Rt & Rg).
  fold r in Rr, Rl, Rz, Rt, Rg.
  destruct (@move_left_fields E n damping front k j (fst r) (snd r) Hj2)
    as (Lr & Ll & Lz & Lt & Lg).
  fold l in Lr, Ll, Lz, Lt, Lg.
  unfold store_z. rewrite nth_upd by exact Hj3.
  assert (Hidx_r : (rand_count (fst r) = c0 + 2 * k)%nat).
  { rewrite Hrr, Hrand. unfold rand_after.
    destruct (Nat.eqb_spec k 0), (Nat.eqb_spec k len); lia. }
  repeat split.
  - (* right *)
    destruct (Nat.eqb_spec j k) as [->|Hjk]; cbn [right].
    + rewrite Lr, Rr, Fr. rewrite ?Nat.eqb_refl, ?Nat.ltb_irrefl.
      replace (k =? S k)%nat with false
        by (symmetry; apply Nat.eqb_neq; lia).
      replace (k <? S k)%nat with true
        by (symmetry; apply Nat.ltb_lt; lia).
      reflexivity.
    + rewrite Lr, Rr, Fr.
      replace (j =? k)%nat with false by (symmetry; apply Nat.eqb_neq; lia).
      destruct (Nat.eqb_spec j (S k)) as [->|Hjs].
      * rewrite Hlast.
        replace (S k =? len)%nat with false
          by (symmetry; apply Nat.eqb_neq; lia).
        replace (S k <? k)%nat with false
          by (symmetry; apply Nat.ltb_ge; lia).
        rewrite ?Nat.ltb_irrefl, ?Nat.eqb_refl. cbn [negb andb].
        unfold arrived_right. cbn [Nat.eqb].
        replace (S k - 1)%nat with k by lia.
        rewrite Hidx_r. reflexivity.
      * cbn [andb].
        destruct (Nat.ltb_spec j k), (Nat.ltb_spec j (S k));
          try reflexivity; try lia.
  - (* left *)
    destruct (Nat.eqb_spec j k) as [->|Hjk]; cbn [left].
    + rewrite Ll, Rl, Fl. rewrite ?Nat.eqb_refl.
      replace (S k =? k)%nat with false
        by (symmetry; apply Nat.eqb_neq; lia).
      replace (S k <? k)%nat with false
        by (symmetry; apply Nat.ltb_ge; lia).
      rewrite ?Nat.ltb_irrefl. reflexivity.
    + rewrite Ll, Rl, Fl.
      replace (j =? k)%nat with false by (symmetry; apply Nat.eqb_neq; lia).
      destruct (Nat.eqb_spec (S j) k) as [Hs|Hs].
      * subst k.
        replace (S j <? S j)%nat with false
          by (symmetry; apply Nat.ltb_ge; lia).
        replace (S j <? S (S j))%nat with true
          by (symmetry; apply Nat.ltb_lt; lia).
        unfold final_left.
        replace (Z.of_nat j =? n - 1)%Z with false
          by (symmetry; apply Z.eqb_neq; unfold n; lia).
        replace (j + 1)%nat with (S j) by lia.
        rewrite Hrand. unfold rand_after.
        replace (S j =? len)%nat with false
          by (symmetry; apply Nat.eqb_neq; lia).
        cbn [Nat.eqb].
        replace (c0 + (2 * S j - 1))%nat with (c0 + 2 * j + 1)%nat by lia.
        reflexivity.
      * destruct (Nat.ltb_spec (S j) k), (Nat.ltb_spec (S j) (S k)),
          (Nat.eqb_spec (S j) (S k)); try reflexivity; try lia.
  - (* z *)
    destruct (Nat.eqb_spec j k) as [->|Hjk]; cbn [z].
    + replace (k <? S k)%nat with true
        by (symmetry; apply Nat.ltb_lt; lia).
      unfold final_z. rewrite Hla, Hra.
      destruct (Hfields k Hk) as (_ & _ & Fz' & _).
      rewrite Fz', ?Nat.ltb_irrefl. reflexivity.
    + rewrite Lz, Rz, Fz.
      destruct (Nat.ltb_spec j k), (Nat.ltb_spec j (S k));
        try reflexivity; try lia.
  - destruct (Nat.eqb_spec j k) as [->|Hjk]; cbn [target_z];
      rewrite Lt, Rt, Ft; reflexivity.
  - destruct (Nat.eqb_spec j k) as [->|Hjk]; cbn [rigidity];
      rewrite Lg, Rg, Fg; reflexivity.
Qed.

Lemma scattered_loop (d : double) (k : nat) :
  (k <= len)%nat ->
  inv k (for_loop (Z.of_nat k) turn (mkScatter back0 d c0)).
Proof.
  induction k as [|k IH]; intro Hk.
  - apply scattered_start.
  - rewrite for_loop_nat. apply scattered_step; [lia | apply IH; lia].
Qed.

End ScatterLoop.

(** ** One call of [run_tract] *)

Lemma shape_segment_waves (E : Env) (start stop : Z) (cur : Phoneme)
    (i : nat) (s : Segment) :
  z (shape_segment E start stop cur false i s) = z s /\
  left (shape_segment E start stop cur false i s) = left s /\
  right (shape_segment E start stop cur false i s) = right s.
Proof.
  unfold shape_segment.
  destruct (Z.of_nat i <? start)%Z; [|destruct (stop <=? Z.of_nat i)%Z];
    repeat split.
Qed.

Lemma shape_segment_rigidity (E : Env) (start stop : Z) (cur : Phoneme)
    (set_z : bool) (i : nat) (s : Segment) :
  rigidity (shape_segment E start stop cur set_z i s) =
  if negb (Z.of_nat i <? start)%Z && (stop <=? Z.of_nat i)%Z
  then LIPS_RIGIDITY else rigidity s.
Proof.
  unfold shape_segment.
  destruct (Z.of_nat i <? start)%Z; [|destruct (stop <=? Z.of_nat i)%Z];
    destruct set_z; reflexivity.
Qed.

Lemma well_formed_front (s : State) :
  well_formed s <->
  length (segments_front s) = Z.to_nat (nsegments s) /\
  length (segments_back s) = Z.to_nat (nsegments s).
Proof.
  unfold well_formed, segments_front, segments_back.
  destruct (front_is_buffer1 s); tauto.
Qed.

Lemma for_loop_to_nat {A : Type} (n : Z) (body : nat -> A -> A) (a : A) :
  for_loop n body a = for_loop (Z.of_nat (Z.to_nat n)) body a.
Proof.
  unfold for_loop. rewrite Nat2Z.id. reflexivity.
Qed.

Lemma carry_over_loop (front back : list Segment) (k : nat) :
  length (for_loop (Z.of_nat k) (carry_over front) back) = length back /\
  forall j d, (j < length back)%nat ->
    nth j (for_loop (Z.of_nat k) (carry_over front) back) d =
    if (j <? k)%nat then carried (nth j front nowhere) else nth j back d.
Proof.
  apply (pointwise_loop (fun i _ => carried (nth i front nowhere)) k back).
Qed.

(** The front buffer after [run_tract], segment by segment, in terms of
    the front buffer before. *)
Lemma run_tract_front (E : Env) (glottal_source : double) (s : State) :
  well_formed s ->
  let s' := snd (run_tract E glottal_source s) in
  let front := segments_front s in
  length (segments_front s') = Z.to_nat (nsegments s) /\
  segments_back s' = segments_front s /\
  forall j, (j < Z.to_nat (nsegments s))%nat ->
    right (nth j (segments_front s') nowhere) =
      final_right E (damping s) (diaphram_pressure s) glottal_source front
                  (rand_calls s) j (Fin 0) /\
    left (nth j (segments_front s') nowhere) =
      final_left E (nsegments s) (damping s) front (rand_calls s) j (Fin 0) /\
    z (nth j (segments_front s') nowhere) =
      final_z (nsegments s) front j (z (carried (nth j front nowhere))) /\
    rigidity (nth j (segments_front s') nowhere) =
      (if negb (Z.of_nat j <? tongue_start (nsegments s))%Z
          && (tongue_stop (nsegments s) <=? Z.of_nat j)%Z
       then LIPS_RIGIDITY else rigidity (nth j front nowhere)).
Proof.
  intros Hwf s' front.
  destruct (proj1 (well_formed_front s) Hwf) as (Hf & Hb).
  destruct (Z.lt_ge_cases (nsegments s) 0) as [Hneg|Hpos].
  { replace (Z.to_nat (nsegments s)) with 0%nat in * by lia.
    unfold s', run_tract. cbn [snd]. unfold update_shape.
    rewrite front_set_front, back_set_front.
    rewrite !(@for_loop_zero _ (nsegments s)) by lia.
    cbn [bk rand_count].
    rewrite nsegments_set_current.
    rewrite (@for_loop_zero _ (nsegments s)) by lia.
    change (segments_front (set_current ?x ?p ?c)) with (segments_front x).
    change (segments_back (set_current ?x ?p ?c)) with (segments_back x).
    rewrite front_swap_set_back, back_swap_set_back.
    split; [exact Hb|]. split; [reflexivity|].
    intros j Hj. lia. }
  assert (Hn : nsegments s = Z.of_nat (Z.to_nat (nsegments s))) by lia.
  set (len := Z.to_nat (nsegments s)) in *.
  set (back0 := for_loop (nsegments s) (carry_over front) (segments_back s)).
  destruct (carry_over_loop front (segments_back s) len) as (Hlen0 & Hnth0).
  rewrite <- Hn in Hlen0, Hnth0. fold back0 in Hlen0, Hnth0.
  assert (Hlen : length back0 = len) by congruence.
  pose proof (@scattered_loop E (damping s) (diaphram_pressure s)
                glottal_source front back0 (rand_calls s) (Fin 0)
                len) as Hsc.
  rewrite Hlen in Hsc. specialize (Hsc (Nat.le_refl _)).
  rewrite <- Hn in Hsc.
  set (sc := for_loop (nsegments s)
               (scatter E (nsegments s) (damping s) (diaphram_pressure s)
                        glottal_source front)
               (mkScatter back0 (Fin 0) (rand_calls s))) in *.
  destruct Hsc as (Hsl & _ & Hsf). rewrite Hlen in Hsl, Hsf.
  assert (Hfront : segments_front s' =
            for_loop (nsegments s)
              (fun i => upd i
                 (shape_segment E (tongue_start (nsegments s))
                    (tongue_stop (nsegments s))
                    (advance_phoneme (current_phoneme s)
                       (deref s (target_phoneme s)) (interpolation_drag s))
                    false i))
              (bk sc)).
  { unfold s', run_tract. cbn [snd]. fold front. fold back0. fold sc.
    unfold update_shape. rewrite front_set_front.
    unfold set_current, set_back, swap_buffers, segments_front, deref.
    destruct (front_is_buffer1 s); reflexivity. }
  assert (Hback : segments_back s' = segments_front s).
  { unfold s', run_tract. cbn [snd]. fold front. fold back0. fold sc.
    rewrite update_shape_back.
    change (segments_back (swap_buffers (set_back s (bk sc))) =
            segments_front s).
    apply back_swap_set_back. }
  rewrite Hfront, Hn.
  destruct (pointwise_loop
              (fun i => shape_segment E (tongue_start (nsegments s))
                    (tongue_stop (nsegments s))
                    (advance_phoneme (current_phoneme s)
                       (deref s (target_phoneme s)) (interpolation_drag s))
                    false i) len (bk sc)) as (Hpl & Hpn).
  rewrite <- Hn. rewrite <- Hn in Hpl, Hpn.
  split; [congruence|]. split; [exact Hback|].
  intros j Hj.
  rewrite Hpn by lia.
  replace (j <? len)%nat with true by (symmetry; apply Nat.ltb_lt; lia).
  destruct (shape_segment_waves E (tongue_start (nsegments s))
              (tongue_stop (nsegments s))
              (advance_phoneme (current_phoneme s)
                 (deref s (target_phoneme s)) (interpolation_drag s))
              j (nth j (bk sc) nowhere)) as (Sz & Sl & Sr).
  rewrite Sz, Sl, Sr, shape_segment_rigidity.
  destruct (Hsf j Hj) as (Fr & Fl & Fz & _ & Fg).
  rewrite Fr, Fl, Fz, Fg.
  replace (j <? len)%nat with true by (symmetry; apply Nat.ltb_lt; lia).
  rewrite (Hnth0 j nowhere) by lia.
  replace (j <? len)%nat with true by (symmetry; apply Nat.ltb_lt; lia).
  cbn [right left z rigidity carried].
  repeat split.
  destruct (Nat.ltb_spec (S j) len) as [Hlt|Hge]; [reflexivity|].
  replace (S j =? len)%nat with true by (symmetry; apply Nat.eqb_eq; lia).
  unfold final_left.
  replace (Z.of_nat j =? nsegments s - 1)%Z with true
    by (symmetry; apply Z.eqb_eq; lia).
  reflexivity.
Qed.

Lemma dmul_one_r (x : double) : dmul x (Fin 1) =d= x.
Proof.
  destruct x; simpl; auto. lra.
Qed.

(** ** The glottis *)

(** C1, as the code has it. After [run_tract], segment 0 of the buffer
    just written holds, as its right-going amplitude, the front buffer's
    left-going amplitude scaled by [1 - damping], plus the source sample
    scaled by [1 - reflection DRAIN_Z z], plus the diaphragm pressure; the
    reflection is without loss when [damping] is 0. *)
Theorem glottis_reflects_with_damping (E : Env) (glottal_source : double)
    (s : State) :
  well_formed s -> (0 < nsegments s)%Z ->
  right (nth 0 (segments_front (snd (run_tract E glottal_source s))) nowhere)
    =d= glottis_inflow (damping s) (diaphram_pressure s) glottal_source
                       (segments_front s) /\
  (damping s =d= Fin 0 ->
   right (nth 0 (segments_front (snd (run_tract E glottal_source s))) nowhere)
     =d= glottis_inflow_lossless (diaphram_pressure s) glottal_source
                                 (segments_front s)).
Proof.
  intros Hwf Hn.
  destruct (run_tract_front E glottal_source Hwf) as (_ & _ & H).
  destruct (H 0%nat ltac:(lia)) as (Hr & _). rewrite Hr.
  unfold final_right, arrived_right, own_right. cbn [Nat.eqb].
  split; [apply dadd_zero_l|].
  intro Hd. rewrite dadd_zero_l.
  unfold glottis_inflow, glottis_inflow_lossless.
  rewrite Hd.
  change (dsub (Fin 1) (Fin 0)) with (Fin (1 + - 0)).
  assert (H1 : Fin (1 + - 0) =d= Fin 1) by (simpl; lra).
  rewrite H1, dmul_one_r. reflexivity.
Qed.

Lemma glottis_reflects_with_damping_witness :
  right (nth 0 (segments_front
                  (snd (run_tract (env_at 44100) (Fin 0) echo_at_glottis)))
             nowhere)
    =d= glottis_inflow (damping echo_at_glottis)
          (diaphram_pressure echo_at_glottis) (Fin 0)
          (segments_front echo_at_glottis) /\
  (damping echo_at_glottis =d= Fin 0 ->
   right (nth 0 (segments_front
                   (snd (run_tract (env_at 44100) (Fin 0) echo_at_glottis)))
              nowhere)
     =d= glottis_inflow_lossless (diaphram_pressure echo_at_glottis) (Fin 0)
           (segments_front echo_at_glottis)).
Proof.
  refine (@glottis_reflects_with_damping (env_at 44100) (Fin 0)
            echo_at_glottis _ _).
  - split; reflexivity.
  - reflexivity.
Defined.

(** C1, as the specification words it, fails: with the default damping
    0.04, a left-going wave of amplitude 1 at the glottis comes back as
    0.96, not as 1. *)
Lemma glottis_reflection_is_lossy :
  right (nth 0 (segments_front
                  (snd (run_tract (env_at 44100) (Fin 0) echo_at_glottis)))
             nowhere) =d= Fin (96 # 100) /\
  glottis_inflow_lossless (diaphram_pressure echo_at_glottis) (Fin 0)
    (segments_front echo_at_glottis) =d= Fin 1 /\
  ~ (right (nth 0 (segments_front
                     (snd (run_tract (env_at 44100) (Fin 0) echo_at_glottis)))
                nowhere)
       =d= glottis_inflow_lossless (diaphram_pressure echo_at_glottis) (Fin 0)
             (segments_front echo_at_glottis)).
Proof.
  repeat split; vm_compute; congruence.
Qed.

(** ** The shape function *)

Lemma is_zero_Qeq (a b : Q) : a == b -> is_zero a = is_zero b.
Proof.
  intro H. destruct (is_zero b) eqn:Hb.
  - apply is_zero_true. rewrite H. now apply is_zero_true.
  - apply is_zero_false. rewrite H. now apply is_zero_false.
Qed.

Lemma is_pos_Qeq (a b : Q) : a == b -> is_pos a = is_pos b.
Proof.
  intro H. destruct (is_pos b) eqn:Hb.
  - apply is_pos_true. rewrite H. now apply is_pos_true.
  - destruct (is_pos a) eqn:Ha; auto.
    apply is_pos_true in Ha. rewrite H in Ha. apply is_pos_true in Ha.
    congruence.
Qed.

Lemma is_neg_Qeq (a b : Q) : a == b -> is_neg a = is_neg b.
Proof.
  intro H. destruct (is_neg b) eqn:Hb.
  - apply is_neg_true. rewrite H. now apply is_neg_true.
  - destruct (is_neg a) eqn:Ha; auto.
    apply is_neg_true in Ha. rewrite H in Ha. apply is_neg_true in Ha.
    congruence.
Qed.

#[global] Instance ddiv_Proper : Proper (deq ==> deq ==> deq) ddiv.
Proof.
  intros [a| | |] [b| | |] H1 [c| | |] [d| | |] H2; simpl in *;
    try contradiction; auto; try reflexivity.
  - rewrite (is_zero_Qeq H2). destruct (is_zero d).
    + unfold scale_inf. rewrite (is_zero_Qeq H1), (is_pos_Qeq H1).
      reflexivity.
    + simpl. rewrite H1, H2. reflexivity.
  - rewrite (is_neg_Qeq H2). reflexivity.
  - rewrite (is_neg_Qeq H2). reflexivity.
Qed.

Lemma dcos_Proper (E : Env) :
  Proper (Qeq ==> Qeq) (cos E) -> Proper (deq ==> deq) (dcos E).
Proof.
  intros HE [a| | |] [b| | |] H; simpl in *; try contradiction; auto.
Qed.

Lemma cos_poly_Proper : Proper (Qeq ==> Qeq) cos_poly.
Proof.
  intros a b H. unfold cos_poly. rewrite H. reflexivity.
Qed.

Lemma inject_Z_nonzero (x : Z) : x <> 0%Z -> ~ inject_Z x == 0.
Proof.
  intros H H0. apply H. unfold Qeq in H0. simpl in H0. lia.
Qed.

Lemma tongue_zone (n : Z) :
  (0 <= n)%Z ->
  (0 <= tongue_start n <= tongue_stop n)%Z /\
  (tongue_stop n <= n)%Z /\
  (3 <= n -> tongue_start n + 2 <= tongue_stop n)%Z /\
  (1 <= n -> tongue_stop n < n)%Z.
Proof.
  intro Hn. unfold tongue_start, tongue_stop, Qtrunc, TONGUE_BACK, TONGUE_FRONT.
  cbn [Qmult Qnum Qden inject_Z].
  change (Z.pos (10 * 1)) with 10%Z.
  pose proof (Z.quot_rem' (2 * n) 10) as H2.
  pose proof (Z.quot_rem' (9 * n) 10) as H9.
  pose proof (Z.rem_bound_pos (2 * n) 10 ltac:(lia) ltac:(lia)) as B2.
  pose proof (Z.rem_bound_pos (9 * n) 10 ltac:(lia) ltac:(lia)) as B9.
  repeat split; intros; lia.
Qed.

(** The segments of the front buffer after [update_shape]. *)
Lemma update_shape_front (E : Env) (set_z : bool) (s : State) :
  well_formed s ->
  length (segments_front (update_shape E set_z s)) =
    Z.to_nat (nsegments s) /\
  forall j, (j < Z.to_nat (nsegments s))%nat ->
    nth j (segments_front (update_shape E set_z s)) nowhere =
    shape_segment E (tongue_start (nsegments s)) (tongue_stop (nsegments s))
                  (current_phoneme s) set_z j
                  (nth j (segments_front s) nowhere).
Proof.
  intro Hwf. destruct (proj1 (well_formed_front s) Hwf) as (Hf & _).
  unfold update_shape. rewrite front_set_front.
  destruct (pointwise_loop
              (shape_segment E (tongue_start (nsegments s))
                 (tongue_stop (nsegments s)) (current_phoneme s) set_z)
              (Z.to_nat (nsegments s)) (segments_front s)) as (Hl & Hp).
  rewrite <- for_loop_to_nat in Hl, Hp. split; [congruence|].
  intros j Hj. rewrite Hp by lia.
  replace (j <? Z.to_nat (nsegments s))%nat with true
    by (symmetry; apply Nat.ltb_lt; lia).
  reflexivity.
Qed.

Lemma shape_segment_target (E : Env) (start stop : Z) (cur : Phoneme)
    (set_z : bool) (i : nat) (s : Segment) :
  target_z (shape_segment E start stop cur set_z i s) =
  if (Z.of_nat i <? start)%Z then THROAT_Z
  else if (stop <=? Z.of_nat i)%Z then lips_z cur
  else profile_z E cur
         (ddiv (i2d (Z.of_nat i - start)) (i2d (stop - start - 1))).
Proof.
  unfold shape_segment, lips_z, profile_z.
  destruct (Z.of_nat i <? start)%Z; [|destruct (stop <=? Z.of_nat i)%Z];
    destruct set_z; reflexivity.
Qed.

Lemma profile_z_Proper (E : Env) (cur : Phoneme) :
  Proper (Qeq ==> Qeq) (cos E) -> Proper (deq ==> deq) (profile_z E cur).
Proof.
  intros HE u v H. unfold profile_z.
  pose proof (@dcos_Proper E HE) as HC.
  rewrite H. reflexivity.
Qed.

(** C7, as the code has it. On a chain of at least three segments, the
    target impedance of the first tongue segment is the cosine profile at
    position 0 and that of the last tongue segment the profile at position
    1, whatever the neighbouring zones hold: every throat segment has
    [THROAT_Z] and every lip segment [1 / (1 - lips_roundedness + MIN_AREA)]. *)
Theorem tongue_edges_follow_profile (E : Env) (set_z : bool) (s : State) :
  Proper (Qeq ==> Qeq) (cos E) ->
  well_formed s -> (3 <= nsegments s)%Z ->
  let n := nsegments s in
  let shaped := segments_front (update_shape E set_z s) in
  let target (i : Z) := target_z (nth (Z.to_nat i) shaped nowhere) in
  target (tongue_start n) =d= profile_z E (current_phoneme s) (Fin 0) /\
  target (tongue_stop n - 1)%Z =d= profile_z E (current_phoneme s) (Fin 1) /\
  (forall i, 0 <= i < tongue_start n -> target i = THROAT_Z)%Z /\
  (forall i, tongue_stop n <= i < n -> target i = lips_z (current_phoneme s))%Z.
Proof.
  intros HE Hwf Hn n shaped target.
  destruct (tongue_zone (n := n) ltac:(unfold n; lia))
    as (Hs & Hsn & H2 & Hp).
  specialize (H2 Hn). specialize (Hp ltac:(unfold n; lia)).
  destruct (update_shape_front E set_z Hwf) as (_ & Hnth).
  fold n in Hnth.
  assert (Ht : forall i, (0 <= i < n)%Z ->
            target i =
            if (i <? tongue_start n)%Z then THROAT_Z
            else if (tongue_stop n <=? i)%Z then lips_z (current_phoneme s)
            else profile_z E (current_phoneme s)
                   (ddiv (i2d (i - tongue_start n))
                         (i2d (tongue_stop n - tongue_start n - 1)))).
  { intros i Hi. unfold target, shaped. rewrite Hnth by lia.
    rewrite shape_segment_target. rewrite Z2Nat.id by lia. reflexivity. }
  pose proof (@profile_z_Proper E (current_phoneme s) HE) as HP.
  repeat split.
  - rewrite Ht by lia.
    replace (tongue_start n <? tongue_start n)%Z with false
      by (symmetry; apply Z.ltb_ge; lia).
    replace (tongue_stop n <=? tongue_start n)%Z with false
      by (symmetry; apply Z.leb_gt; lia).
    apply HP. rewrite Z.sub_diag. unfold i2d. rewrite ddiv_fin.
    + cbn [deq]. field. apply inject_Z_nonzero. lia.
    + apply inject_Z_nonzero. lia.
  - rewrite Ht by lia.
    replace (tongue_stop n - 1 <? tongue_start n)%Z with false
      by (symmetry; apply Z.ltb_ge; lia).
    replace (tongue_stop n <=? tongue_stop n - 1)%Z with false
      by (symmetry; apply Z.leb_gt; lia).
    apply HP.
    replace (tongue_stop n - 1 - tongue_start n)%Z
      with (tongue_stop n - tongue_start n - 1)%Z by lia.
    unfold i2d. rewrite ddiv_fin.
    + cbn [deq]. field. apply inject_Z_nonzero. lia.
    + apply inject_Z_nonzero. lia.
  - intros i Hi. rewrite Ht by lia.
    replace (i <? tongue_start n)%Z with true
      by (symmetry; apply Z.ltb_lt; lia).
    reflexivity.
  - intros i Hi. rewrite Ht by lia.
    replace (i <? tongue_start n)%Z with false
      by (symmetry; apply Z.ltb_ge; lia).
    replace (tongue_stop n <=? i)%Z with true
      by (symmetry; apply Z.leb_le; lia).
    reflexivity.
Qed.

Lemma tongue_edges_follow_profile_witness :
  let shaped := segments_front shaped_u in
  let target (i : Z) := target_z (nth (Z.to_nat i) shaped nowhere) in
  target (tongue_start 22) =d= profile_z (env_at 44100) PHONEME_U (Fin 0) /\
  target (tongue_stop 22 - 1)%Z
    =d= profile_z (env_at 44100) PHONEME_U (Fin 1) /\
  (forall i, 0 <= i < tongue_start 22 -> target i = THROAT_Z)%Z /\
  (forall i, tongue_stop 22 <= i < 22 -> target i = lips_z PHONEME_U)%Z.
Proof.
  apply (@tongue_edges_follow_profile (env_at 44100) true unshaped_u).
  - exact cos_poly_Proper.
  - split; reflexivity.
  - vm_compute; congruence.
Defined.

(** C7, as the specification words it, fails: for the preset U on 22
    segments the tongue zone is segments 4 to 18; its first segment has
    target impedance 1/(1 + MIN_AREA) next to a throat at 5, and its last
    segment the same next to lips at 1/(0.1 + MIN_AREA). *)
Lemma tongue_edges_jump :
  let shaped := segments_front shaped_u in
  tongue_start 22 = 4%Z /\ tongue_stop 22 = 19%Z /\
  target_z (nth 3 shaped nowhere) = THROAT_Z /\
  target_z (nth 4 shaped nowhere) =d= Fin (1000000 # 1000001) /\
  target_z (nth 18 shaped nowhere) =d= Fin (1000000 # 1000001) /\
  target_z (nth 19 shaped nowhere) =d= Fin (1000000 # 100001) /\
  ~ within MIN_AREA (target_z (nth 4 shaped nowhere)) THROAT_Z /\
  ~ within MIN_AREA (target_z (nth 18 shaped nowhere)) (lips_z PHONEME_U).
Proof.
  cbv zeta.
  split; [vm_compute; reflexivity|].
  split; [vm_compute; reflexivity|].
  split; [vm_compute; reflexivity|].
  split; [vm_compute; reflexivity|].
  split; [vm_compute; reflexivity|].
  split; [vm_compute; reflexivity|].
  split; vm_compute; intro H; apply H; reflexivity.
Qed.

(** ** Resizing *)

(** C3 on a run of the program. After one sample the front buffer is
    [buffer2] and carries the injected wave (2/51 in segment 0); the
    resize that follows makes [buffer1] the front buffer and fills it from
    the old [buffer1], the stale back buffer: the wave is gone from the
    front buffer and sits in the new back buffer. *)
Theorem resize_fronts_stale_buffer :
  main_setup (env_at 44100) true true = Some tract_at_setup /\
  handle_event (env_at 44100) true true (set_length_event 127)
               tract_after_impulse = Some tract_resized /\
  nsegments tract_after_impulse = 22%Z /\
  nsegments tract_resized = 30%Z /\
  front_is_buffer1 tract_after_impulse = false /\
  front_is_buffer1 tract_resized = true /\
  right (nth 0 (segments_front tract_after_impulse) nowhere)
    =d= Fin (2 # 51) /\
  right (nth 0 (segments_front tract_resized) nowhere) =d= Fin 0 /\
  right (nth 0 (segments_back tract_resized) nowhere) =d= Fin (2 # 51).
Proof.
  repeat split; vm_compute; reflexivity.
Qed.

Lemma init_tract_allocation (E : Env) (alloc1 alloc2 : bool)
    (desired_length : double) (s : State) (n : Z) :
  d2i (ddiv desired_length
            (ddiv (i2d SPEED_OF_SOUND) (i2d (jack_get_sample_rate E))))
    = Some n ->
  (0 < n)%Z ->
  (init_tract E alloc1 alloc2 desired_length s = None <->
   alloc1 && alloc2 = false).
Proof.
  intros Hd Hn. unfold init_tract. rewrite Hd.
  replace (0 <? n)%Z with true by (symmetry; apply Z.ltb_lt; exact Hn).
  destruct alloc1, alloc2; cbn [andb negb]; split; intro H;
    try reflexivity; discriminate.
Qed.

(** C8, as the code has it. [resize_tract] never looks at what [malloc]
    returned: when the new chain has at least one segment, the resize has
    a result exactly when both allocations succeed; when one fails, the
    initialisation loop stores through a null pointer and nothing of the
    program state is left defined. *)
Theorem resize_needs_both_allocations (E : Env) (alloc1 alloc2 : bool)
    (desired_length : double) (s : State) (n : Z) :
  d2i (ddiv desired_length
            (ddiv (i2d SPEED_OF_SOUND) (i2d (jack_get_sample_rate E))))
    = Some n ->
  (0 < n)%Z ->
  (resize_tract E alloc1 alloc2 desired_length s = None <->
   alloc1 && alloc2 = false).
Proof.
  intros Hd Hn.
  pose proof (init_tract_allocation E alloc1 alloc2 desired_length s Hd Hn)
    as Hi.
  unfold resize_tract.
  destruct (init_tract E alloc1 alloc2 desired_length s) as [s'|].
  - split; [discriminate|]. intro H. apply Hi in H. discriminate.
  - split; [intros _; now apply Hi | reflexivity].
Qed.

Lemma resize_needs_both_allocations_witness :
  resize_tract (env_at 44100) false true TRACT_LENGTH tract_at_setup = None
  <-> false && true = false.
Proof.
  refine (@resize_needs_both_allocations (env_at 44100) false true
            TRACT_LENGTH tract_at_setup 22 _ _); reflexivity.
Defined.

(** C8, as the specification words it, fails: when the first allocation
    of a resize fails, the result is not the prior chain left intact, it
    is no state at all. *)
Lemma failed_allocation_loses_the_tract :
  resize_tract (env_at 44100) false true TRACT_LENGTH tract_at_setup
    <> Some tract_at_setup /\
  resize_tract (env_at 44100) true false TRACT_LENGTH tract_at_setup = None /\
  handle_event (env_at 44100) false true (set_length_event 127)
               tract_at_setup = None.
Proof.
  repeat split; vm_compute; congruence.
Qed.

(** ** Impedances that are not positive *)

(** C2 on a run of the program. At 11025 Hz, setting the tract length to
    8 cm gives a chain of two segments whose tongue zone is the single
    segment 0; [update_shape] divides 0 by [ntongue - 1 = 0] there, and the
    impedance of segment 0 is NaN, which no comparison with 0 detects.  One
    sample later the NaN has reached segment 1 as well.  The clamp itself
    lets through every area from 0 to [MIN_AREA]. *)
Theorem short_tract_has_nan_impedance :
  main_setup (env_at 11025) true true = Some short_at_setup /\
  handle_event (env_at 11025) true true (set_length_event 0) short_at_setup
    = Some short_tract /\
  Reachable (env_at 11025) short_tract /\
  Reachable (env_at 11025) short_tract_next /\
  nsegments short_tract = 2%Z /\
  tongue_start 2 = 0%Z /\ tongue_stop 2 = 1%Z /\
  z (nth 0 (segments_front short_tract) nowhere) = NaN /\
  ~ dpositive (z (nth 0 (segments_front short_tract) nowhere)) /\
  z (nth 0 (segments_front short_tract_next) nowhere) = NaN /\
  z (nth 1 (segments_front short_tract_next) nowhere) = NaN /\
  clamp_area NaN = NaN /\
  clamp_area (Fin 0) = Fin 0 /\
  ddiv (Fin 1) (clamp_area (Fin 0)) = PInf /\
  clamp_area (Fin (1 # 10000000)) = Fin (1 # 10000000).
Proof.
  assert (H0 : main_setup (env_at 11025) true true = Some short_at_setup)
    by (vm_compute; reflexivity).
  assert (H1 : handle_event (env_at 11025) true true (set_length_event 0)
                 short_at_setup = Some short_tract)
    by (vm_compute; reflexivity).
  assert (R1 : Reachable (env_at 11025) short_tract).
  { eapply reach_event; [eapply reach_setup; exact H0 | exact H1]. }
  split; [exact H0|]. split; [exact H1|]. split; [exact R1|].
  split; [apply reach_sample; exact R1|].
  split; [vm_compute; reflexivity|].
  split; [reflexivity|]. split; [reflexivity|].
  split; [vm_compute; reflexivity|].
  split; [vm_compute; intro H; exact H|].
  repeat split; vm_compute; reflexivity.
Qed.

(** ** Invariants of the running program *)

Lemma all_rigid_nth (l : list Segment) :
  all_rigid l <->
  forall j, (j < length l)%nat -> rigidity (nth j l nowhere) = Fin 1.
Proof.
  unfold all_rigid. rewrite Forall_nth. split.
  - intros H j Hj. apply H. exact Hj.
  - intros H j d Hj. rewrite (nth_indep l d nowhere Hj). apply H. exact Hj.
Qed.

Lemma sound_iff (s : State) :
  sound s <->
  (length (segments_front s) = Z.to_nat (nsegments s) /\
   length (segments_back s) = Z.to_nat (nsegments s)) /\
  all_rigid (segments_front s) /\ all_rigid (segments_back s).
Proof.
  unfold sound. rewrite well_formed_front.
  unfold segments_front, segments_back.
  destruct (front_is_buffer1 s); tauto.
Qed.

Lemma update_shape_sound (E : Env) (set_z : bool) (s : State) :
  sound s -> sound (update_shape E set_z s).
Proof.
  intro Hs. pose proof Hs as (Hwf & _).
  apply sound_iff in Hs. destruct Hs as ((Hf & Hb) & Rf & Rb).
  destruct (update_shape_front E set_z Hwf) as (Hlen & Hnth).
  destruct (update_shape_scalars E set_z s) as (_ & _ & _ & Hn & _).
  apply sound_iff. rewrite update_shape_back, Hn.
  repeat split; auto.
  apply all_rigid_nth. intros j Hj. rewrite Hlen in Hj.
  rewrite (Hnth j Hj), shape_segment_rigidity.
  destruct (_ && _); [reflexivity|].
  apply (proj1 (all_rigid_nth _) Rf). lia.
Qed.

Lemma all_rigid_repeat (k : nat) : all_rigid (repeat neutral_segment k).
Proof.
  apply Forall_forall. intros x Hx. apply repeat_spec in Hx. subst x.
  reflexivity.
Qed.

Lemma init_tract_sound (E : Env) (alloc1 alloc2 : bool)
    (desired_length : double) (s s' : State) :
  init_tract E alloc1 alloc2 desired_length s = Some s' -> sound s'.
Proof.
  unfold init_tract.
  destruct (d2i _) as [n|]; [|discriminate].
  destruct (_ && _); [discriminate|].
  intro H. injection H as <-.
  apply update_shape_sound.
  repeat split; cbn [buffer1 buffer2 nsegments];
    try apply repeat_length; apply all_rigid_repeat.
Qed.

Lemma init_tract_front (E : Env) (alloc1 alloc2 : bool)
    (desired_length : double) (s s' : State) :
  init_tract E alloc1 alloc2 desired_length s = Some s' ->
  front_is_buffer1 s' = true.
Proof.
  unfold init_tract.
  destruct (d2i _) as [n|]; [|discriminate].
  destruct (_ && _); [discriminate|].
  intro H. injection H as <-.
  destruct (update_shape_scalars E true
              (mkState (jack_get_sample_rate E)
                 (ddiv (i2d SPEED_OF_SOUND) (i2d (jack_get_sample_rate E)))
                 (dmul (i2d n)
                    (ddiv (i2d SPEED_OF_SOUND)
                          (i2d (jack_get_sample_rate E))))
                 n (repeat neutral_segment (Z.to_nat n))
                 (repeat neutral_segment (Z.to_nat n)) true
                 (ambient_phoneme s) (target_phoneme s) (current_phoneme s)
                 (interpolation_drag s) (diaphram_pressure s) (damping s)
                 (rand_calls s))) as (_ & _ & _ & _ & Hf).
  exact Hf.
Qed.

(** The copy loop of [resize_tract], segment by segment. *)
Lemma copy_waves_loop (old1 old2 : list Segment) (k : nat)
    (b1 b2 : list Segment) :
  let new := for_loop (Z.of_nat k) (copy_waves old1 old2) (b1, b2) in
  length (fst new) = length b1 /\
  length (snd new) = length b2 /\
  (forall j, (j < length b1)%nat ->
     nth j (fst new) nowhere =
     if (j <? k)%nat
     then transplant (nth j old1 nowhere) (nth j b1 nowhere)
     else nth j b1 nowhere) /\
  (forall j, (j < length b2)%nat ->
     nth j (snd new) nowhere =
     if (j <? k)%nat
     then transplant (nth j old2 nowhere) (nth j b2 nowhere)
     else nth j b2 nowhere).
Proof.
  induction k as [|k IH]; cbv zeta.
  - repeat split.
  - rewrite for_loop_nat. cbv zeta in IH.
    destruct (for_loop (Z.of_nat k) (copy_waves old1 old2) (b1, b2))
      as [c1 c2].
    cbn [fst snd] in IH. destruct IH as (L1 & L2 & N1 & N2).
    unfold copy_waves, store_left, store_right. cbn [fst snd].
    rewrite !length_upd. split; [exact L1|]. split; [exact L2|].
    split; intros j Hj.
    + rewrite !nth_upd by (rewrite ?length_upd; lia).
      rewrite N1 by exact Hj.
      destruct (Nat.eqb_spec j k) as [->|Hne].
      * rewrite Nat.ltb_irrefl.
        replace (k <? S k)%nat with true by (symmetry; apply Nat.ltb_lt; lia).
        reflexivity.
      * destruct (Nat.ltb_spec j k), (Nat.ltb_spec j (S k));
          try reflexivity; lia.
    + rewrite !nth_upd by (rewrite ?length_upd; lia).
      rewrite N2 by exact Hj.
      destruct (Nat.eqb_spec j k) as [->|Hne].
      * rewrite Nat.ltb_irrefl.
        replace (k <? S k)%nat with true by (symmetry; apply Nat.ltb_lt; lia).
        reflexivity.
      * destruct (Nat.ltb_spec j k), (Nat.ltb_spec j (S k));
          try reflexivity; lia.
Qed.

(** What [resize_tract] returns, in terms of what [init_tract] built. *)
Lemma resize_tract_buffers (E : Env) (alloc1 alloc2 : bool)
    (desired_length : double) (s s2 : State) :
  resize_tract E alloc1 alloc2 desired_length s = Some s2 ->
  exists s1,
    init_tract E alloc1 alloc2 desired_length s = Some s1 /\
    nsegments s2 = nsegments s1 /\
    front_is_buffer1 s2 = true /\
    length (buffer1 s2) = length (buffer1 s1) /\
    length (buffer2 s2) = length (buffer2 s1) /\
    let k := Z.to_nat (Z.min (nsegments s) (nsegments s1)) in
    (forall j, (j < length (buffer1 s1))%nat ->
       nth j (buffer1 s2) nowhere =
       if (j <? k)%nat
       then transplant (nth j (buffer1 s) nowhere) (nth j (buffer1 s1) nowhere)
       else nth j (buffer1 s1) nowhere) /\
    (forall j, (j < length (buffer2 s1))%nat ->
       nth j (buffer2 s2) nowhere =
       if (j <? k)%nat
       then transplant (nth j (buffer2 s) nowhere) (nth j (buffer2 s1) nowhere)
       else nth j (buffer2 s1) nowhere).
Proof.
  unfold resize_tract.
  destruct (init_tract E alloc1 alloc2 desired_length s) as [s1|] eqn:Hi;
    [|discriminate].
  intro H. injection H as <-. exists s1.
  cbn [nsegments front_is_buffer1 buffer1 buffer2].
  assert (Hmin : (if (nsegments s <? nsegments s1)%Z
                  then nsegments s else nsegments s1)
                 = Z.min (nsegments s) (nsegments s1)).
  { destruct (Z.ltb_spec (nsegments s) (nsegments s1)); lia. }
  rewrite Hmin, for_loop_to_nat.
  destruct (copy_waves_loop (buffer1 s) (buffer2 s)
              (Z.to_nat (Z.min (nsegments s) (nsegments s1)))
              (buffer1 s1) (buffer2 s1)) as (L1 & L2 & N1 & N2).
  split; [reflexivity|]. split; [reflexivity|].
  split; [exact (init_tract_front _ _ _ _ _ Hi)|].
  split; [exact L1|]. split; [exact L2|]. split; assumption.
Qed.

Lemma resize_tract_sound (E : Env) (alloc1 alloc2 : bool)
    (desired_length : double) (s s2 : State) :
  resize_tract E alloc1 alloc2 desired_length s = Some s2 -> sound s2.
Proof.
  intro H. apply resize_tract_buffers in H.
  destruct H as (s1 & Hi & Hn & _ & L1 & L2 & N1 & N2).
  apply init_tract_sound in Hi. destruct Hi as ((W1 & W2) & R1 & R2).
  split; [split; congruence|].
  split; apply all_rigid_nth; intros j Hj.
  - rewrite L1 in Hj. rewrite (N1 j Hj).
    destruct (j <? _)%nat; [cbn [transplant rigidity]|];
      apply (proj1 (all_rigid_nth _) R1); exact Hj.
  - rewrite L2 in Hj. rewrite (N2 j Hj).
    destruct (j <? _)%nat; [cbn [transplant rigidity]|];
      apply (proj1 (all_rigid_nth _) R2); exact Hj.
Qed.

Lemma run_tract_nsegments (E : Env) (glottal_source : double) (s : State) :
  nsegments (snd (run_tract E glottal_source s)) = nsegments s.
Proof.
  unfold run_tract. cbn [snd].
  match goal with
  | |- nsegments (update_shape ?e ?b ?x) = _ =>
      destruct (update_shape_scalars e b x) as (_ & _ & _ & Hn & _);
      rewrite Hn
  end.
  apply nsegments_set_current.
Qed.

Lemma run_tract_sound (E : Env) (glottal_source : double) (s : State) :
  sound s -> sound (snd (run_tract E glottal_source s)).
Proof.
  intro Hs. pose proof Hs as (Hwf & _).
  apply sound_iff in Hs. destruct Hs as ((Hf & Hb) & Rf & Rb).
  destruct (run_tract_front E glottal_source Hwf) as (Hlen & Hback & Hnth).
  apply sound_iff. rewrite run_tract_nsegments, Hback.
  repeat split; auto.
  apply all_rigid_nth. intros j Hj. rewrite Hlen in Hj.
  destruct (Hnth j Hj) as (_ & _ & _ & Hr). rewrite Hr.
  destruct (_ && _); [reflexivity|].
  apply (proj1 (all_rigid_nth _) Rf). lia.
Qed.

Lemma handle_event_sound (E : Env) (alloc1 alloc2 : bool) (ev : MidiEvent)
    (s s' : State) :
  sound s -> handle_event E alloc1 alloc2 ev s = Some s' -> sound s'.
Proof.
  intro Hs. unfold handle_event.
  repeat match goal with
         | |- context [if ?c then _ else _] => destruct c
         end;
    try (intro H; injection H as <-; exact Hs).
  apply resize_tract_sound.
Qed.

Lemma reachable_sound (E : Env) (s : State) : Reachable E s -> sound s.
Proof.
  induction 1 as [a1 a2 s H | a1 a2 ev s s' _ IH H | source s _ IH].
  - exact (init_tract_sound _ _ _ _ _ H).
  - exact (handle_event_sound _ _ _ _ IH H).
  - apply run_tract_sound. exact IH.
Qed.

(** ** Wall compliance *)

Lemma dadd_null_r (a : double) (q : Q) : q == 0 -> dadd a (Fin q) =d= a.
Proof.
  intro H. destruct a; simpl; auto. rewrite H. lra.
Qed.

Lemma dltb_Proper_l (x y b : double) : x =d= y -> dltb x b = dltb y b.
Proof.
  destruct x as [p| | |], y as [q| | |]; simpl; try contradiction; auto.
  intro H. destruct b as [r| | |]; auto.
  f_equal. destruct (Qle_bool r q) eqn:Hq.
  - apply Qle_bool_iff. rewrite H. now apply Qle_bool_iff.
  - destruct (Qle_bool r p) eqn:Hp; auto.
    apply Qle_bool_iff in Hp. rewrite H in Hp. apply Qle_bool_iff in Hp.
    congruence.
Qed.

#[global] Instance clamp_area_Proper : Proper (deq ==> deq) clamp_area.
Proof.
  intros x y H. unfold clamp_area. rewrite (@dltb_Proper_l x y (Fin 0) H).
  destruct (dltb y (Fin 0)); [reflexivity | exact H].
Qed.

(** With rigidity 1, a finite reflected amplitude moves the area by zero. *)
Lemma rigid_wall (rigid reflected area : double) :
  rigid = Fin 1 -> finite reflected ->
  dmul reflected (dsub (Fin 1) rigid) =d= Fin 0 /\
  dadd area (dmul reflected (dsub (Fin 1) rigid)) =d= area.
Proof.
  intros -> Hf. apply finite_inv in Hf. destruct Hf as [r ->].
  cbn [dsub dneg dadd dmul]. split.
  - simpl. lra.
  - apply dadd_null_r. lra.
Qed.

(** C10. In every reachable state every segment of both buffers has
    rigidity 1, so [1 - rigidity] is zero, the perturbation
    [reflection * (1 - rigidity)] of a finite reflected amplitude is zero,
    and the second loop of [run_tract] gives back every impedance as it
    took it from the first loop: [1 / area] of the clamped [area = 1 / z]. *)
Theorem rigidity_is_always_one (E : Env) (s : State) :
  Reachable E s ->
  all_rigid (buffer1 s) /\
  all_rigid (buffer2 s) /\
  (forall seg, In seg (buffer1 s ++ buffer2 s) ->
     rigidity seg = Fin 1 /\
     dsub (Fin 1) (rigidity seg) =d= Fin 0 /\
     forall reflected area : Q,
       dmul (Fin reflected) (dsub (Fin 1) (rigidity seg)) =d= Fin 0 /\
       dadd (Fin area) (dmul (Fin reflected) (dsub (Fin 1) (rigidity seg)))
         =d= Fin area) /\
  (forall (glottal_source : double) (j : nat),
     (j < Z.to_nat (nsegments s))%nat ->
     (j <> 0%nat -> finite (reflected_right (segments_front s) j)) ->
     finite (if (Z.of_nat j =? nsegments s - 1)%Z
             then reflected_lips (segments_front s) j
             else reflected_left (segments_front s) j) ->
     z (nth j (segments_front (snd (run_tract E glottal_source s))) nowhere)
       =d= ddiv (Fin 1)
             (clamp_area
                (ddiv (Fin 1)
                      (z (carried (nth j (segments_front s) nowhere)))))).
Proof.
  intro Hr. apply reachable_sound in Hr.
  pose proof Hr as (Hwf & R1 & R2).
  split; [exact R1|]. split; [exact R2|]. split.
  - intros seg Hin.
    assert (Hseg : rigidity seg = Fin 1).
    { apply in_app_or in Hin. unfold all_rigid in R1, R2.
      rewrite Forall_forall in R1, R2. destruct Hin; auto. }
    split; [exact Hseg|]. rewrite Hseg.
    split; [simpl; lra|].
    intros reflected area. split; simpl; lra.
  - intros glottal_source j Hj Hright Hleft.
    destruct (run_tract_front E glottal_source Hwf) as (_ & _ & Hnth).
    destruct (Hnth j Hj) as (_ & _ & Hz & _). rewrite Hz.
    apply sound_iff in Hr. destruct Hr as ((Hlen & _) & Rf & _).
    assert (Hrig : rigidity (nth j (segments_front s) nowhere) = Fin 1).
    { apply (proj1 (all_rigid_nth _) Rf). lia. }
    unfold final_z.
    assert (Ha : forall a,
               area_left (nsegments s) (segments_front s) j
                 (area_right (segments_front s) j a) =d= a).
    { intro a. unfold area_left, area_right.
      destruct (Nat.eqb_spec j 0) as [->|Hne].
      - apply (@rigid_wall _ _ a Hrig Hleft).
      - rewrite (proj2 (@rigid_wall _ _ _ Hrig Hleft)).
        apply (@rigid_wall _ _ a Hrig (Hright Hne)). }
    rewrite Ha. reflexivity.
Qed.

Lemma rigidity_is_always_one_witness :
  all_rigid (buffer1 tract_at_setup) /\
  all_rigid (buffer2 tract_at_setup) /\
  (forall seg, In seg (buffer1 tract_at_setup ++ buffer2 tract_at_setup) ->
     rigidity seg = Fin 1 /\
     dsub (Fin 1) (rigidity seg) =d= Fin 0 /\
     forall reflected area : Q,
       dmul (Fin reflected) (dsub (Fin 1) (rigidity seg)) =d= Fin 0 /\
       dadd (Fin area) (dmul (Fin reflected) (dsub (Fin 1) (rigidity seg)))
         =d= Fin area) /\
  (forall (glottal_source : double) (j : nat),
     (j < Z.to_nat (nsegments tract_at_setup))%nat ->
     (j <> 0%nat ->
      finite (reflected_right (segments_front tract_at_setup) j)) ->
     finite (if (Z.of_nat j =? nsegments tract_at_setup - 1)%Z
             then reflected_lips (segments_front tract_at_setup) j
             else reflected_left (segments_front tract_at_setup) j) ->
     z (nth j (segments_front
                 (snd (run_tract (env_at 44100) glottal_source
                         tract_at_setup))) nowhere)
       =d= ddiv (Fin 1)
             (clamp_area
                (ddiv (Fin 1)
                      (z (carried
                            (nth j (segments_front tract_at_setup)
                                 nowhere)))))).
Proof.
  refine (@rigidity_is_always_one (env_at 44100) tract_at_setup _).
  apply (@reach_setup (env_at 44100) true true).
  vm_compute. reflexivity.
Defined.

(** C10, at the tract of 8 cm at 11025 Hz.  Every rigidity is 1 there as
    everywhere, but the impedance of segment 0 is NaN, so the amplitude
    reflected at the boundary to segment 1 is NaN although no wave is in
    the tract.  The perturbation NaN * (1 - 1) is NaN, not zero, and the
    impedance of segment 1, which the first loop of [run_tract] carried
    over as a finite number, is NaN after the call. *)
Lemma wall_compliance_spreads_nan :
  Reachable (env_at 11025) short_tract /\
  nsegments short_tract = 2%Z /\
  rigidity (nth 1 (segments_front short_tract) nowhere) = Fin 1 /\
  left (nth 0 (segments_front short_tract) nowhere) = Fin 0 /\
  right (nth 0 (segments_front short_tract) nowhere) = Fin 0 /\
  reflected_right (segments_front short_tract) 1 = NaN /\
  dmul (reflected_right (segments_front short_tract) 1)
       (dsub (Fin 1)
             (rigidity (nth 1 (segments_front short_tract) nowhere))) = NaN /\
  ddiv (Fin 1)
       (clamp_area
          (ddiv (Fin 1)
                (z (carried (nth 1 (segments_front short_tract) nowhere)))))
    =d= Fin (1000000 # 1000001) /\
  z (nth 1 (segments_front
              (snd (run_tract (env_at 11025) (Fin 0) short_tract))) nowhere)
    = NaN /\
  ~ (forall (E : Env) (s : State),
       Reachable E s ->
       forall (glottal_source : double) (j : nat),
         (0 < j < Z.to_nat (nsegments s))%nat ->
         dmul (reflected_right (segments_front s) j)
              (dsub (Fin 1) (rigidity (nth j (segments_front s) nowhere)))
           =d= Fin 0 /\
         z (nth j (segments_front (snd (run_tract E glottal_source s)))
                nowhere)
           =d= ddiv (Fin 1)
                 (clamp_area
                    (ddiv (Fin 1)
                          (z (carried
                                (nth j (segments_front s) nowhere)))))).
Proof.
  assert (R : Reachable (env_at 11025) short_tract).
  { eapply reach_event.
    - eapply (@reach_setup (env_at 11025) true true). vm_compute. reflexivity.
    - instantiate (1 := set_length_event 0). instantiate (1 := true).
      instantiate (1 := true). vm_compute. reflexivity. }
  split; [exact R|].
  split; [vm_compute; reflexivity|].
  split; [vm_compute; reflexivity|].
  split; [vm_compute; reflexivity|].
  split; [vm_compute; reflexivity|].
  split; [vm_compute; reflexivity|].
  split; [vm_compute; reflexivity|].
  split; [vm_compute; reflexivity|].
  split; [vm_compute; reflexivity|].
  intro H.
  destruct (H (env_at 11025) short_tract R (Fin 0) 1%nat
              ltac:(vm_compute; split; lia)) as [H0 _].
  vm_compute in H0. exact H0.
Qed.

(** ** The articulation filter *)

Lemma run_tract_phonemes (E : Env) (glottal_source : double) (s : State) :
  let s' := snd (run_tract E glottal_source s) in
  current_phoneme s' =
    advance_phoneme (current_phoneme s) (deref s (target_phoneme s))
                    (interpolation_drag s) /\
  ambient_phoneme s' = ambient_phoneme s /\
  target_phoneme s' = target_phoneme s /\
  interpolation_drag s' = interpolation_drag s /\
  diaphram_pressure s' = diaphram_pressure s /\
  damping s' = damping s.
Proof.
  unfold run_tract. cbn [snd].
  match goal with
  | |- context [update_shape ?e ?b ?x] =>
      destruct (update_shape_controls e b x)
        as (Ha & Ht & Hc & Hd & Hp & Hg & _);
      rewrite Ha, Ht, Hc, Hd, Hp, Hg
  end.
  unfold set_current, swap_buffers, set_back, deref.
  destruct (front_is_buffer1 s); repeat split.
Qed.

Lemma run_samples_cons (E : Env) (source : double) (rest : list double)
    (s : State) :
  snd (run_samples E (source :: rest) s) =
  snd (run_samples E rest (snd (run_tract E source s))).
Proof.
  cbn [run_samples]. destruct (run_tract E source s) as [out s1]. cbn [snd].
  destruct (run_samples E rest s1) as [outs s2]. reflexivity.
Qed.


Lemma glide_fin (c t d : Q) :
  glide (Fin c) (Fin t) (Fin d) = Fin (c + (t + - c) * d).
Proof. reflexivity. Qed.

Lemma run_tract_target (E : Env) (glottal_source : double) (s : State) :
  deref (snd (run_tract E glottal_source s))
        (target_phoneme (snd (run_tract E glottal_source s)))
  = deref s (target_phoneme s).
Proof.
  destruct (run_tract_phonemes E glottal_source s) as (_ & Ha & Ht & _).
  rewrite Ht. unfold deref. rewrite Ha. reflexivity.
Qed.

Lemma run_samples_app (E : Env) (l1 l2 : list double) (s : State) :
  snd (run_samples E (l1 ++ l2) s) =
  snd (run_samples E l2 (snd (run_samples E l1 s))).
Proof.
  revert s. induction l1 as [|x l1 IH]; intro s.
  - reflexivity.
  - rewrite <- app_comm_cons, !run_samples_cons. apply IH.
Qed.

Lemma run_samples_target (E : Env) (inputs : list double) (s : State) :
  deref (snd (run_samples E inputs s))
        (target_phoneme (snd (run_samples E inputs s)))
  = deref s (target_phoneme s) /\
  interpolation_drag (snd (run_samples E inputs s)) = interpolation_drag s.
Proof.
  revert s. induction inputs as [|x l IH]; intro s.
  - split; reflexivity.
  - rewrite run_samples_cons.
    destruct (IH (snd (run_tract E x s))) as (H1 & H2).
    rewrite H1, H2, run_tract_target.
    destruct (run_tract_phonemes E x s) as (_ & _ & _ & Hd & _).
    split; [reflexivity | exact Hd].
Qed.

(** ** The articulation filter in binary64 *)









(** ** Energy *)

Lemma is_finite_spec (x : double) : is_finite x = true <-> finite x.
Proof.
  destruct x; simpl; split; auto; discriminate.
Qed.

Lemma waves_finite_spec (l : list Segment) :
  waves_finite l = true <-> finite_waves l.
Proof.
  unfold waves_finite, finite_waves. rewrite forallb_forall, Forall_forall.
  split; intros H x Hx; specialize (H x Hx).
  - apply andb_true_iff in H. rewrite !is_finite_spec in H. exact H.
  - apply andb_true_iff. rewrite !is_finite_spec. exact H.
Qed.

Lemma square_nonneg (a : Q) : 0 <= a * a.
Proof.
  destruct (Qlt_le_dec a 0) as [H|H].
  - setoid_replace (a * a) with ((- a) * (- a)) by ring.
    apply Qmult_le_0_compat; lra.
  - apply Qmult_le_0_compat; assumption.
Qed.

Lemma amp2_nonneg (s : Segment) : 0 <= amp2 s.
Proof.
  unfold amp2.
  pose proof (square_nonneg (qv (left s))).
  pose proof (square_nonneg (qv (right s))). lra.
Qed.

Lemma energy_finite (l : list Segment) :
  finite_waves l -> energy l = Fin (energyQ l).
Proof.
  induction 1 as [|s t [Hl Hr] _ IH]; [reflexivity|].
  cbn [energy energyQ fold_right]. fold (energy t). fold (energyQ t).
  rewrite IH. unfold amp2.
  apply finite_inv in Hl. apply finite_inv in Hr.
  destruct Hl as [a ->]. destruct Hr as [b ->]. reflexivity.
Qed.

Lemma energyQ_nonneg (l : list Segment) : 0 <= energyQ l.
Proof.
  induction l as [|s t IH]; cbn [energyQ fold_right].
  - lra.
  - fold (energyQ t). pose proof (amp2_nonneg s). lra.
Qed.

Lemma energyQ_bounds_segment (l : list Segment) (j : nat) :
  (j < length l)%nat -> amp2 (nth j l nowhere) <= energyQ l.
Proof.
  revert j. induction l as [|s t IH]; intros j Hj; simpl in Hj; [lia|].
  cbn [energyQ fold_right]. fold (energyQ t).
  destruct j as [|j]; cbn [nth].
  - pose proof (energyQ_nonneg t). lra.
  - pose proof (amp2_nonneg s). specialize (IH j ltac:(lia)). lra.
Qed.

(** C5, as the specification words it, fails on a run of the program:
    one sample after an impulse of amplitude 1, the wave of amplitude 2/51
    in the throat segment (impedance 5) meets the tongue zone (impedance
    about 1); it is transmitted with 5/3 of its amplitude and reflected
    with -0.64 of it, with damping 0.04, no source and no diaphragm
    pressure: the total squared amplitude goes from 4/2601 to more than
    twice as much. *)
Lemma energy_grows_at_impedance_drop :
  Reachable (env_at 11025) short_after_impulse /\
  damping short_after_impulse = Fin (4 # 100) /\
  diaphram_pressure short_after_impulse = Fin 0 /\
  z (nth 0 (segments_front short_after_impulse) nowhere) =d= Fin 5 /\
  z (nth 1 (segments_front short_after_impulse) nowhere)
    =d= Fin (1000000 # 1000001) /\
  right (nth 0 (segments_front short_after_impulse) nowhere)
    =d= Fin (2 # 51) /\
  energy (segments_front short_after_impulse) =d= Fin (4 # 2601) /\
  right (nth 1 (segments_front
                  (snd (run_tract (env_at 11025) (Fin 0)
                          short_after_impulse))) nowhere)
    =d= Fin ((2 # 51) * (2000002 # 1200001)) /\
  dle (Fin (8 # 2601))
      (energy (segments_front
                 (snd (run_tract (env_at 11025) (Fin 0)
                         short_after_impulse)))) /\
  ~ dle (energy (segments_front
                   (snd (run_tract (env_at 11025) (Fin 0)
                           short_after_impulse))))
        (energy (segments_front short_after_impulse)).
Proof.
  set (after := segments_front
                  (snd (run_tract (env_at 11025) (Fin 0)
                          short_after_impulse))).
  assert (Hfin : finite_waves after)
    by (apply waves_finite_spec; vm_compute; reflexivity).
  assert (Hseg : 8 # 2601 <= amp2 (nth 1 after nowhere))
    by (vm_compute; discriminate).
  assert (Hlen : (1 < length after)%nat)
    by (vm_compute; repeat constructor).
  pose proof (energyQ_bounds_segment after Hlen) as Hsum.
  assert (Hbefore : energy (segments_front short_after_impulse)
                    =d= Fin (4 # 2601))
    by (vm_compute; reflexivity).
  rewrite (energy_finite Hfin).
  assert (Hafter : 8 # 2601 <= energyQ after)
    by (revert Hseg Hsum; generalize (energyQ after);
        generalize (amp2 (nth 1 after nowhere)); intros; lra).
  clear Hseg Hsum Hlen Hfin.
  split.
  { apply reach_sample. apply (@reach_setup (env_at 11025) true true).
    vm_compute. reflexivity. }
  split; [vm_compute; reflexivity|].
  split; [vm_compute; reflexivity|].
  split; [vm_compute; reflexivity|].
  split; [vm_compute; reflexivity|].
  split; [vm_compute; reflexivity|].
  split; [exact Hbefore|].
  split; [vm_compute; reflexivity|].
  revert Hbefore Hafter.
  generalize (energy (segments_front short_after_impulse)).
  generalize (energyQ after).
  intros e [e0| | |] Hbefore Hafter; cbn [deq dle] in Hbefore |- *;
    try contradiction.
  split; lra.
Qed.

Lemma sumQ_ext (n : nat) (g h : nat -> Q) :
  (forall j, (j < n)%nat -> g j == h j) -> sumQ n g == sumQ n h.
Proof.
  revert g h. induction n as [|n IH]; intros g h H; cbn [sumQ].
  - reflexivity.
  - rewrite (H 0%nat) by lia.
    rewrite (IH (fun j => g (S j)) (fun j => h (S j))).
    + reflexivity.
    + intros j Hj. apply H. lia.
Qed.

Lemma sumQ_plus (n : nat) (g h : nat -> Q) :
  sumQ n (fun j => g j + h j) == sumQ n g + sumQ n h.
Proof.
  revert g h. induction n as [|n IH]; intros g h; cbn [sumQ].
  - ring.
  - rewrite (IH (fun j => g (S j)) (fun j => h (S j))). ring.
Qed.

Lemma sumQ_last (n : nat) (g : nat -> Q) :
  sumQ (S n) g == sumQ n g + g n.
Proof.
  revert g. induction n as [|n IH]; intro g.
  - cbn [sumQ]. ring.
  - change (sumQ (S (S n)) g) with (g 0%nat + sumQ (S n) (fun j => g (S j))).
    rewrite (IH (fun j => g (S j))). cbn [sumQ]. ring.
Qed.

Lemma energyQ_sum (l : list Segment) :
  energyQ l = sumQ (length l) (fun j => amp2 (nth j l nowhere)).
Proof.
  induction l as [|s t IH]; [reflexivity|].
  cbn [energyQ fold_right length sumQ nth]. fold (energyQ t).
  rewrite IH. reflexivity.
Qed.

(** A wave pattern that moves one place along the chain, its two ends
    not growing, does not gain squared amplitude. *)
Lemma shifted_sum (n : nat) (L R a b : nat -> Q) :
  (forall j, (0 < j < n)%nat -> b j == R (j - 1)%nat) ->
  ((0 < n)%nat -> b 0%nat * b 0%nat <= L 0%nat * L 0%nat) ->
  (forall j, (S j < n)%nat -> a j == L (S j)) ->
  ((0 < n)%nat ->
   a (n - 1)%nat * a (n - 1)%nat <= R (n - 1)%nat * R (n - 1)%nat) ->
  sumQ n (fun j => a j * a j + b j * b j) <=
  sumQ n (fun j => L j * L j + R j * R j).
Proof.
  intros Hb Hb0 Ha Han. destruct n as [|m]; [cbn [sumQ]; lra|].
  rewrite !sumQ_plus.
  replace (S m - 1)%nat with m in Han by lia.
  specialize (Hb0 ltac:(lia)). specialize (Han ltac:(lia)).
  assert (HB : sumQ (S m) (fun j => b j * b j) <=
               L 0%nat * L 0%nat + sumQ m (fun j => R j * R j)).
  { cbn [sumQ].
    rewrite (@sumQ_ext m (fun j => b (S j) * b (S j)) (fun j => R j * R j)).
    - lra.
    - intros j Hj. rewrite (Hb (S j)) by lia.
      replace (S j - 1)%nat with j by lia. reflexivity. }
  assert (HA : sumQ (S m) (fun j => a j * a j) <=
               sumQ m (fun j => L (S j) * L (S j)) + R m * R m).
  { rewrite sumQ_last.
    rewrite (@sumQ_ext m (fun j => a j * a j)
               (fun j => L (S j) * L (S j))).
    - lra.
    - intros j Hj. rewrite (Ha j) by lia. reflexivity. }
  rewrite (sumQ_last m (fun j => R j * R j)).
  cbn [sumQ] in *. lra.
Qed.

Lemma clip_velocity_fin (q : Q) : clip_velocity (Fin q) = Fin (clipq q).
Proof.
  unfold clip_velocity, clipq. cbn [dltb].
  destruct (negb (Qle_bool 0 q)); reflexivity.
Qed.

Lemma clipq_null (q : Q) : q == 0 -> clipq q == 0.
Proof.
  intro H. unfold clipq. destruct (negb (Qle_bool 0 q)); [reflexivity|exact H].
Qed.

Lemma noise_finite (E : Env) (k : nat) :
  RAND_MAX E <> 0%Z -> exists v : Q, noise E k = Fin v.
Proof.
  intro H. unfold noise, i2d.
  rewrite (@ddiv_fin (inject_Z (RAND_MAX E)) 2) by lra.
  rewrite ddiv_fin.
  - eexists. reflexivity.
  - intro H0. apply (@inject_Z_nonzero (RAND_MAX E) H).
    setoid_replace (inject_Z (RAND_MAX E))
      with (inject_Z (RAND_MAX E) / 2 * 2) by field.
    rewrite H0. ring.
Qed.

(** *** One step on a chain of uniform impedance *)

Section UniformStep.
Variable E : Env.
Variable n : Z.
Variable front : list Segment.
Variables zz dmp prs src : Q.
Variable c0 : nat.

Hypothesis rand_max : RAND_MAX E <> 0%Z.
Hypothesis zz_pos : 0 < zz.
Hypothesis front_z :
  forall j, (j < Z.to_nat n)%nat -> z (nth j front nowhere) =d= Fin zz.
Hypothesis front_left :
  forall j, (j < Z.to_nat n)%nat ->
    left (nth j front nowhere) = Fin (qv (left (nth j front nowhere))).
Hypothesis front_right :
  forall j, (j < Z.to_nat n)%nat ->
    right (nth j front nowhere) = Fin (qv (right (nth j front nowhere))).
Hypothesis no_pressure : prs == 0.
Hypothesis no_source : src == 0.

Let L (j : nat) : Q := qv (left (nth j front nowhere)).
Let R (j : nat) : Q := qv (right (nth j front nowhere)).

Lemma uniform_impedance (j : nat) :
  (j < Z.to_nat n)%nat ->
  exists q : Q, z (nth j front nowhere) = Fin q /\ q == zz /\ 0 < q.
Proof.
  intro Hj. pose proof (front_z Hj) as H.
  destruct (z (nth j front nowhere)) as [q| | |]; cbn [deq] in H;
    try contradiction.
  exists q. split; [reflexivity|]. split; [exact H|]. rewrite H. exact zz_pos.
Qed.

Lemma null_coefficient (a b : Q) :
  a == zz -> b == zz -> (b + - a) / (b + a) == 0.
Proof. intros Ha Hb. rewrite Ha, Hb. field. lra. Qed.

Lemma lips_bounded (a : Q) :
  a == zz ->
  ((1 # 10) + - a) / ((1 # 10) + a) * (((1 # 10) + - a) / ((1 # 10) + a))
    <= 1.
Proof.
  intro Ha. assert (Hpos : 0 < a) by (rewrite Ha; exact zz_pos).
  set (lips := ((1 # 10) + - a) / ((1 # 10) + a)).
  assert (H1 : - (1) < lips) by (apply Qlt_shift_div_l; lra).
  assert (H2 : lips < 1) by (apply Qlt_shift_div_r; lra).
  assert (H : 0 <= (1 - lips) * (1 + lips))
    by (apply Qmult_le_0_compat; lra).
  setoid_replace ((1 - lips) * (1 + lips)) with (1 - lips * lips) in H
    by ring.
  lra.
Qed.

Lemma uniform_reflected_left (i : nat) :
  (S i < Z.to_nat n)%nat ->
  exists g : Q, reflected_left front i = Fin (L (S i) * g) /\ g == 0.
Proof.
  intro Hi. unfold reflected_left.
  replace (i + 1)%nat with (S i) by lia.
  destruct (@uniform_impedance (S i) ltac:(lia)) as (a & -> & Ha & Pa).
  destruct (@uniform_impedance i ltac:(lia)) as (b & -> & Hb & Pb).
  rewrite front_left by lia. rewrite (reflection_fin Pa Pb).
  eexists. split; [reflexivity|]. exact (null_coefficient Ha Hb).
Qed.

Lemma uniform_reflected_right (i : nat) :
  (S i < Z.to_nat n)%nat ->
  exists g : Q, reflected_right front (S i) = Fin (R i * g) /\ g == 0.
Proof.
  intro Hi. unfold reflected_right.
  replace (S i - 1)%nat with i by lia.
  destruct (@uniform_impedance i ltac:(lia)) as (a & -> & Ha & Pa).
  destruct (@uniform_impedance (S i) ltac:(lia)) as (b & -> & Hb & Pb).
  rewrite front_right by lia. rewrite (reflection_fin Pa Pb).
  eexists. split; [reflexivity|]. exact (null_coefficient Ha Hb).
Qed.

Lemma uniform_reflected_lips (i : nat) :
  (i < Z.to_nat n)%nat ->
  exists g : Q, reflected_lips front i = Fin (R i * g) /\ g * g <= 1.
Proof.
  intro Hi. unfold reflected_lips, DRAIN_Z.
  destruct (@uniform_impedance i Hi) as (a & -> & Ha & Pa).
  rewrite front_right by lia.
  rewrite (@reflection_fin a (1 # 10) Pa ltac:(lra)).
  eexists. split; [reflexivity|]. exact (lips_bounded Ha).
Qed.

(** The right-going amplitudes after the step: the reflection at the
    glottis in segment 0, the wave of the left neighbour elsewhere. *)
Lemma uniform_final_right (j : nat) :
  (j < Z.to_nat n)%nat ->
  exists v : Q,
    final_right E (Fin dmp) (Fin prs) (Fin src) front c0 j (Fin 0) = Fin v /\
    v == (if (j =? 0)%nat then L 0%nat * (1 - dmp) else R (j - 1)%nat).
Proof.
  intro Hj. unfold final_right, arrived_right, own_right.
  destruct j as [|i]; cbn [Nat.eqb].
  - unfold glottis_inflow, DRAIN_Z.
    destruct (@uniform_impedance 0%nat Hj) as (a & -> & Ha & Pa).
    rewrite front_left by lia.
    rewrite (@reflection_fin (1 # 10) a ltac:(lra) Pa).
    eexists. split; [reflexivity|]. fold (L 0%nat).
    rewrite no_pressure, no_source. ring.
  - replace (S i - 1)%nat with i by lia.
    destruct (uniform_reflected_left Hj) as (g1 & -> & G1).
    destruct (uniform_reflected_right Hj) as (g2 & -> & G2).
    rewrite clip_velocity_fin.
    destruct (noise_finite E (c0 + 2 * i) rand_max) as [nz ->].
    rewrite front_right by lia. fold (R i).
    eexists. split; [reflexivity|].
    rewrite (clipq_null (q := L (S i) * g1)) by (rewrite G1; ring).
    rewrite G1, G2. ring.
Qed.

(** The left-going amplitudes after the step: the reflection at the
    lips in the last segment, the wave of the right neighbour
    elsewhere. *)
Lemma uniform_final_left (j : nat) :
  (j < Z.to_nat n)%nat ->
  exists v : Q,
    final_left E n (Fin dmp) front c0 j (Fin 0) = Fin v /\
    if (Z.of_nat j =? n - 1)%Z
    then exists g : Q, v == R j * g * (1 - dmp) /\ g * g <= 1
    else v == L (S j).
Proof.
  intro Hj. unfold final_left, own_left.
  destruct (Z.eqb_spec (Z.of_nat j) (n - 1)) as [Hlast|Hnot].
  - destruct (uniform_reflected_lips Hj) as (g & -> & G).
    eexists. split; [reflexivity|]. exists g. split; [ring | exact G].
  - assert (Hn : (S j < Z.to_nat n)%nat) by lia.
    replace (j + 1)%nat with (S j) by lia.
    destruct (uniform_reflected_left Hn) as (g1 & -> & G1).
    destruct (uniform_reflected_right Hn) as (g2 & -> & G2).
    rewrite clip_velocity_fin.
    destruct (noise_finite E (c0 + 2 * j + 1) rand_max) as [nz ->].
    rewrite front_left by lia. fold (L (S j)).
    eexists. split; [reflexivity|].
    rewrite (clipq_null (q := R j * g2)) by (rewrite G2; ring).
    rewrite G1, G2. ring.
Qed.

End UniformStep.

Lemma scaled_square (x k : Q) : k * k <= 1 -> (x * k) * (x * k) <= x * x.
Proof.
  intro H.
  setoid_replace (x * k * (x * k)) with (k * k * (x * x)) by ring.
  assert (H1 : k * k * (x * x) <= 1 * (x * x))
    by (apply Qmult_le_compat_r; [exact H | apply square_nonneg]).
  lra.
Qed.

Lemma scaled_square_two (x k1 k2 : Q) :
  k1 * k2 * (k1 * k2) <= 1 -> (x * k1 * k2) * (x * k1 * k2) <= x * x.
Proof.
  intro H.
  setoid_replace (x * k1 * k2 * (x * k1 * k2))
    with (x * (k1 * k2) * (x * (k1 * k2))) by ring.
  apply scaled_square. exact H.
Qed.

Lemma unit_square (k : Q) : 0 <= k -> k <= 1 -> k * k <= 1.
Proof.
  intros H0 H1.
  assert (H : k * k <= 1 * k) by (apply Qmult_le_compat_r; assumption).
  lra.
Qed.

(** C5, as the code has it. When every segment of the front buffer has
    the same positive impedance, the amplitudes are finite, the damping is
    in [0, 1], and neither source nor diaphragm pressure puts anything in,
    one call of [run_tract] does not raise the total squared amplitude. *)
Theorem uniform_chain_energy_does_not_grow (E : Env) (s : State)
    (glottal_source : double) (zz dmp : Q) :
  RAND_MAX E <> 0%Z ->
  well_formed s ->
  uniform_z zz (segments_front s) -> 0 < zz ->
  finite_waves (segments_front s) ->
  damping s = Fin dmp -> 0 <= dmp -> dmp <= 1 ->
  diaphram_pressure s =d= Fin 0 ->
  glottal_source =d= Fin 0 ->
  finite_waves (segments_front (snd (run_tract E glottal_source s))) /\
  dle (energy (segments_front (snd (run_tract E glottal_source s))))
      (energy (segments_front s)).
Proof.
  intros Hrm Hwf Hz Hzz Hfin Hd Hd0 Hd1 Hp Hs.
  destruct (proj1 (well_formed_front s) Hwf) as (Hlen & _).
  destruct (run_tract_front E glottal_source Hwf) as (Hlen' & _ & Hnth).
  destruct (diaphram_pressure s) as [prs| | |]; cbn [deq] in Hp;
    try contradiction.
  destruct glottal_source as [src| | |]; cbn [deq] in Hs; try contradiction.
  rewrite Hd in Hnth.
  set (after := segments_front (snd (run_tract E (Fin src) s))) in *.
  set (front := segments_front s) in *.
  set (N := Z.to_nat (nsegments s)) in *.
  assert (Fz : forall j, (j < N)%nat -> z (nth j front nowhere) =d= Fin zz).
  { intros j Hj. unfold uniform_z in Hz. rewrite Forall_nth in Hz.
    apply Hz. lia. }
  assert (Fl : forall j, (j < N)%nat ->
             left (nth j front nowhere)
             = Fin (qv (left (nth j front nowhere)))).
  { intros j Hj. unfold finite_waves in Hfin. rewrite Forall_nth in Hfin.
    destruct (Hfin j nowhere ltac:(lia)) as [H _].
    apply finite_inv in H. destruct H as [q ->]. reflexivity. }
  assert (Fr : forall j, (j < N)%nat ->
             right (nth j front nowhere)
             = Fin (qv (right (nth j front nowhere)))).
  { intros j Hj. unfold finite_waves in Hfin. rewrite Forall_nth in Hfin.
    destruct (Hfin j nowhere ltac:(lia)) as [_ H].
    apply finite_inv in H. destruct H as [q ->]. reflexivity. }
  pose proof (fun j => @uniform_final_right E (nsegments s) front zz dmp
                         prs src (rand_calls s) Hrm Hzz Fz Fl Fr Hp Hs j)
    as HR.
  pose proof (fun j => @uniform_final_left E (nsegments s) front zz dmp
                         (rand_calls s) Hrm Hzz Fz Fl Fr j) as HL.
  fold N in HR, HL.
  assert (Hfin' : finite_waves after).
  { unfold finite_waves. apply Forall_nth. intros j d Hj.
    rewrite Hlen' in Hj. rewrite (nth_indep after d nowhere) by lia.
    destruct (Hnth j Hj) as (Er & El & _).
    destruct (HR j Hj) as (v & Ev & _). destruct (HL j Hj) as (w & Ew & _).
    rewrite Er, El, Ev, Ew. split; exact I. }
  split; [exact Hfin'|].
  rewrite (energy_finite Hfin'), (energy_finite Hfin). cbn [dle].
  rewrite !energyQ_sum. fold front. rewrite Hlen, Hlen'. fold N.
  apply (@shifted_sum N
           (fun j => qv (left (nth j front nowhere)))
           (fun j => qv (right (nth j front nowhere)))
           (fun j => qv (left (nth j after nowhere)))
           (fun j => qv (right (nth j after nowhere)))).
  - intros j Hj. destruct (Hnth j ltac:(lia)) as (Er & _).
    destruct (HR j ltac:(lia)) as (v & Ev & Hv).
    rewrite Er, Ev. cbn [qv]. rewrite Hv.
    replace (j =? 0)%nat with false by (symmetry; apply Nat.eqb_neq; lia).
    reflexivity.
  - intro HN. destruct (Hnth 0%nat HN) as (Er & _).
    destruct (HR 0%nat HN) as (v & Ev & Hv).
    rewrite Er, Ev. cbn [qv]. rewrite Hv. cbn [Nat.eqb].
    apply scaled_square. apply unit_square; lra.
  - intros j Hj. destruct (Hnth j ltac:(lia)) as (_ & El & _).
    destruct (HL j ltac:(lia)) as (w & Ew & Hw).
    rewrite El, Ew. cbn [qv].
    replace (Z.of_nat j =? nsegments s - 1)%Z with false in Hw
      by (symmetry; apply Z.eqb_neq; lia).
    rewrite Hw. reflexivity.
  - intro HN. destruct (Hnth (N - 1)%nat ltac:(lia)) as (_ & El & _).
    destruct (HL (N - 1)%nat ltac:(lia)) as (w & Ew & Hw).
    rewrite El, Ew. cbn [qv].
    replace (Z.of_nat (N - 1) =? nsegments s - 1)%Z with true in Hw
      by (symmetry; apply Z.eqb_eq; lia).
    destruct Hw as (g & Hw & Hlips). rewrite Hw.
    apply scaled_square_two.
    setoid_replace (g * (1 - dmp) * (g * (1 - dmp)))
      with (g * g * ((1 - dmp) * (1 - dmp))) by ring.
    assert (H1 : (1 - dmp) * (1 - dmp) <= 1) by (apply unit_square; lra).
    assert (H2 : g * g * ((1 - dmp) * (1 - dmp)) <= g * g * 1).
    { rewrite !(Qmult_comm (g * g)).
      apply Qmult_le_compat_r; [exact H1 | apply square_nonneg]. }
    lra.
Qed.

Lemma uniform_chain_energy_does_not_grow_witness :
  finite_waves
    (segments_front
       (snd (run_tract (env_at 8000) (Fin 0) narrow_after_impulse))) /\
  dle (energy (segments_front
                 (snd (run_tract (env_at 8000) (Fin 0) narrow_after_impulse))))
      (energy (segments_front narrow_after_impulse)).
Proof.
  refine (@uniform_chain_energy_does_not_grow (env_at 8000)
            narrow_after_impulse (Fin 0) (1000000 # 1000001) (4 # 100)
            _ _ _ _ _ _ _ _ _ _).
  - discriminate.
  - split; vm_compute; reflexivity.
  - unfold uniform_z. vm_compute. repeat constructor.
  - reflexivity.
  - apply waves_finite_spec. vm_compute. reflexivity.
  - vm_compute. reflexivity.
  - discriminate.
  - discriminate.
  - vm_compute. reflexivity.
  - reflexivity.
Defined.

(* ================================================================== *)
(** * Further properties of the program                                *)
(* ================================================================== *)

(** ** Control events *)

Lemma map2range_fin (value : Z) (a b : Q) :
  map2range value (Fin a) (Fin b) =
  Fin (a + (b + - a) * (inject_Z value / 127)).
Proof. reflexivity. Qed.

Lemma byte_fraction (value : Z) :
  (0 <= value <= 127)%Z ->
  0 <= inject_Z value / 127 /\ inject_Z value / 127 <= 1.
Proof.
  intros [H0 H1]. split.
  - apply Qle_shift_div_l; [reflexivity|].
    rewrite Qmult_0_l. change 0 with (inject_Z 0). rewrite <- Zle_Qle. lia.
  - apply Qle_shift_div_r; [reflexivity|].
    rewrite Qmult_1_l. change 127 with (inject_Z 127).
    rewrite <- Zle_Qle. lia.
Qed.

Lemma map2range_mix (value : Z) (a b : Q) :
  (0 <= value <= 127)%Z ->
  exists r : Q,
    map2range value (Fin a) (Fin b) = Fin r /\
    Qmin a b <= r /\ r <= Qmax a b /\
    (value = 0%Z -> r == a) /\
    (value = 127%Z -> r == b).
Proof.
  intro Hv. destruct (byte_fraction Hv) as [T0 T1].
  rewrite map2range_fin. eexists. split; [reflexivity|].
  set (t := inject_Z value / 127) in *.
  assert (Hmix : forall x, 0 <= x -> 0 <= x * t /\ x * t <= x).
  { intros x Hx. split.
    - apply Qmult_le_0_compat; assumption.
    - assert (H : t * x <= 1 * x) by (apply Qmult_le_compat_r; assumption).
      rewrite (Qmult_comm x t). lra. }
  split; [|split; [|split]].
  - destruct (Qlt_le_dec b a) as [Hba|Hab].
    + rewrite (Q.min_r a b) by lra.
      destruct (Hmix (a - b) ltac:(lra)) as [M0 M1].
      setoid_replace ((b + - a) * t) with (- ((a - b) * t)) by ring. lra.
    + rewrite (Q.min_l a b) by lra.
      destruct (Hmix (b + - a) ltac:(lra)) as [M0 M1]. lra.
  - destruct (Qlt_le_dec b a) as [Hba|Hab].
    + rewrite (Q.max_l a b) by lra.
      destruct (Hmix (a - b) ltac:(lra)) as [M0 M1].
      setoid_replace ((b + - a) * t) with (- ((a - b) * t)) by ring. lra.
    + rewrite (Q.max_r a b) by lra.
      destruct (Hmix (b + - a) ltac:(lra)) as [M0 M1]. lra.
  - intros ->. unfold t. change (inject_Z 0) with 0. field.
  - intros ->. unfold t. change (inject_Z 127) with 127. field.
Qed.

(** ** [map2range] in binary64 *)

Lemma deq_b_spec (x y : double) : deq_b x y = true <-> x =d= y.
Proof.
  destruct x as [a| | |], y as [b| | |]; cbn [deq_b deq];
    try (split; [discriminate | contradiction]);
    try (split; [intros _; exact I | reflexivity]).
  apply Qeq_bool_iff.
Qed.

Lemma between_b_spec (lo hi : Q) (x : double) :
  between_b lo hi x = true <-> between lo hi x.
Proof.
  destruct x as [q| | |]; cbn [between_b between];
    try (split; [discriminate | contradiction]).
  rewrite andb_true_iff, !Qle_bool_iff. reflexivity.
Qed.

Lemma all_bytes (P : Z -> bool) :
  forallb P (map Z.of_nat (seq 0 128)) = true ->
  forall v : Z, (0 <= v <= 127)%Z -> P v = true.
Proof.
  intros H v Hv. rewrite forallb_forall in H. apply H.
  replace v with (Z.of_nat (Z.to_nat v)) by lia.
  apply in_map, in_seq. lia.
Qed.

Lemma byte_ranges_ok (lo hi : double) :
  In (lo, hi) byte_ranges ->
  forall v : Z, (0 <= v <= 127)%Z ->
    byte_ok (negb (deq_b lo DRAG_MIN)) lo hi v = true.
Proof.
  intro Hin. apply all_bytes.
  cbn [byte_ranges In] in Hin.
  destruct Hin as [H|[H|[H|[H|[H|[]]]]]]; injection H as <- <-;
    vm_compute; reflexivity.
Qed.

(** X1. In binary64, for each of the five pairs [min], [max] that
    [process] passes to [map2range] and every data byte from 0 to 127, the
    result is a finite number between [min] and [max] as the program
    holds them; the byte 0 gives [min] itself; from one byte to the next
    the result moves strictly away from [min]; and the byte 127 gives
    [max] itself, except for the interpolation drag, where the result is
    not [DRAG_MAX] but a number just above it. *)
Theorem map2range_bounds (value : Z) (lo hi : double) :
  (0 <= value <= 127)%Z ->
  In (lo, hi) byte_ranges ->
  let a := B64.rnd lo in
  let b := B64.rnd hi in
  let r := B64.map2range value a b in
  between (Qmin (qv a) (qv b)) (Qmax (qv a) (qv b)) r /\
  (value = 0%Z -> r =d= a) /\
  (value <> 127%Z ->
   if dltb a b then dltb r (B64.map2range (value + 1) a b) = true
   else dltb (B64.map2range (value + 1) a b) r = true) /\
  (value = 127%Z -> lo <> DRAG_MIN -> r =d= b) /\
  dltb (B64.rnd DRAG_MAX)
       (B64.map2range 127 (B64.rnd DRAG_MIN) (B64.rnd DRAG_MAX)) = true.
Proof.
  intros Hv Hin a b r.
  pose proof (byte_ranges_ok Hin Hv) as H.
  unfold byte_ok in H. fold a b r in H.
  apply andb_true_iff in H. destruct H as (H & H3).
  apply andb_true_iff in H. destruct H as (H1 & H2).
  split; [apply between_b_spec; exact H1|].
  split; [|split; [|split]].
  - intros ->. cbn [Z.eqb] in H2. apply deq_b_spec. exact H2.
  - intro Hne.
    replace (value =? 127)%Z with false in H3
      by (symmetry; apply Z.eqb_neq; exact Hne).
    destruct (dltb a b); exact H3.
  - intros -> Hlo. cbn [Z.eqb Pos.eqb] in H3.
    apply deq_b_spec.
    assert (Hd : deq_b lo DRAG_MIN = false).
    { cbn [byte_ranges In] in Hin.
      destruct Hin as [E|[E|[E|[E|[E|[]]]]]]; injection E as <- <-;
        try reflexivity.
      exfalso. apply Hlo. reflexivity. }
    rewrite Hd in H3. exact H3.
  - vm_compute. reflexivity.
Qed.

Lemma map2range_bounds_witness :
  let a := B64.rnd MIN_DIAPHRAM_PRESSURE in
  let b := B64.rnd MAX_DIAPHRAM_PRESSURE in
  let r := B64.map2range 127 a b in
  between (Qmin (qv a) (qv b)) (Qmax (qv a) (qv b)) r /\
  (127%Z = 0%Z -> r =d= a) /\
  (127%Z <> 127%Z ->
   if dltb a b then dltb r (B64.map2range (127 + 1) a b) = true
   else dltb (B64.map2range (127 + 1) a b) r = true) /\
  (127%Z = 127%Z -> MIN_DIAPHRAM_PRESSURE <> DRAG_MIN -> r =d= b) /\
  dltb (B64.rnd DRAG_MAX)
       (B64.map2range 127 (B64.rnd DRAG_MIN) (B64.rnd DRAG_MAX)) = true.
Proof.
  refine (@map2range_bounds 127 MIN_DIAPHRAM_PRESSURE MAX_DIAPHRAM_PRESSURE
            _ _).
  - lia.
  - cbn [byte_ranges In]. right. right. right. left. reflexivity.
Defined.

Lemma map2range_between (value : Z) (lo hi a b : Q) :
  (0 <= value <= 127)%Z ->
  lo <= Qmin a b -> Qmax a b <= hi ->
  between lo hi (map2range value (Fin a) (Fin b)).
Proof.
  intros Hv Hlo Hhi.
  destruct (@map2range_mix value a b Hv) as (r & -> & H0 & H1 & _).
  cbn [between]. split; lra.
Qed.

Ltac range_implications :=
  repeat match goal with
         | |- (_ -> _) /\ _ => split; [intro; first [lia | assumption]|]
         end;
  intro; first [lia | assumption].

(** X2. A control change carrying a data byte from 0 to 127 either asks
    for a resize to a length from 8 to 24 cm (controller 0x18), or
    succeeds and leaves the value it sets within its range: the ambient
    tongue height, tongue position and lip roundedness from 0 to 1, the
    interpolation drag from 0.0001 to 0.001, the diaphragm pressure from
    -0.2 to 0.2, the damping from 0 to 0.2. *)
Theorem control_change_ranges (E : Env) (alloc1 alloc2 : bool)
    (ev : MidiEvent) (s : State) :
  is_control_change ev ->
  (0 <= data2 ev <= 127)%Z ->
  (data1 ev = CONTROLLER_TRACT_LENGTH ->
   exists len,
     handle_event E alloc1 alloc2 ev s = resize_tract E alloc1 alloc2 len s /\
     between 8 24 len) /\
  (data1 ev <> CONTROLLER_TRACT_LENGTH ->
   exists s',
     handle_event E alloc1 alloc2 ev s = Some s' /\
     (data1 ev = CONTROLLER_TONGUE_HEIGHT ->
      between 0 1 (tongue_height (ambient_phoneme s'))) /\
     (data1 ev = CONTROLLER_TONGUE_POSITION ->
      between 0 1 (tongue_position (ambient_phoneme s'))) /\
     (data1 ev = CONTROLLER_LIPS_ROUNDEDNESS ->
      between 0 1 (lips_roundedness (ambient_phoneme s'))) /\
     (data1 ev = CONTROLLER_DRAG ->
      between (1 # 10000) (1 # 1000) (interpolation_drag s')) /\
     (data1 ev = CONTROLLER_PRESSURE ->
      between (- (2 # 10)) (2 # 10) (diaphram_pressure s')) /\
     (data1 ev = CONTROLLER_DAMPING ->
      between 0 (2 # 10) (damping s'))).
Proof.
  intros Hcc Hv. unfold is_control_change in Hcc.
  unfold handle_event. rewrite Hcc. cbn [Z.eqb Pos.eqb].
  assert (Unit : between 0 1 (map2range (data2 ev) (Fin 0) (Fin 1)))
    by (apply map2range_between; [exact Hv | | ]; vm_compute; discriminate).
  assert (Drag : between (1 # 10000) (1 # 1000)
                   (map2range (data2 ev) DRAG_MIN DRAG_MAX))
    by (apply map2range_between; [exact Hv | | ]; vm_compute; discriminate).
  assert (Press : between (- (2 # 10)) (2 # 10)
                    (map2range (data2 ev) MIN_DIAPHRAM_PRESSURE
                               MAX_DIAPHRAM_PRESSURE))
    by (apply map2range_between; [exact Hv | | ]; vm_compute; discriminate).
  assert (Damp : between 0 (2 # 10)
                   (map2range (data2 ev) MIN_DAMPING MAX_DAMPING))
    by (apply map2range_between; [exact Hv | | ]; vm_compute; discriminate).
  assert (Len : between 8 24
                  (map2range (data2 ev) CONTROLLER_TRACT_LENGTH_MIN
                             CONTROLLER_TRACT_LENGTH_MAX))
    by (apply map2range_between; [exact Hv | | ]; vm_compute; discriminate).
  unfold CONTROLLER_TRACT_LENGTH, CONTROLLER_TONGUE_HEIGHT,
    CONTROLLER_TONGUE_POSITION, CONTROLLER_LIPS_ROUNDEDNESS,
    CONTROLLER_DRAG, CONTROLLER_PRESSURE, CONTROLLER_DAMPING in *.
  split.
  - intro Hid. rewrite Hid. cbn [Z.eqb Pos.eqb].
    eexists. split; [reflexivity | exact Len].
  - intro Hid.
    destruct (Z.eqb_spec (data1 ev) 24); [contradiction|].
    destruct (Z.eqb_spec (data1 ev) 22);
      [eexists; split; [reflexivity|];
       cbn [set_ambient ambient_phoneme interpolation_drag
            diaphram_pressure damping tongue_height tongue_position
            lips_roundedness];
       range_implications|].
    destruct (Z.eqb_spec (data1 ev) 21);
      [eexists; split; [reflexivity|];
       cbn [set_ambient ambient_phoneme interpolation_drag
            diaphram_pressure damping tongue_height tongue_position
            lips_roundedness];
       range_implications|].
    destruct (Z.eqb_spec (data1 ev) 23);
      [eexists; split; [reflexivity|];
       cbn [set_ambient ambient_phoneme interpolation_drag
            diaphram_pressure damping tongue_height tongue_position
            lips_roundedness];
       range_implications|].
    destruct (Z.eqb_spec (data1 ev) 25);
      [eexists; split; [reflexivity|];
       cbn [set_controls ambient_phoneme interpolation_drag
            diaphram_pressure damping];
       range_implications|].
    destruct (Z.eqb_spec (data1 ev) 26);
      [eexists; split; [reflexivity|];
       cbn [set_controls ambient_phoneme interpolation_drag
            diaphram_pressure damping];
       range_implications|].
    destruct (Z.eqb_spec (data1 ev) 27);
      [eexists; split; [reflexivity|];
       cbn [set_controls ambient_phoneme interpolation_drag
            diaphram_pressure damping];
       range_implications|].
    eexists. split; [reflexivity|]. range_implications.
Qed.

Lemma control_change_ranges_witness :
  (data1 (mkMidiEvent 0xb0 0x19 64) = CONTROLLER_TRACT_LENGTH ->
   exists len,
     handle_event (env_at 44100) true true (mkMidiEvent 0xb0 0x19 64)
                  tract_at_setup
     = resize_tract (env_at 44100) true true len tract_at_setup /\
     between 8 24 len) /\
  (data1 (mkMidiEvent 0xb0 0x19 64) <> CONTROLLER_TRACT_LENGTH ->
   exists s',
     handle_event (env_at 44100) true true (mkMidiEvent 0xb0 0x19 64)
                  tract_at_setup = Some s' /\
     (data1 (mkMidiEvent 0xb0 0x19 64) = CONTROLLER_TONGUE_HEIGHT ->
      between 0 1 (tongue_height (ambient_phoneme s'))) /\
     (data1 (mkMidiEvent 0xb0 0x19 64) = CONTROLLER_TONGUE_POSITION ->
      between 0 1 (tongue_position (ambient_phoneme s'))) /\
     (data1 (mkMidiEvent 0xb0 0x19 64) = CONTROLLER_LIPS_ROUNDEDNESS ->
      between 0 1 (lips_roundedness (ambient_phoneme s'))) /\
     (data1 (mkMidiEvent 0xb0 0x19 64) = CONTROLLER_DRAG ->
      between (1 # 10000) (1 # 1000) (interpolation_drag s')) /\
     (data1 (mkMidiEvent 0xb0 0x19 64) = CONTROLLER_PRESSURE ->
      between (- (2 # 10)) (2 # 10) (diaphram_pressure s')) /\
     (data1 (mkMidiEvent 0xb0 0x19 64) = CONTROLLER_DAMPING ->
      between 0 (2 # 10) (damping s'))).
Proof.
  refine (@control_change_ranges (env_at 44100) true true
            (mkMidiEvent 0xb0 0x19 64) tract_at_setup _ _).
  - reflexivity.
  - cbn [data2]. lia.
Defined.

Lemma init_tract_controls (E : Env) (alloc1 alloc2 : bool)
    (desired_length : double) (s s' : State) :
  init_tract E alloc1 alloc2 desired_length s = Some s' ->
  ambient_phoneme s' = ambient_phoneme s /\
  target_phoneme s' = target_phoneme s /\
  current_phoneme s' = current_phoneme s /\
  interpolation_drag s' = interpolation_drag s /\
  diaphram_pressure s' = diaphram_pressure s /\
  damping s' = damping s /\
  rand_calls s' = rand_calls s.
Proof.
  unfold init_tract.
  destruct (d2i _) as [n|]; [|discriminate].
  destruct (_ && _); [discriminate|].
  intro H. injection H as <-.
  match goal with
  | |- context [update_shape ?e ?b ?x] =>
      destruct (update_shape_controls e b x)
        as (Ha & Ht & Hc & Hd & Hp & Hg & Hr);
      rewrite Ha, Ht, Hc, Hd, Hp, Hg, Hr
  end.
  repeat split.
Qed.

Lemma resize_tract_controls (E : Env) (alloc1 alloc2 : bool)
    (desired_length : double) (s s' : State) :
  resize_tract E alloc1 alloc2 desired_length s = Some s' ->
  ambient_phoneme s' = ambient_phoneme s /\
  target_phoneme s' = target_phoneme s /\
  current_phoneme s' = current_phoneme s /\
  interpolation_drag s' = interpolation_drag s /\
  diaphram_pressure s' = diaphram_pressure s /\
  damping s' = damping s /\
  rand_calls s' = rand_calls s.
Proof.
  unfold resize_tract.
  destruct (init_tract E alloc1 alloc2 desired_length s) as [s1|] eqn:Hi;
    [|discriminate].
  intro H. injection H as <-.
  cbn [ambient_phoneme target_phoneme current_phoneme interpolation_drag
       diaphram_pressure damping rand_calls].
  exact (init_tract_controls _ _ _ _ _ Hi).
Qed.

(** X3. No event changes the current phoneme, the target pointer or the
    state of [rand]; and unless it is a control change of the tract
    length, an event leaves the segment count, both buffers and their
    roles as they are: events only move the ambient phoneme and the three
    scalar controls. *)
Theorem events_leave_the_waveguide (E : Env) (alloc1 alloc2 : bool)
    (ev : MidiEvent) (s s' : State) :
  handle_event E alloc1 alloc2 ev s = Some s' ->
  current_phoneme s' = current_phoneme s /\
  target_phoneme s' = target_phoneme s /\
  rand_calls s' = rand_calls s /\
  (~ (is_control_change ev /\ data1 ev = CONTROLLER_TRACT_LENGTH) ->
   nsegments s' = nsegments s /\
   buffer1 s' = buffer1 s /\
   buffer2 s' = buffer2 s /\
   front_is_buffer1 s' = front_is_buffer1 s /\
   unit_length s' = unit_length s /\
   tract_length s' = tract_length s /\
   rate s' = rate s).
Proof.
  unfold handle_event, is_control_change.
  destruct (Z.eqb_spec (Z.land (status ev) 240) 176) as [Hcc|Hcc].
  - destruct (Z.eqb_spec (data1 ev) CONTROLLER_TRACT_LENGTH) as [Hid|Hid].
    + intro H. apply resize_tract_controls in H.
      destruct H as (_ & Ht & Hc & _ & _ & _ & Hr).
      split; [exact Hc|]. split; [exact Ht|]. split; [exact Hr|].
      intro Hn. exfalso. apply Hn. split; assumption.
    + repeat match goal with
             | |- context [if ?c then _ else _] => destruct c
             end;
        intro H; injection H as <-; repeat split.
  - repeat match goal with
           | |- context [if ?c then _ else _] => destruct c
           end;
      intro H; injection H as <-; repeat split.
Qed.

Lemma events_leave_the_waveguide_witness :
  current_phoneme tract_note_a = current_phoneme tract_at_setup /\
  target_phoneme tract_note_a = target_phoneme tract_at_setup /\
  rand_calls tract_note_a = rand_calls tract_at_setup /\
  (~ (is_control_change (mkMidiEvent 0x99 0x24 100) /\
      data1 (mkMidiEvent 0x99 0x24 100) = CONTROLLER_TRACT_LENGTH) ->
   nsegments tract_note_a = nsegments tract_at_setup /\
   buffer1 tract_note_a = buffer1 tract_at_setup /\
   buffer2 tract_note_a = buffer2 tract_at_setup /\
   front_is_buffer1 tract_note_a = front_is_buffer1 tract_at_setup /\
   unit_length tract_note_a = unit_length tract_at_setup /\
   tract_length tract_note_a = tract_length tract_at_setup /\
   rate tract_note_a = rate tract_at_setup).
Proof.
  refine (@events_leave_the_waveguide (env_at 44100) true true
            (mkMidiEvent 0x99 0x24 100) tract_at_setup tract_note_a _).
  vm_compute. reflexivity.
Defined.

Lemma set_ambient_same (s : State) : set_ambient s (ambient_phoneme s) = s.
Proof. destruct s. reflexivity. Qed.

Lemma presets_normalized : Forall normalized presets.
Proof.
  repeat constructor; vm_compute; discriminate.
Qed.

(** X4. A note-on on the phoneme channel replaces the ambient phoneme
    and nothing else, whatever its velocity: by one of the eleven presets
    (all normalized) for the notes 0x24 to 0x2e, and by itself, leaving
    every global as it is, for any other note. *)
Theorem note_on_selects_preset (E : Env) (alloc1 alloc2 : bool)
    (ev : MidiEvent) (s : State) :
  is_phoneme_note_on ev ->
  let p := deref s (get_mapped_phoneme (data1 ev)) in
  handle_event E alloc1 alloc2 ev s = Some (set_ambient s p) /\
  ((0x24 <= data1 ev <= 0x2e)%Z -> In p presets /\ normalized p) /\
  ((data1 ev < 0x24 \/ 0x2e < data1 ev)%Z ->
   handle_event E alloc1 alloc2 ev s = Some s).
Proof.
  intros [Htype Hchan] p.
  assert (Hev : handle_event E alloc1 alloc2 ev s = Some (set_ambient s p)).
  { unfold handle_event. rewrite Htype, Hchan. reflexivity. }
  split; [exact Hev|]. split.
  - intro Hnote.
    assert (Hin : In p presets).
    { unfold p, get_mapped_phoneme.
      repeat match goal with
             | |- context [(data1 ev =? ?k)%Z] =>
                 destruct (Z.eqb_spec (data1 ev) k)
             end;
        cbn [deref presets In]; try tauto.
      exfalso. lia. }
    split; [exact Hin|].
    pose proof presets_normalized as HN. rewrite Forall_forall in HN.
    apply HN. exact Hin.
  - intro Hnote. rewrite Hev. f_equal.
    replace p with (ambient_phoneme s); [apply set_ambient_same|].
    unfold p, get_mapped_phoneme.
    repeat match goal with
           | |- context [(data1 ev =? ?k)%Z] =>
               destruct (Z.eqb_spec (data1 ev) k); [exfalso; lia|]
           end.
    reflexivity.
Qed.

Lemma note_on_selects_preset_witness :
  let ev := mkMidiEvent 0x99 0x24 0 in
  let p := deref tract_at_setup (get_mapped_phoneme (data1 ev)) in
  handle_event (env_at 44100) true true ev tract_at_setup
    = Some (set_ambient tract_at_setup p) /\
  ((0x24 <= data1 ev <= 0x2e)%Z -> In p presets /\ normalized p) /\
  ((data1 ev < 0x24 \/ 0x2e < data1 ev)%Z ->
   handle_event (env_at 44100) true true ev tract_at_setup
     = Some tract_at_setup).
Proof.
  refine (@note_on_selects_preset (env_at 44100) true true
            (mkMidiEvent 0x99 0x24 0) tract_at_setup _).
  split; reflexivity.
Defined.

(** ** Blocks of samples *)

Lemma run_samples_split (E : Env) (l1 l2 : list double) (s : State) :
  run_samples E (l1 ++ l2) s =
  (fst (run_samples E l1 s)
     ++ fst (run_samples E l2 (snd (run_samples E l1 s))),
   snd (run_samples E l2 (snd (run_samples E l1 s)))).
Proof.
  revert s. induction l1 as [|x l1 IH]; intro s.
  - cbn [app run_samples fst snd].
    destruct (run_samples E l2 s); reflexivity.
  - rewrite <- app_comm_cons. cbn [run_samples].
    destruct (run_tract E x s) as [out s1].
    rewrite (IH s1).
    destruct (run_samples E l1 s1) as [o1 s2]. cbn [fst snd].
    destruct (run_samples E l2 s2) as [o2 s3]. reflexivity.
Qed.

Lemma run_samples_length (E : Env) (input : list double) (s : State) :
  length (fst (run_samples E input s)) = length input.
Proof.
  revert s. induction input as [|x l IH]; intro s; [reflexivity|].
  cbn [run_samples]. destruct (run_tract E x s) as [out s1].
  specialize (IH s1). destruct (run_samples E l s1) as [outs s2].
  cbn [fst length] in *. congruence.
Qed.

(** X5. [process] writes exactly one output sample per input sample, and
    without events the size of the blocks does not matter: processing a
    block and then a second one gives the outputs, in order, and the
    state that processing the two as one block gives. *)
Theorem process_is_block_size_independent (E : Env)
    (mem mem' : nat -> bool * bool) (events : list MidiEvent)
    (input more : list double) (s : State) :
  match process E mem events input s with
  | Some (out, _) => length out = length input
  | None => handle_events E mem 0 events s = None
  end /\
  process E mem [] (input ++ more) s =
  match process E mem [] input s with
  | Some (out1, s1) =>
      match process E mem' [] more s1 with
      | Some (out2, s2) => Some (out1 ++ out2, s2)
      | None => None
      end
  | None => None
  end.
Proof.
  split.
  - unfold process. destruct (handle_events E mem 0 events s) as [s1|].
    + pose proof (run_samples_length E input s1) as H.
      destruct (run_samples E input s1) as [out s2]. exact H.
    + reflexivity.
  - unfold process. cbn [handle_events].
    rewrite run_samples_split.
    destruct (run_samples E input s) as [out1 s1]. cbn [fst snd].
    destruct (run_samples E more s1) as [out2 s2]. reflexivity.
Qed.

(** ** What one call of [run_tract] reads and writes *)

Lemma carry_over_overwrites (front b b' : list Segment) (k : nat) :
  length b = k -> length b' = k ->
  for_loop (Z.of_nat k) (carry_over front) b =
  for_loop (Z.of_nat k) (carry_over front) b'.
Proof.
  intros Hb Hb'.
  destruct (carry_over_loop front b k) as (L1 & N1).
  destruct (carry_over_loop front b' k) as (L2 & N2).
  apply (nth_ext _ _ nowhere nowhere); [congruence|].
  intros j Hj. rewrite L1, Hb in Hj.
  rewrite N1, N2 by lia.
  replace (j <? k)%nat with true by (symmetry; apply Nat.ltb_lt; lia).
  reflexivity.
Qed.

(** X6. [run_tract] leaves the buffer it read as the new back buffer,
    untouched, and nothing of what the old back buffer held influences
    its result: two states that differ only in the content of the back
    buffer give the same output sample and the same next state. *)
Theorem run_tract_overwrites_back_buffer (E : Env) (glottal_source : double)
    (s : State) (b b' : list Segment) :
  length b = Z.to_nat (nsegments s) ->
  length b' = Z.to_nat (nsegments s) ->
  segments_back (snd (run_tract E glottal_source (set_back s b)))
    = segments_front s /\
  run_tract E glottal_source (set_back s b) =
  run_tract E glottal_source (set_back s b').
Proof.
  intros Hb Hb'.
  assert (Hloop : for_loop (nsegments s) (carry_over (segments_front s)) b =
                  for_loop (nsegments s) (carry_over (segments_front s)) b').
  { rewrite !(for_loop_to_nat (nsegments s)).
    apply carry_over_overwrites; assumption. }
  split.
  - unfold run_tract. cbn [snd]. rewrite update_shape_back.
    change (segments_back (set_current ?x ?p ?c)) with (segments_back x).
    rewrite back_swap_set_back.
    unfold set_back, segments_front. destruct (front_is_buffer1 s);
      reflexivity.
  - unfold run_tract, set_back, segments_front, segments_back in *.
    destruct (front_is_buffer1 s);
      cbn [front_is_buffer1 buffer1 buffer2 nsegments damping
           diaphram_pressure rand_calls rate unit_length tract_length
           ambient_phoneme target_phoneme current_phoneme
           interpolation_drag];
      rewrite Hloop; reflexivity.
Qed.

Lemma run_tract_overwrites_back_buffer_witness :
  segments_back
    (snd (run_tract (env_at 44100) (Fin 1)
            (set_back echo_at_glottis [neutral_segment; neutral_segment])))
    = segments_front echo_at_glottis /\
  run_tract (env_at 44100) (Fin 1)
    (set_back echo_at_glottis [neutral_segment; neutral_segment]) =
  run_tract (env_at 44100) (Fin 1)
    (set_back echo_at_glottis [nowhere; nowhere]).
Proof.
  refine (@run_tract_overwrites_back_buffer (env_at 44100) (Fin 1)
            echo_at_glottis [neutral_segment; neutral_segment]
            [nowhere; nowhere] _ _); reflexivity.
Defined.

(** ** The output sample *)

Section Drain.
Variable E : Env.
Variable n : Z.
Variables damping diaphram_pressure glottal_source : double.
Variable front : list Segment.

Let turn := scatter E n damping diaphram_pressure glottal_source front.

Lemma scatter_drain (i : nat) (a : Scatter) :
  drain (turn i a) =
  if (Z.of_nat i =? n - 1)%Z
  then dsub (right (nth i front nowhere)) (reflected_lips front i)
  else drain a.
Proof.
  unfold turn. rewrite scatter_unfold. cbv zeta. cbn [drain].
  destruct (move_right_scalars E damping diaphram_pressure glottal_source
              front i a (ddiv (Fin 1) (z (nth i (bk a) nowhere))))
    as (_ & Hd & _).
  rewrite <- Hd.
  generalize (move_right E damping diaphram_pressure glottal_source front i a
                (ddiv (Fin 1) (z (nth i (bk a) nowhere)))).
  intros [a1 area1]. cbn [fst snd].
  unfold move_left, reflected_lips.
  destruct (Z.of_nat i =? n - 1)%Z; reflexivity.
Qed.

Lemma scatter_loop_drain (k : nat) (a : Scatter) :
  drain (for_loop (Z.of_nat k) turn a) =
  if (n <=? Z.of_nat k)%Z && (0 <? n)%Z
  then dsub (right (nth (Z.to_nat (n - 1)) front nowhere))
            (reflected_lips front (Z.to_nat (n - 1)))
  else drain a.
Proof.
  induction k as [|k IH].
  - cbn [for_loop Z.of_nat Z.to_nat seq fold_left].
    destruct (Z.leb_spec n 0), (Z.ltb_spec 0 n); try reflexivity; lia.
  - rewrite for_loop_nat, scatter_drain, IH.
    destruct (Z.eqb_spec (Z.of_nat k) (n - 1)) as [Hk|Hk].
    + replace (Z.to_nat (n - 1)) with k by lia.
      replace (n <=? Z.of_nat (S k))%Z with true
        by (symmetry; apply Z.leb_le; lia).
      replace (0 <? n)%Z with true by (symmetry; apply Z.ltb_lt; lia).
      reflexivity.
    + destruct (Z.leb_spec n (Z.of_nat k)), (Z.leb_spec n (Z.of_nat (S k)));
        try reflexivity; lia.
Qed.

End Drain.

(** The sample that [run_tract] returns. *)
Lemma run_tract_output (E : Env) (glottal_source : double) (s : State) :
  fst (run_tract E glottal_source s) =
  if (0 <? nsegments s)%Z
  then dsub (right (nth (Z.to_nat (nsegments s - 1)) (segments_front s)
                        nowhere))
            (reflected_lips (segments_front s) (Z.to_nat (nsegments s - 1)))
  else Fin 0.
Proof.
  unfold run_tract. cbn [fst].
  rewrite (for_loop_to_nat (nsegments s)
             (scatter E (nsegments s) (damping s) (diaphram_pressure s)
                      glottal_source (segments_front s))).
  rewrite scatter_loop_drain. cbn [drain].
  destruct (Z.ltb_spec 0 (nsegments s)) as [Hn|Hn].
  - replace (nsegments s <=? Z.of_nat (Z.to_nat (nsegments s)))%Z
      with true by (symmetry; apply Z.leb_le; lia).
    reflexivity.
  - rewrite andb_false_r. reflexivity.
Qed.

(** X7. The sample that [run_tract] returns is the part of the last
    segment's right-going wave that the lips transmit,
    [right - right * reflection (z, DRAIN_Z)], read from the front buffer
    (0 when there is no segment); the glottal source sample of the same
    call has no part in it. *)
Theorem output_is_transmitted_at_lips (E : Env) (glottal_source other : double)
    (s : State) :
  fst (run_tract E glottal_source s) =
  (if (0 <? nsegments s)%Z
   then
     let last :=
       nth (Z.to_nat (nsegments s - 1)) (segments_front s) nowhere in
     dsub (right last) (dmul (right last) (reflection (z last) DRAIN_Z))
   else Fin 0) /\
  fst (run_tract E other s) = fst (run_tract E glottal_source s).
Proof.
  assert (H : forall g,
             fst (run_tract E g s) =
             if (0 <? nsegments s)%Z
             then
               let last :=
                 nth (Z.to_nat (nsegments s - 1)) (segments_front s) nowhere
               in
               dsub (right last)
                    (dmul (right last) (reflection (z last) DRAIN_Z))
             else Fin 0).
  { intro g. apply run_tract_output. }
  split; [apply H|]. rewrite !H. reflexivity.
Qed.

(** ** Random numbers *)

(** X9. One call of [run_tract] on a chain of [n] segments draws exactly
    [2 (n - 1)] numbers from [rand] (none for a chain of one segment or
    none), whatever the waves are: [noise] is called at every inner
    boundary, for each direction, also when the velocity is clipped to
    0. *)
Theorem run_tract_draws_two_per_boundary (E : Env) (glottal_source : double)
    (s : State) :
  well_formed s ->
  rand_calls (snd (run_tract E glottal_source s)) =
  (rand_calls s + 2 * (Z.to_nat (nsegments s) - 1))%nat.
Proof.
  intro Hwf. destruct (proj1 (well_formed_front s) Hwf) as (Hf & Hb).
  unfold run_tract. cbn [snd].
  match goal with
  | |- context [update_shape ?e ?b ?x] =>
      destruct (update_shape_controls e b x) as (_ & _ & _ & _ & _ & _ & Hr);
      rewrite Hr
  end.
  cbn [set_current rand_calls].
  set (back0 := for_loop (nsegments s) (carry_over (segments_front s))
                  (segments_back s)).
  assert (Hlen : length back0 = Z.to_nat (nsegments s)).
  { unfold back0. rewrite for_loop_to_nat.
    destruct (carry_over_loop (segments_front s) (segments_back s)
                (Z.to_nat (nsegments s))) as (L & _).
    congruence. }
  destruct (Z.lt_ge_cases (nsegments s) 1) as [Hn|Hn].
  - rewrite for_loop_zero by lia. cbn [rand_count].
    replace (Z.to_nat (nsegments s)) with 0%nat by lia. lia.
  - pose proof (@scattered_loop E (damping s) (diaphram_pressure s)
                  glottal_source (segments_front s) back0 (rand_calls s)
                  (Fin 0) (length back0) (Nat.le_refl _)) as (_ & Hrand & _).
    rewrite Hlen in Hrand.
    replace (Z.of_nat (Z.to_nat (nsegments s))) with (nsegments s)
      in Hrand by lia.
    rewrite Hrand. unfold rand_after.
    rewrite Nat.eqb_refl.
    destruct (Nat.eqb_spec (Z.to_nat (nsegments s)) 0); lia.
Qed.

Lemma run_tract_draws_two_per_boundary_witness :
  rand_calls (snd (run_tract (env_at 44100) (Fin 1) tract_at_setup)) =
  (rand_calls tract_at_setup
   + 2 * (Z.to_nat (nsegments tract_at_setup) - 1))%nat.
Proof.
  refine (@run_tract_draws_two_per_boundary (env_at 44100) (Fin 1)
            tract_at_setup _).
  split; vm_compute; reflexivity.
Defined.

(** X10. [noise] is a finite number from -1 to 1 whenever [rand] returns
    a value from 0 to [RAND_MAX] and [RAND_MAX] is positive. *)
Theorem noise_within_unit (E : Env) (k : nat) :
  (0 < RAND_MAX E)%Z ->
  (0 <= rand E k <= RAND_MAX E)%Z ->
  between (- (1)) 1 (noise E k).
Proof.
  intros Hm [H0 H1]. unfold noise, i2d.
  rewrite (@ddiv_fin (inject_Z (RAND_MAX E)) 2) by lra.
  assert (Hpos : 0 < inject_Z (RAND_MAX E) / 2).
  { apply Qlt_shift_div_l; [reflexivity|]. rewrite Qmult_0_l.
    change 0 with (inject_Z 0). rewrite <- Zlt_Qlt. exact Hm. }
  rewrite ddiv_fin by lra.
  cbn [dsub dneg dadd between].
  set (h := inject_Z (RAND_MAX E) / 2) in *.
  assert (R0 : 0 <= inject_Z (rand E k))
    by (change 0 with (inject_Z 0); rewrite <- Zle_Qle; exact H0).
  assert (R1 : inject_Z (rand E k) <= 2 * h).
  { unfold h. setoid_replace (2 * (inject_Z (RAND_MAX E) / 2))
      with (inject_Z (RAND_MAX E)) by field.
    rewrite <- Zle_Qle. exact H1. }
  assert (Q0 : 0 <= inject_Z (rand E k) / h)
    by (apply Qle_shift_div_l; lra).
  assert (Q1 : inject_Z (rand E k) / h <= 2)
    by (apply Qle_shift_div_r; lra).
  split; lra.
Qed.

Lemma noise_within_unit_witness :
  between (- (1)) 1 (noise (env_at 44100) 7).
Proof.
  refine (@noise_within_unit (env_at 44100) 7 _ _).
  - reflexivity.
  - cbn. lia.
Defined.

(** ** Uniform chains *)

(** X11. On a chain whose segments all have the same positive impedance,
    with finite waves and a finite damping, one call of [run_tract] moves
    every right-going amplitude one segment toward the lips and every
    left-going amplitude one segment toward the glottis, unchanged:
    nothing is reflected at the inner boundaries and no noise is added. *)
Theorem uniform_chain_is_a_delay_line (E : Env) (glottal_source : double)
    (s : State) (zz dmp : Q) (j : nat) :
  RAND_MAX E <> 0%Z ->
  well_formed s ->
  uniform_z zz (segments_front s) -> 0 < zz ->
  finite_waves (segments_front s) ->
  damping s = Fin dmp ->
  let after := segments_front (snd (run_tract E glottal_source s)) in
  ((0 < j < Z.to_nat (nsegments s))%nat ->
   right (nth j after nowhere)
     =d= right (nth (j - 1) (segments_front s) nowhere)) /\
  ((S j < Z.to_nat (nsegments s))%nat ->
   left (nth j after nowhere)
     =d= left (nth (S j) (segments_front s) nowhere)).
Proof.
  intros Hrm Hwf Hz Hzz Hfin Hd after.
  destruct (proj1 (well_formed_front s) Hwf) as (Hlen & _).
  destruct (run_tract_front E glottal_source Hwf) as (_ & _ & Hnth).
  rewrite Hd in Hnth. fold after in Hnth.
  set (front := segments_front s) in *.
  set (N := Z.to_nat (nsegments s)) in *.
  assert (Fz : forall i, (i < N)%nat -> z (nth i front nowhere) =d= Fin zz).
  { intros i Hi. unfold uniform_z in Hz. rewrite Forall_nth in Hz.
    apply Hz. lia. }
  assert (Fl : forall i, (i < N)%nat ->
             left (nth i front nowhere)
             = Fin (qv (left (nth i front nowhere)))).
  { intros i Hi. unfold finite_waves in Hfin. rewrite Forall_nth in Hfin.
    destruct (Hfin i nowhere ltac:(lia)) as [H _].
    apply finite_inv in H. destruct H as [q ->]. reflexivity. }
  assert (Fr : forall i, (i < N)%nat ->
             right (nth i front nowhere)
             = Fin (qv (right (nth i front nowhere)))).
  { intros i Hi. unfold finite_waves in Hfin. rewrite Forall_nth in Hfin.
    destruct (Hfin i nowhere ltac:(lia)) as [_ H].
    apply finite_inv in H. destruct H as [q ->]. reflexivity. }
  split; intro Hj.
  - destruct (Hnth j ltac:(lia)) as (Er & _). rewrite Er.
    destruct j as [|i]; [lia|].
    change (final_right E (Fin dmp) (diaphram_pressure s) glottal_source
              front (rand_calls s) (S i) (Fin 0))
      with (final_right E (Fin dmp) (Fin 0) (Fin 0) front (rand_calls s)
              (S i) (Fin 0)).
    destruct (@uniform_final_right E (nsegments s) front zz dmp 0 0
                (rand_calls s) Hrm Hzz Fz Fl Fr ltac:(reflexivity)
                ltac:(reflexivity) (S i) ltac:(lia))
      as (v & -> & Hv).
    cbn [Nat.eqb] in Hv. rewrite Fr by lia. cbn [deq]. exact Hv.
  - destruct (Hnth j ltac:(lia)) as (_ & El & _). rewrite El.
    destruct (@uniform_final_left E (nsegments s) front zz dmp
                (rand_calls s) Hrm Hzz Fz Fl Fr j ltac:(lia))
      as (v & -> & Hv).
    replace (Z.of_nat j =? nsegments s - 1)%Z with false in Hv
      by (symmetry; apply Z.eqb_neq; lia).
    rewrite Fl by lia. cbn [deq]. exact Hv.
Qed.

Lemma uniform_chain_is_a_delay_line_witness :
  let after :=
    segments_front
      (snd (run_tract (env_at 8000) (Fin 0) narrow_after_impulse)) in
  ((0 < 1 < Z.to_nat (nsegments narrow_after_impulse))%nat ->
   right (nth 1 after nowhere)
     =d= right (nth (1 - 1) (segments_front narrow_after_impulse) nowhere)) /\
  ((2 < Z.to_nat (nsegments narrow_after_impulse))%nat ->
   left (nth 1 after nowhere)
     =d= left (nth 2 (segments_front narrow_after_impulse) nowhere)).
Proof.
  refine (@uniform_chain_is_a_delay_line (env_at 8000) (Fin 0)
            narrow_after_impulse (1000000 # 1000001) (4 # 100) 1
            _ _ _ _ _ _).
  - discriminate.
  - split; vm_compute; reflexivity.
  - unfold uniform_z. vm_compute. repeat constructor.
  - reflexivity.
  - apply waves_finite_spec. vm_compute. reflexivity.
  - vm_compute. reflexivity.
Defined.

(** ** The shape function and the waves *)

Lemma shape_segment_twice (E : Env) (start stop : Z) (cur : Phoneme)
    (set_z : bool) (i : nat) (x : Segment) :
  shape_segment E start stop cur set_z i
    (shape_segment E start stop cur set_z i x)
  = shape_segment E start stop cur set_z i x.
Proof.
  unfold shape_segment.
  destruct (Z.of_nat i <? start)%Z; [|destruct (stop <=? Z.of_nat i)%Z];
    destruct set_z; reflexivity.
Qed.

Lemma set_front_twice (s : State) (l l' : list Segment) :
  set_front (set_front s l) l' = set_front s l'.
Proof.
  unfold set_front. destruct (front_is_buffer1 s); reflexivity.
Qed.

Lemma update_shape_well_formed (E : Env) (set_z : bool) (s : State) :
  well_formed s -> well_formed (update_shape E set_z s).
Proof.
  intro Hwf. destruct (update_shape_front E set_z Hwf) as (Hlen & _).
  destruct (update_shape_scalars E set_z s) as (_ & _ & _ & Hn & _).
  apply well_formed_front. rewrite update_shape_back, Hn.
  split; [exact Hlen|]. apply (proj1 (well_formed_front s) Hwf).
Qed.

(** X12. [update_shape] never touches a traveling-wave amplitude, nor the
    back buffer; with [set_z = 0] it leaves every impedance as it is and
    with [set_z = 1] it sets every impedance to its target; and doing it
    twice is the same as doing it once. *)
Theorem update_shape_only_retargets (E : Env) (set_z : bool) (s : State)
    (j : nat) :
  well_formed s ->
  (j < Z.to_nat (nsegments s))%nat ->
  let before := nth j (segments_front s) nowhere in
  let after := nth j (segments_front (update_shape E set_z s)) nowhere in
  left after = left before /\
  right after = right before /\
  z after = (if set_z then target_z after else z before) /\
  segments_back (update_shape E set_z s) = segments_back s /\
  update_shape E set_z (update_shape E set_z s) = update_shape E set_z s.
Proof.
  intros Hwf Hj before after.
  destruct (update_shape_front E set_z Hwf) as (Hlen & Hnth).
  unfold after, before. rewrite (Hnth j Hj).
  split; [|split; [|split; [|split]]].
  - unfold shape_segment.
    destruct (_ <? _)%Z; [|destruct (_ <=? _)%Z]; destruct set_z; reflexivity.
  - unfold shape_segment.
    destruct (_ <? _)%Z; [|destruct (_ <=? _)%Z]; destruct set_z; reflexivity.
  - unfold shape_segment.
    destruct (_ <? _)%Z; [|destruct (_ <=? _)%Z]; destruct set_z; reflexivity.
  - apply update_shape_back.
  - pose proof (update_shape_well_formed E set_z Hwf) as Hwf'.
    destruct (update_shape_front E set_z Hwf') as (Hlen' & Hnth').
    destruct (update_shape_scalars E set_z s) as (_ & _ & _ & Hn & _).
    destruct (update_shape_controls E set_z s) as (_ & _ & Hc & _).
    rewrite Hn in Hlen'. rewrite Hn, Hc in Hnth'.
    assert (Hsame : segments_front (update_shape E set_z (update_shape E set_z s))
                    = segments_front (update_shape E set_z s)).
    { apply (nth_ext _ _ nowhere nowhere); [congruence|].
      intros i Hi. rewrite Hlen' in Hi.
      rewrite (Hnth' i Hi), (Hnth i Hi). apply shape_segment_twice. }
    unfold update_shape at 1 in Hsame. rewrite front_set_front in Hsame.
    unfold update_shape at 1. rewrite Hsame.
    unfold update_shape. rewrite set_front_twice, front_set_front.
    reflexivity.
Qed.

Lemma update_shape_only_retargets_witness :
  let before := nth 4 (segments_front unshaped_u) nowhere in
  let after :=
    nth 4 (segments_front (update_shape (env_at 44100) true unshaped_u))
        nowhere in
  left after = left before /\
  right after = right before /\
  z after = (if true then target_z after else z before) /\
  segments_back (update_shape (env_at 44100) true unshaped_u)
    = segments_back unshaped_u /\
  update_shape (env_at 44100) true
    (update_shape (env_at 44100) true unshaped_u)
  = update_shape (env_at 44100) true unshaped_u.
Proof.
  refine (@update_shape_only_retargets (env_at 44100) true unshaped_u 4 _ _).
  - split; reflexivity.
  - vm_compute. repeat constructor.
Defined.

(** X13. The three zones of [update_shape] split the chain in order:
    [0 <= start <= stop <= n], with at least one lip segment as soon as
    there is a segment; the whole chain is lips for fewer than two
    segments and the throat is empty for fewer than five; the tongue zone
    has exactly one segment, so that [ntongue - 1] is zero, exactly when
    [n] is 2, and at least two segments from [n = 3] on. *)
Theorem tongue_zone_partition (n : Z) :
  (0 <= n)%Z ->
  (0 <= tongue_start n <= tongue_stop n)%Z /\
  (tongue_stop n <= n)%Z /\
  (1 <= n -> tongue_stop n < n)%Z /\
  (n <= 1 -> tongue_stop n = 0)%Z /\
  (1 <= tongue_start n <-> 5 <= n)%Z /\
  (tongue_stop n - tongue_start n = 1 <-> n = 2)%Z /\
  (3 <= n -> 2 <= tongue_stop n - tongue_start n)%Z.
Proof.
  intro Hn. unfold tongue_start, tongue_stop, Qtrunc, TONGUE_BACK, TONGUE_FRONT.
  cbn [Qmult Qnum Qden inject_Z].
  change (Z.pos (10 * 1)) with 10%Z.
  pose proof (Z.quot_rem' (2 * n) 10) as H2.
  pose proof (Z.quot_rem' (9 * n) 10) as H9.
  pose proof (Z.rem_bound_pos (2 * n) 10 ltac:(lia) ltac:(lia)) as B2.
  pose proof (Z.rem_bound_pos (9 * n) 10 ltac:(lia) ltac:(lia)) as B9.
  repeat split; intros; lia.
Qed.

Lemma tongue_zone_partition_witness :
  (0 <= tongue_start 22 <= tongue_stop 22)%Z /\
  (tongue_stop 22 <= 22)%Z /\
  (1 <= 22 -> tongue_stop 22 < 22)%Z /\
  (22 <= 1 -> tongue_stop 22 = 0)%Z /\
  (1 <= tongue_start 22 <-> 5 <= 22)%Z /\
  (tongue_stop 22 - tongue_start 22 = 1 <-> 22 = 2)%Z /\
  (3 <= 22 -> 2 <= tongue_stop 22 - tongue_start 22)%Z.
Proof.
  refine (@tongue_zone_partition 22 _). lia.
Defined.

(** ** What [init_tract] and [resize_tract] build *)

Lemma nth_repeat_neutral (k j : nat) :
  (j < k)%nat -> nth j (repeat neutral_segment k) nowhere = neutral_segment.
Proof.
  intro H. apply (@repeat_spec _ k neutral_segment).
  apply nth_In. rewrite repeat_length. exact H.
Qed.

(** X14. After a successful [init_tract] both arrays have [nsegments]
    elements, the front buffer is [buffer1] and the back buffer
    [buffer2]; the back buffer is all neutral segments; every front segment
    is silent (both amplitudes 0), rigid, and already at its target
    impedance; the phonemes, the three controls and the state of [rand]
    are what they were. *)
Theorem init_tract_builds_silent_chain (E : Env) (alloc1 alloc2 : bool)
    (desired_length : double) (s s' : State) :
  init_tract E alloc1 alloc2 desired_length s = Some s' ->
  well_formed s' /\
  front_is_buffer1 s' = true /\
  buffer2 s' = repeat neutral_segment (Z.to_nat (nsegments s')) /\
  (forall j, (j < Z.to_nat (nsegments s'))%nat ->
     left (nth j (buffer1 s') nowhere) = Fin 0 /\
     right (nth j (buffer1 s') nowhere) = Fin 0 /\
     rigidity (nth j (buffer1 s') nowhere) = Fin 1 /\
     z (nth j (buffer1 s') nowhere) = target_z (nth j (buffer1 s') nowhere)) /\
  ambient_phoneme s' = ambient_phoneme s /\
  target_phoneme s' = target_phoneme s /\
  current_phoneme s' = current_phoneme s /\
  interpolation_drag s' = interpolation_drag s /\
  diaphram_pressure s' = diaphram_pressure s /\
  damping s' = damping s /\
  rand_calls s' = rand_calls s.
Proof.
  intro H.
  split; [exact (proj1 (init_tract_sound _ _ _ _ _ H))|].
  split; [exact (init_tract_front _ _ _ _ _ H)|].
  split; [|split; [|exact (init_tract_controls _ _ _ _ _ H)]].
  - revert H. unfold init_tract.
    destruct (d2i _) as [n|]; [|discriminate].
    destruct (_ && _); [discriminate|].
    intro H. injection H as <-.
    match goal with
    | |- context [update_shape ?e ?b ?x] =>
        destruct (update_shape_scalars e b x) as (_ & _ & _ & Hn & _);
        rewrite Hn;
        pose proof (update_shape_back e b x) as Hb
    end.
    unfold segments_back in Hb.
    match type of Hb with
    | context [front_is_buffer1 (update_shape ?e ?b ?x)] =>
        destruct (update_shape_scalars e b x) as (_ & _ & _ & _ & Hf);
        rewrite Hf in Hb
    end.
    cbn [front_is_buffer1 buffer2 nsegments] in Hb |- *. exact Hb.
  - revert H. unfold init_tract.
    destruct (d2i _) as [n|]; [|discriminate].
    destruct (_ && _); [discriminate|].
    intro H. injection H as <-. intros j Hj.
    match goal with
    | |- context [update_shape ?e ?b ?x] =>
        assert (Hwf : well_formed x)
          by (split; cbn [buffer1 buffer2 nsegments]; apply repeat_length);
        destruct (update_shape_scalars e b x) as (_ & _ & _ & Hn & Hf);
        destruct (update_shape_front e b Hwf) as (_ & Hnth);
        rewrite Hn in Hj
    end.
    unfold segments_front in Hnth. rewrite Hf in Hnth.
    cbn [front_is_buffer1 buffer1 nsegments current_phoneme] in Hnth, Hj.
    rewrite (Hnth j Hj), (@nth_repeat_neutral _ j Hj).
    unfold shape_segment, neutral_segment, LIPS_RIGIDITY.
    destruct (_ <? _)%Z; [|destruct (_ <=? _)%Z]; repeat split.
Qed.

Lemma init_tract_builds_silent_chain_witness :
  well_formed tract_at_setup /\
  front_is_buffer1 tract_at_setup = true /\
  buffer2 tract_at_setup
    = repeat neutral_segment (Z.to_nat (nsegments tract_at_setup)) /\
  (forall j, (j < Z.to_nat (nsegments tract_at_setup))%nat ->
     left (nth j (buffer1 tract_at_setup) nowhere) = Fin 0 /\
     right (nth j (buffer1 tract_at_setup) nowhere) = Fin 0 /\
     rigidity (nth j (buffer1 tract_at_setup) nowhere) = Fin 1 /\
     z (nth j (buffer1 tract_at_setup) nowhere)
       = target_z (nth j (buffer1 tract_at_setup) nowhere)) /\
  ambient_phoneme tract_at_setup = mkPhoneme (Fin 0) (Fin (5 # 10)) (Fin 0) /\
  target_phoneme tract_at_setup = AmbientPtr /\
  current_phoneme tract_at_setup = mkPhoneme (Fin 0) (Fin (5 # 10)) (Fin 0) /\
  interpolation_drag tract_at_setup = DEFAULT_INTERPOLATION_DRAG /\
  diaphram_pressure tract_at_setup = Fin 0 /\
  damping tract_at_setup = DEFAULT_DAMPING /\
  rand_calls tract_at_setup = 0%nat.
Proof.
  refine (@init_tract_builds_silent_chain (env_at 44100) true true
            TRACT_LENGTH
            (mkState 0 (Fin 0) (Fin 0) 0 [] [] true
               (mkPhoneme (Fin 0) (Fin (5 # 10)) (Fin 0)) AmbientPtr
               (mkPhoneme (Fin 0) (Fin (5 # 10)) (Fin 0))
               DEFAULT_INTERPOLATION_DRAG (Fin 0) DEFAULT_DAMPING 0)
            tract_at_setup _).
  vm_compute. reflexivity.
Defined.

(** X15. A successful [resize_tract] of a well-formed tract builds two
    arrays of the new length and carries the waves over by index, each
    array from the array of the same name: for [j] below both the old and
    the new segment count the amplitudes of [buffer1[j]] and of
    [buffer2[j]] are the old ones, and above the old count they are 0.
    Impedances are not carried over: [buffer1] is at its target shape and
    [buffer2] is neutral; and the counter of [rand] is untouched. *)
Theorem resize_carries_waves_by_index (E : Env) (alloc1 alloc2 : bool)
    (desired_length : double) (s s' : State) (j : nat) :
  well_formed s ->
  resize_tract E alloc1 alloc2 desired_length s = Some s' ->
  (j < Z.to_nat (nsegments s'))%nat ->
  well_formed s' /\
  (if (j <? Z.to_nat (nsegments s))%nat then
     left (nth j (buffer1 s') nowhere) = left (nth j (buffer1 s) nowhere) /\
     right (nth j (buffer1 s') nowhere) = right (nth j (buffer1 s) nowhere) /\
     left (nth j (buffer2 s') nowhere) = left (nth j (buffer2 s) nowhere) /\
     right (nth j (buffer2 s') nowhere) = right (nth j (buffer2 s) nowhere)
   else
     left (nth j (buffer1 s') nowhere) = Fin 0 /\
     right (nth j (buffer1 s') nowhere) = Fin 0 /\
     left (nth j (buffer2 s') nowhere) = Fin 0 /\
     right (nth j (buffer2 s') nowhere) = Fin 0) /\
  z (nth j (buffer1 s') nowhere) = target_z (nth j (buffer1 s') nowhere) /\
  z (nth j (buffer2 s') nowhere) = NEUTRAL_Z /\
  rand_calls s' = rand_calls s.
Proof.
  intros Hwf H Hj.
  split; [exact (proj1 (resize_tract_sound _ _ _ _ _ H))|].
  destruct (resize_tract_controls _ _ _ _ _ H) as (_ & _ & _ & _ & _ & _ & Hr).
  destruct (resize_tract_buffers _ _ _ _ _ H)
    as (s1 & Hi & Hn & _ & L1 & L2 & N1 & N2).
  rewrite Hn in Hj.
  pose proof (init_tract_sound _ _ _ _ _ Hi) as ((W1 & W2) & _).
  assert (B2 : nth j (buffer2 s1) nowhere = neutral_segment).
  { revert Hi Hj. unfold init_tract.
    destruct (d2i _) as [n|]; [|discriminate].
    destruct (_ && _); [discriminate|].
    intro Hi. injection Hi as <-.
    match goal with
    | |- context [update_shape ?e ?b ?x] =>
        destruct (update_shape_scalars e b x) as (_ & _ & _ & Hn1 & Hf);
        pose proof (update_shape_back e b x) as Hb;
        rewrite Hn1
    end.
    unfold segments_back in Hb. rewrite Hf in Hb.
    cbn [front_is_buffer1 buffer2 nsegments] in Hb |- *.
    rewrite Hb. apply nth_repeat_neutral. }
  assert (B1 : left (nth j (buffer1 s1) nowhere) = Fin 0 /\
               right (nth j (buffer1 s1) nowhere) = Fin 0 /\
               z (nth j (buffer1 s1) nowhere)
                 = target_z (nth j (buffer1 s1) nowhere)).
  { revert Hi Hj. unfold init_tract.
    destruct (d2i _) as [n|]; [|discriminate].
    destruct (_ && _); [discriminate|].
    intro Hi. injection Hi as <-.
    match goal with
    | |- context [update_shape ?e ?b ?x] =>
        assert (Hwf0 : well_formed x)
          by (split; cbn [buffer1 buffer2 nsegments]; apply repeat_length);
        destruct (update_shape_scalars e b x) as (_ & _ & _ & Hn1 & Hf);
        destruct (update_shape_front e b Hwf0) as (_ & Hnth);
        rewrite Hn1
    end.
    unfold segments_front in Hnth. rewrite Hf in Hnth.
    cbn [front_is_buffer1 buffer1 nsegments current_phoneme] in Hnth |- *.
    intro Hj. rewrite (Hnth j Hj), (@nth_repeat_neutral _ j Hj).
    unfold shape_segment, neutral_segment.
    destruct (_ <? _)%Z; [|destruct (_ <=? _)%Z]; repeat split. }
  destruct B1 as (B1l & B1r & B1z).
  rewrite (N1 j) by lia. rewrite (N2 j) by lia.
  assert (Hk : (j <? Z.to_nat (Z.min (nsegments s) (nsegments s1)))%nat
               = (j <? Z.to_nat (nsegments s))%nat).
  { destruct (Nat.ltb_spec j (Z.to_nat (nsegments s)));
      [apply Nat.ltb_lt | apply Nat.ltb_ge]; lia. }
  rewrite Hk.
  destruct (j <? Z.to_nat (nsegments s))%nat;
    cbn [transplant left right z target_z]; rewrite ?B2;
    repeat split; auto.
Qed.

Lemma resize_carries_waves_by_index_witness :
  well_formed tract_resized /\
  (if (0 <? Z.to_nat (nsegments tract_after_impulse))%nat then
     left (nth 0 (buffer1 tract_resized) nowhere)
       = left (nth 0 (buffer1 tract_after_impulse) nowhere) /\
     right (nth 0 (buffer1 tract_resized) nowhere)
       = right (nth 0 (buffer1 tract_after_impulse) nowhere) /\
     left (nth 0 (buffer2 tract_resized) nowhere)
       = left (nth 0 (buffer2 tract_after_impulse) nowhere) /\
     right (nth 0 (buffer2 tract_resized) nowhere)
       = right (nth 0 (buffer2 tract_after_impulse) nowhere)
   else
     left (nth 0 (buffer1 tract_resized) nowhere) = Fin 0 /\
     right (nth 0 (buffer1 tract_resized) nowhere) = Fin 0 /\
     left (nth 0 (buffer2 tract_resized) nowhere) = Fin 0 /\
     right (nth 0 (buffer2 tract_resized) nowhere) = Fin 0) /\
  z (nth 0 (buffer1 tract_resized) nowhere)
    = target_z (nth 0 (buffer1 tract_resized) nowhere) /\
  z (nth 0 (buffer2 tract_resized) nowhere) = NEUTRAL_Z /\
  rand_calls tract_resized = rand_calls tract_after_impulse.
Proof.
  refine (@resize_carries_waves_by_index (env_at 44100) true true
            (map2range 127 CONTROLLER_TRACT_LENGTH_MIN
                       CONTROLLER_TRACT_LENGTH_MAX)
            tract_after_impulse tract_resized 0 _ _ _).
  - split; vm_compute; reflexivity.
  - vm_compute. reflexivity.
  - vm_compute. repeat constructor.
Defined.

(** ** The regular regime *)

Lemma between_deq (lo hi : Q) (x y : double) :
  x =d= y -> between lo hi y -> between lo hi x.
Proof.
  destruct x as [p| | |], y as [q| | |]; simpl; try contradiction.
  intros H [H1 H2]. rewrite H. split; assumption.
Qed.

Lemma between_finite (lo hi : Q) (x : double) : between lo hi x -> finite x.
Proof. destruct x; simpl; tauto. Qed.

Lemma between_inv (lo hi : Q) (x : double) :
  between lo hi x -> exists q, x = Fin q /\ lo <= q /\ q <= hi.
Proof.
  destruct x as [q| | |]; simpl; try contradiction.
  intro H. exists q. split; [reflexivity | exact H].
Qed.

Lemma finite_dadd (x y : double) : finite x -> finite y -> finite (dadd x y).
Proof. destruct x, y; simpl; tauto. Qed.

Lemma finite_dsub (x y : double) : finite x -> finite y -> finite (dsub x y).
Proof. destruct x, y; simpl; tauto. Qed.

Lemma finite_dmul (x y : double) : finite x -> finite y -> finite (dmul x y).
Proof. destruct x, y; simpl; tauto. Qed.

Lemma finite_clip_velocity (x : double) : finite x -> finite (clip_velocity x).
Proof.
  intro H. apply finite_inv in H. destruct H as [q ->].
  rewrite clip_velocity_fin. exact I.
Qed.

Lemma finite_noise (E : Env) (k : nat) :
  RAND_MAX E <> 0%Z -> finite (noise E k).
Proof.
  intro H. destruct (@noise_finite E k H) as [v ->]. exact I.
Qed.

(** The reciprocal of an area between [MIN_AREA] and [2 + MIN_AREA]. *)
Lemma reciprocal_in_range (a : Q) :
  (1 # 1000000) <= a -> a <= 2 + (1 # 1000000) ->
  in_range (dmul (ddiv (Fin 1) (Fin a)) NEUTRAL_Z).
Proof.
  intros H1 H2. rewrite ddiv_fin by lra.
  unfold NEUTRAL_Z, in_range, z_low, z_high. cbn [dmul between].
  rewrite Qmult_1_r. split.
  - apply Qle_shift_div_l; lra.
  - apply Qle_shift_div_r; lra.
Qed.

(** Every target that [update_shape] writes is in range. *)
Lemma shape_target_in_range (E : Env) (start stop : Z) (cur : Phoneme)
    (set_z : bool) (i : nat) (s : Segment) :
  (forall x : Q, -1 <= cos E x /\ cos E x <= 1) ->
  normalized cur ->
  (stop - start - 1 <> 0)%Z ->
  in_range (target_z (shape_segment E start stop cur set_z i s)).
Proof.
  intros Hcos (Hh & Hp & Hl) Hnt.
  apply between_inv in Hh, Hp, Hl.
  destruct Hh as (h & Eh & Hh0 & Hh1).
  destruct Hp as (p & Ep & Hp0 & Hp1).
  destruct Hl as (l & El & Hl0 & Hl1).
  rewrite shape_segment_target.
  destruct (Z.of_nat i <? start)%Z; [|destruct (stop <=? Z.of_nat i)%Z].
  - unfold THROAT_Z, in_range, z_low, z_high. cbn [between]. split; lra.
  - unfold lips_z. rewrite El. unfold MIN_AREA.
    cbn [dsub dneg dadd]. apply reciprocal_in_range; lra.
  - unfold profile_z, i2d.
    rewrite (@ddiv_fin (inject_Z (Z.of_nat i - start))
                       (inject_Z (stop - start - 1)))
      by (apply inject_Z_nonzero; exact Hnt).
    rewrite Ep, Eh. cbn [dsub dneg dadd dmul].
    rewrite ddiv_fin by lra.
    unfold MIN_AREA. cbn [dcos dmul dsub dneg dadd].
    match goal with
    | |- context [cos E ?x] =>
        destruct (Hcos x) as (C1 & C2);
        destruct (@product_within_unit (cos E x) h C1 C2 Hh0 Hh1) as (V1 & V2)
    end.
    apply reciprocal_in_range; lra.
Qed.

Lemma in_range_positive (x : double) :
  in_range x -> exists q, x = Fin q /\ 0 < q /\ z_low <= q /\ q <= z_high.
Proof.
  intro H. apply between_inv in H. destruct H as (q & -> & H1 & H2).
  exists q. unfold z_low in *. repeat split; try assumption. lra.
Qed.

(** The first loop of [run_tract] on a regular segment: with
    [PHYSICAL_DAMPING] 1 the area goes all the way to its target. *)
Lemma carried_regular (seg : Segment) :
  regular_segment seg ->
  z (carried seg) =d= target_z seg /\
  in_range (z (carried seg)) /\
  dpositive (z (carried seg)).
Proof.
  intros (Hz & Ht & _).
  pose proof Ht as Ht'.
  apply in_range_positive in Hz, Ht.
  destruct Hz as (zq & Ez & Hz0 & _). destruct Ht as (tq & Et & Ht0 & _).
  assert (Hc : z (carried seg) =d= target_z seg).
  { unfold carried. cbn [z]. rewrite Ez, Et. unfold PHYSICAL_DAMPING.
    rewrite !ddiv_fin by lra. cbn [dsub dneg dadd dmul].
    assert (Hna : 1 / zq + (1 / tq + - (1 / zq)) * 1 == 1 / tq) by ring.
    assert (Hpos : 0 < 1 / tq).
    { apply Qlt_shift_div_l; lra. }
    replace (dltb (Fin (1 / zq + (1 / tq + - (1 / zq)) * 1)) (Fin 0))
      with false
      by (symmetry; apply dltb_fin_false; rewrite Hna; lra).
    rewrite ddiv_fin by (rewrite Hna; lra).
    cbn [deq]. rewrite Hna. field. lra. }
  split; [exact Hc|]. split.
  - apply (@between_deq _ _ _ _ Hc). rewrite Et. rewrite Et in Ht'. exact Ht'.
  - rewrite Et in Hc. destruct (z (carried seg)); cbn [deq] in Hc;
      try contradiction. cbn [dpositive]. rewrite Hc. exact Ht0.
Qed.

Lemma finite_reflection (a b : double) :
  in_range a -> in_range b -> finite (reflection a b).
Proof.
  intros Ha Hb. apply in_range_positive in Ha, Hb.
  destruct Ha as (p & -> & Hp & _). destruct Hb as (q & -> & Hq & _).
  unfold reflection. cbn [dsub dneg dadd]. rewrite ddiv_fin by lra. exact I.
Qed.

Lemma finite_reflection_drain (a : double) :
  in_range a -> finite (reflection a DRAIN_Z) /\ finite (reflection DRAIN_Z a).
Proof.
  intros Ha. apply in_range_positive in Ha.
  destruct Ha as (p & -> & Hp & _).
  unfold reflection, DRAIN_Z. cbn [dsub dneg dadd].
  rewrite !ddiv_fin by lra. split; exact I.
Qed.

(** The targets that the [update_shape] at the end of [run_tract]
    writes. *)
Lemma run_tract_retargets (E : Env) (glottal_source : double) (s : State)
    (j : nat) :
  well_formed s ->
  (j < Z.to_nat (nsegments s))%nat ->
  target_z (nth j (segments_front (snd (run_tract E glottal_source s)))
                nowhere) =
  target_z (shape_segment E (tongue_start (nsegments s))
              (tongue_stop (nsegments s))
              (advance_phoneme (current_phoneme s)
                 (deref s (target_phoneme s)) (interpolation_drag s))
              false j nowhere).
Proof.
  intros Hwf Hj.
  destruct (run_tract_front E glottal_source Hwf) as (Hlen & _ & _).
  set (sc := for_loop (nsegments s)
               (scatter E (nsegments s) (damping s) (diaphram_pressure s)
                        glottal_source (segments_front s))
               (mkScatter
                  (for_loop (nsegments s) (carry_over (segments_front s))
                            (segments_back s))
                  (Fin 0) (rand_calls s))).
  assert (Hfront : segments_front (snd (run_tract E glottal_source s)) =
            for_loop (nsegments s)
              (fun i => upd i
                 (shape_segment E (tongue_start (nsegments s))
                    (tongue_stop (nsegments s))
                    (advance_phoneme (current_phoneme s)
                       (deref s (target_phoneme s)) (interpolation_drag s))
                    false i))
              (bk sc)).
  { unfold run_tract. cbn [snd]. fold sc.
    unfold update_shape. rewrite front_set_front.
    unfold set_current, set_back, swap_buffers, segments_front, deref.
    destruct (front_is_buffer1 s); reflexivity. }
  rewrite Hfront in Hlen |- *.
  rewrite for_loop_to_nat in Hlen |- *.
  destruct (pointwise_loop
              (fun i => shape_segment E (tongue_start (nsegments s))
                    (tongue_stop (nsegments s))
                    (advance_phoneme (current_phoneme s)
                       (deref s (target_phoneme s)) (interpolation_drag s))
                    false i) (Z.to_nat (nsegments s)) (bk sc)) as (Hpl & Hpn).
  rewrite Hpn by lia.
  replace (j <? Z.to_nat (nsegments s))%nat with true
    by (symmetry; apply Nat.ltb_lt; lia).
  rewrite !shape_segment_target. reflexivity.
Qed.

Lemma regular_nth (l : list Segment) :
  Forall regular_segment l <->
  forall j, (j < length l)%nat -> regular_segment (nth j l nowhere).
Proof.
  rewrite Forall_nth. split.
  - intros H j Hj. apply H. exact Hj.
  - intros H j d Hj. rewrite (nth_indep l d nowhere Hj). apply H. exact Hj.
Qed.

Lemma finite_waves_nth (l : list Segment) :
  finite_waves l <->
  forall j, (j < length l)%nat ->
    finite (left (nth j l nowhere)) /\ finite (right (nth j l nowhere)).
Proof.
  unfold finite_waves. rewrite Forall_nth. split.
  - intros H j Hj. apply H. exact Hj.
  - intros H j d Hj. rewrite (nth_indep l d nowhere Hj). apply H. exact Hj.
Qed.

Lemma glide_between (c t d : double) :
  between 0 1 c -> between 0 1 t -> between 0 1 d ->
  between 0 1 (glide c t d).
Proof.
  intros Hc Ht Hd. apply between_inv in Hc, Ht, Hd.
  destruct Hc as (c' & -> & C0 & C1). destruct Ht as (t' & -> & T0 & T1).
  destruct Hd as (d' & -> & D0 & D1).
  rewrite glide_fin. cbn [between].
  assert (A : c' + (t' + - c') * d' == c' * (1 - d') + t' * d') by ring.
  rewrite A.
  assert (P1 : 0 <= c' * (1 - d')) by (apply Qmult_le_0_compat; lra).
  assert (P2 : 0 <= t' * d') by (apply Qmult_le_0_compat; lra).
  assert (P3 : c' * (1 - d') <= 1 * (1 - d'))
    by (apply Qmult_le_compat_r; lra).
  assert (P4 : t' * d' <= 1 * d') by (apply Qmult_le_compat_r; lra).
  split; lra.
Qed.

Lemma advance_normalized (c t : Phoneme) (d : double) :
  normalized c -> normalized t -> between 0 1 d ->
  normalized (advance_phoneme c t d).
Proof.
  intros (C1 & C2 & C3) (T1 & T2 & T3) Hd.
  unfold normalized, advance_phoneme.
  cbn [tongue_height tongue_position lips_roundedness].
  repeat split; apply glide_between; assumption.
Qed.

(** *** One step on a regular chain *)

Section RegularStep.
Variable E : Env.
Variable n : Z.
Variable front : list Segment.
Variables damping diaphram_pressure glottal_source : double.
Variable c0 : nat.

Hypothesis rand_max : RAND_MAX E <> 0%Z.
Hypothesis front_regular :
  forall j, (j < Z.to_nat n)%nat -> regular_segment (nth j front nowhere).
Hypothesis finite_damping : finite damping.
Hypothesis finite_pressure : finite diaphram_pressure.
Hypothesis finite_source : finite glottal_source.

Lemma regular_reflected_right (j : nat) :
  (1 <= j < Z.to_nat n)%nat -> finite (reflected_right front j).
Proof.
  intro Hj.
  destruct (front_regular (j := j - 1) ltac:(lia)) as (Z1 & _ & _ & _ & R1).
  destruct (front_regular (j := j) ltac:(lia)) as (Z2 & _).
  unfold reflected_right. apply finite_dmul; [exact R1|].
  apply finite_reflection; assumption.
Qed.

Lemma regular_reflected_left (j : nat) :
  (j + 1 < Z.to_nat n)%nat -> finite (reflected_left front j).
Proof.
  intro Hj.
  destruct (front_regular (j := j + 1) ltac:(lia)) as (Z1 & _ & _ & L1 & _).
  destruct (front_regular (j := j) ltac:(lia)) as (Z2 & _).
  unfold reflected_left. apply finite_dmul; [exact L1|].
  apply finite_reflection; assumption.
Qed.

Lemma regular_reflected_lips (j : nat) :
  (j < Z.to_nat n)%nat -> finite (reflected_lips front j).
Proof.
  intro Hj.
  destruct (front_regular Hj) as (Z1 & _ & _ & _ & R1).
  unfold reflected_lips. apply finite_dmul; [exact R1|].
  apply (@finite_reflection_drain _ Z1).
Qed.

Lemma finite_one_minus : finite (dsub (Fin 1) damping).
Proof. apply finite_dsub; [exact I | exact finite_damping]. Qed.

Lemma finite_frication (x : double) (k : nat) :
  finite x -> finite (dmul (dmul FRICATION (clip_velocity x)) (noise E k)).
Proof.
  intro H. apply finite_dmul; [apply finite_dmul|].
  - exact I.
  - apply finite_clip_velocity. exact H.
  - apply finite_noise. exact rand_max.
Qed.

Lemma regular_final_right (j : nat) :
  (j < Z.to_nat n)%nat ->
  finite (final_right E damping diaphram_pressure glottal_source front c0 j
                      (Fin 0)).
Proof.
  intro Hj. unfold final_right, arrived_right, own_right, glottis_inflow.
  destruct (Nat.eqb_spec j 0) as [->|Hne].
  - destruct (front_regular Hj) as (Z0 & _ & _ & L0 & _).
    apply finite_dadd; [exact I|].
    apply finite_dadd; [apply finite_dadd|exact finite_pressure].
    + apply finite_dmul; [exact L0 | exact finite_one_minus].
    + apply finite_dmul; [exact finite_source|].
      apply finite_dsub; [exact I|]. apply (@finite_reflection_drain _ Z0).
  - assert (Hl : finite (reflected_left front (j - 1))).
    { apply regular_reflected_left. lia. }
    destruct (front_regular (j := j - 1) ltac:(lia)) as (_ & _ & _ & _ & R1).
    apply finite_dadd.
    + apply finite_dadd; [apply finite_dadd; [exact I|]|].
      * apply finite_dmul; [exact Hl | exact finite_one_minus].
      * apply finite_frication. exact Hl.
    + apply finite_dsub; [exact R1|]. apply regular_reflected_right. lia.
Qed.

Lemma regular_final_left (j : nat) :
  (j < Z.to_nat n)%nat ->
  finite (final_left E n damping front c0 j (Fin 0)).
Proof.
  intro Hj. unfold final_left, own_left.
  destruct (Z.eqb_spec (Z.of_nat j) (n - 1)) as [He|Hne].
  - apply finite_dadd; [exact I|].
    apply finite_dmul; [|exact finite_one_minus].
    apply regular_reflected_lips. exact Hj.
  - assert (Hr : finite (reflected_right front (j + 1))).
    { apply regular_reflected_right. lia. }
    destruct (front_regular (j := j + 1) ltac:(lia)) as (_ & _ & _ & L1 & _).
    apply finite_dadd; [apply finite_dadd; [apply finite_dadd; [exact I|]|]|].
    + apply finite_dsub; [exact L1|]. apply regular_reflected_left. lia.
    + apply finite_dmul; [exact Hr | exact finite_one_minus].
    + apply finite_frication. exact Hr.
Qed.

(** The impedance that [run_tract] leaves in segment [j] is the target
    that the segment had. *)
Lemma regular_final_z (j : nat) :
  (j < Z.to_nat n)%nat ->
  final_z n front j (z (carried (nth j front nowhere)))
    =d= target_z (nth j front nowhere).
Proof.
  intro Hj. pose proof (front_regular Hj) as Hseg.
  destruct (@carried_regular _ Hseg) as (Hc & Hin & _).
  destruct Hseg as (_ & _ & Hrig & _).
  assert (Hleft : finite (if (Z.of_nat j =? n - 1)%Z
                          then reflected_lips front j
                          else reflected_left front j)).
  { destruct (Z.eqb_spec (Z.of_nat j) (n - 1)).
    - apply regular_reflected_lips. exact Hj.
    - apply regular_reflected_left. lia. }
  assert (Ha : forall a, area_left n front j (area_right front j a) =d= a).
  { intro a. unfold area_left, area_right.
    destruct (Nat.eqb_spec j 0) as [->|Hne].
    - apply (@rigid_wall _ _ a Hrig Hleft).
    - rewrite (proj2 (@rigid_wall _ _ _ Hrig Hleft)).
      apply (@rigid_wall _ _ a Hrig). apply regular_reflected_right. lia. }
  unfold final_z. rewrite Ha. rewrite <- Hc.
  apply in_range_positive in Hin. destruct Hin as (q & -> & Hq & _).
  rewrite ddiv_fin by lra.
  assert (Hpos : 0 < 1 / q) by (apply Qlt_shift_div_l; lra).
  unfold clamp_area.
  replace (dltb (Fin (1 / q)) (Fin 0)) with false
    by (symmetry; apply dltb_fin_false; lra).
  rewrite ddiv_fin by lra. cbn [deq]. field. lra.
Qed.

End RegularStep.

Lemma run_tract_regular (E : Env) (glottal_source : double) (s : State) :
  (forall x : Q, -1 <= cos E x /\ cos E x <= 1) ->
  RAND_MAX E <> 0%Z ->
  finite glottal_source ->
  regular s -> regular (snd (run_tract E glottal_source s)).
Proof.
  intros Hcos Hrand Hsrc (Hwf & Hn & Hfr & Hbk & Ha & Hc & Ht & Hd & Hp & Hg).
  destruct (proj1 (well_formed_front s) Hwf) as (Hlf & Hlb).
  destruct (run_tract_front E glottal_source Hwf) as (Hlen & Hback & Hnth).
  destruct (run_tract_phonemes E glottal_source s)
    as (Hc' & Ha' & Ht' & Hd' & Hp' & Hg').
  pose proof (run_tract_nsegments E glottal_source s) as Hn'.
  assert (Hreg : forall j, (j < Z.to_nat (nsegments s))%nat ->
                 regular_segment (nth j (segments_front s) nowhere)).
  { intros j Hj. apply (proj1 (regular_nth _) Hfr). lia. }
  assert (Hadv : normalized
                   (advance_phoneme (current_phoneme s)
                      (deref s (target_phoneme s)) (interpolation_drag s))).
  { apply advance_normalized; try assumption.
    rewrite Ht. exact Ha. }
  unfold regular.
  rewrite Hn', Hc', Ha', Ht', Hd', Hp', Hg', Hback.
  split; [|split; [exact Hn|split; [|split]]].
  - apply well_formed_front. rewrite Hn', Hback. split; assumption.
  - apply regular_nth. intros j Hj. rewrite Hlen in Hj.
    destruct (Hnth j Hj) as (Fr & Fl & Fz & Fg).
    destruct (Hreg j Hj) as (_ & Tj & Rj & _).
    unfold regular_segment. rewrite Fr, Fl, Fz, Fg.
    split; [|split; [|split; [|split]]].
    + apply (@between_deq _ _ _ _
               (@regular_final_z (nsegments s) (segments_front s) Hreg j Hj)).
      exact Tj.
    + rewrite (@run_tract_retargets E glottal_source s j Hwf Hj).
      apply shape_target_in_range; try assumption.
      pose proof (@tongue_zone (nsegments s) ltac:(lia)) as (_ & _ & H3 & _).
      specialize (H3 Hn). lia.
    + destruct (_ && _); [reflexivity | exact Rj].
    + apply (@regular_final_left E (nsegments s) (segments_front s)
               (damping s) (rand_calls s) Hrand Hreg Hg j Hj).
    + apply (@regular_final_right E (nsegments s) (segments_front s)
               (damping s) (diaphram_pressure s) glottal_source
               (rand_calls s) Hrand Hreg Hg Hp Hsrc j Hj).
  - apply finite_waves_nth. intros j Hj. rewrite Hlf in Hj.
    destruct (Hreg j Hj) as (_ & _ & _ & L & R). split; assumption.
  - split; [exact Ha|]. split; [exact Hadv|]. split; [exact Ht|].
    split; [exact Hd|]. split; assumption.
Qed.

Lemma Qtrunc_lower_bound (q : Q) (k : Z) :
  inject_Z k <= q -> (k <= Qtrunc q)%Z.
Proof.
  unfold Qle, Qtrunc. cbn [inject_Z Qnum Qden]. intro H.
  apply Z.quot_le_lower_bound; lia.
Qed.

(** At 12863 Hz or more, a tract of 8 cm or more has three segments. *)
Lemma init_tract_three_segments (E : Env) (alloc1 alloc2 : bool)
    (len : Q) (s s' : State) :
  (12863 <= jack_get_sample_rate E)%Z ->
  8 <= len ->
  init_tract E alloc1 alloc2 (Fin len) s = Some s' ->
  (3 <= nsegments s')%Z.
Proof.
  intros Hrate Hlen. unfold init_tract, i2d, SPEED_OF_SOUND.
  assert (Hr : 12863 <= inject_Z (jack_get_sample_rate E)).
  { change 12863 with (inject_Z 12863). rewrite <- Zle_Qle. exact Hrate. }
  rewrite (@ddiv_fin (inject_Z 34300) (inject_Z (jack_get_sample_rate E)))
    by lra.
  set (r := inject_Z (jack_get_sample_rate E)) in *.
  assert (Hu : 0 < inject_Z 34300 / r).
  { apply Qlt_shift_div_l; [lra|]. change (inject_Z 34300) with 34300. lra. }
  rewrite ddiv_fin by lra.
  assert (H3 : inject_Z 3 <= len / (inject_Z 34300 / r)).
  { apply Qle_shift_div_l; [exact Hu|].
    assert (H : inject_Z 3 * (inject_Z 34300 / r) <= 8).
    { setoid_replace (inject_Z 3 * (inject_Z 34300 / r))
        with (102900 / r) by (change (inject_Z 3) with 3;
                              change (inject_Z 34300) with 34300;
                              field; lra).
      apply Qle_shift_div_r; lra. }
    lra. }
  apply Qtrunc_lower_bound in H3.
  unfold d2i.
  destruct (_ && _); [|discriminate].
  destruct (_ && _); [discriminate|].
  intro H. injection H as <-.
  match goal with
  | |- context [update_shape ?e ?b ?x] =>
      destruct (update_shape_scalars e b x) as (_ & _ & _ & Hn & _);
      rewrite Hn
  end.
  exact H3.
Qed.

Lemma init_tract_regular (E : Env) (alloc1 alloc2 : bool)
    (desired_length : double) (s s' : State) :
  (forall x : Q, -1 <= cos E x /\ cos E x <= 1) ->
  normalized (ambient_phoneme s) ->
  normalized (current_phoneme s) ->
  target_phoneme s = AmbientPtr ->
  between 0 1 (interpolation_drag s) ->
  finite (diaphram_pressure s) ->
  finite (damping s) ->
  init_tract E alloc1 alloc2 desired_length s = Some s' ->
  (3 <= nsegments s')%Z ->
  regular s' /\
  (forall j, (j < Z.to_nat (nsegments s'))%nat ->
     regular_segment (nth j (buffer1 s') nowhere) /\
     nth j (buffer2 s') nowhere = neutral_segment).
Proof.
  intros Hcos Ha Hc Ht Hd Hp Hg Hi Hn.
  pose proof (init_tract_sound _ _ _ _ _ Hi) as (Hwf & _).
  pose proof (init_tract_front _ _ _ _ _ Hi) as Hf.
  destruct (init_tract_controls _ _ _ _ _ Hi)
    as (Ha' & Ht' & Hc' & Hd' & Hp' & Hg' & _).
  assert (Hseg : forall j, (j < Z.to_nat (nsegments s'))%nat ->
            regular_segment (nth j (buffer1 s') nowhere) /\
            nth j (buffer2 s') nowhere = neutral_segment).
  { revert Hi Hn. unfold init_tract.
    destruct (d2i _) as [n|]; [|discriminate].
    destruct (_ && _); [discriminate|].
    intro Hi. injection Hi as <-.
    match goal with
    | |- context [update_shape ?e ?b ?x] =>
        assert (Hwf0 : well_formed x)
          by (split; cbn [buffer1 buffer2 nsegments]; apply repeat_length);
        destruct (update_shape_scalars e b x) as (_ & _ & _ & Hn1 & Hf1);
        destruct (update_shape_front e b Hwf0) as (_ & Hnth);
        pose proof (update_shape_back e b x) as Hb;
        rewrite Hn1
    end.
    unfold segments_front in Hnth. unfold segments_back in Hb.
    rewrite Hf1 in Hnth, Hb.
    cbn [front_is_buffer1 buffer1 buffer2 nsegments current_phoneme]
      in Hnth, Hb |- *.
    intros Hn j Hj. rewrite Hb. split; [|apply nth_repeat_neutral; exact Hj].
    rewrite (Hnth j Hj), (@nth_repeat_neutral _ j Hj).
    assert (Htz : in_range
              (target_z (shape_segment E (tongue_start n) (tongue_stop n)
                           (current_phoneme s) true j neutral_segment))).
    { apply shape_target_in_range; try assumption.
      pose proof (@tongue_zone n ltac:(lia)) as (_ & _ & H3 & _).
      specialize (H3 Hn). lia. }
    revert Htz. unfold shape_segment, neutral_segment, LIPS_RIGIDITY.
    destruct (_ <? _)%Z; [|destruct (_ <=? _)%Z];
      cbn [z target_z rigidity left right]; intro Htz;
      repeat split; try exact Htz; try apply Htz. }
  split; [|exact Hseg].
  unfold regular. rewrite Ha', Ht', Hc', Hd', Hp', Hg'.
  unfold segments_front, segments_back. rewrite Hf.
  destruct Hwf as (W1 & W2).
  split; [split; assumption|]. split; [exact Hn|].
  split; [|split].
  - apply regular_nth. intros j Hj. rewrite W1 in Hj.
    apply (Hseg j Hj).
  - apply finite_waves_nth. intros j Hj. rewrite W2 in Hj.
    rewrite (proj2 (Hseg j Hj)). split; exact I.
  - split; [exact Ha|]. split; [exact Hc|]. split; [exact Ht|].
    split; [exact Hd|]. split; assumption.
Qed.

Lemma cos_poly_within_unit (x : Q) : -1 <= cos_poly x /\ cos_poly x <= 1.
Proof.
  unfold cos_poly.
  set (c := Qmax (- (1)) (Qmin 1 (1 - x * x / 2 + x * x * x * x / 24))).
  assert (C0 : -1 <= c) by apply Q.le_max_l.
  assert (C1 : c <= 1).
  { apply Q.max_lub; [lra | apply Q.le_min_l]. }
  pose proof (Qfloor_le (c * 65536)) as F1.
  assert (F0 : inject_Z (-65536) <= inject_Z (Qfloor (c * 65536))).
  { rewrite <- Zle_Qle. rewrite <- (Qfloor_Z (-65536)).
    apply Qfloor_resp_le. change (inject_Z (-65536)) with (-65536). lra. }
  change (inject_Z (-65536)) with (-65536) in F0.
  split.
  - apply Qle_shift_div_l; lra.
  - apply Qle_shift_div_r; lra.
Qed.

Lemma main_setup_regular (E : Env) (alloc1 alloc2 : bool) (s : State) :
  (forall x : Q, -1 <= cos E x /\ cos E x <= 1) ->
  (12863 <= jack_get_sample_rate E)%Z ->
  main_setup E alloc1 alloc2 = Some s -> regular s.
Proof.
  intros Hcos Hrate H. unfold main_setup, TRACT_LENGTH in H.
  assert (Hlen : 8 <= 35 # 2) by lra.
  pose proof (@init_tract_three_segments E alloc1 alloc2 (35 # 2) _ s
                Hrate Hlen H) as Hn3.
  refine (proj1 (@init_tract_regular E alloc1 alloc2 (Fin (35 # 2)) _ s
                   Hcos _ _ _ _ _ _ H Hn3));
    cbn [ambient_phoneme current_phoneme target_phoneme interpolation_drag
         diaphram_pressure damping];
    try reflexivity; try exact I;
    unfold normalized, DEFAULT_INTERPOLATION_DRAG;
    cbn [between tongue_height tongue_position lips_roundedness];
    repeat split; lra.
Qed.

Lemma tongue_zone_single (n : Z) :
  (0 <= n)%Z -> (n <> 2)%Z -> (tongue_stop n - tongue_start n - 1 <> 0)%Z.
Proof.
  intros Hn H2. unfold tongue_start, tongue_stop, Qtrunc, TONGUE_BACK,
    TONGUE_FRONT.
  cbn [Qmult Qnum Qden inject_Z].
  change (Z.pos (10 * 1)) with 10%Z.
  pose proof (Z.quot_rem' (2 * n) 10) as Q2.
  pose proof (Z.quot_rem' (9 * n) 10) as Q9.
  pose proof (Z.rem_bound_pos (2 * n) 10 ltac:(lia) ltac:(lia)) as B2.
  pose proof (Z.rem_bound_pos (9 * n) 10 ltac:(lia) ltac:(lia)) as B9.
  lia.
Qed.

(** X16. Whenever the cosine is within [-1, 1], the three fields of the
    current phoneme are within [0, 1] and the number of segments is not 2,
    every target impedance that [update_shape] writes is a finite number
    from 1000000/2000001 (the area [2 + MIN_AREA]) to 1000000 (the area
    [MIN_AREA]); with [set_z] the impedance itself is in that range. *)
Theorem update_shape_targets_in_range (E : Env) (set_z : bool) (s : State)
    (j : nat) :
  (forall x : Q, -1 <= cos E x /\ cos E x <= 1) ->
  normalized (current_phoneme s) ->
  well_formed s ->
  (nsegments s <> 2)%Z ->
  (j < Z.to_nat (nsegments s))%nat ->
  let after := nth j (segments_front (update_shape E set_z s)) nowhere in
  between (1000000 # 2000001) 1000000 (target_z after) /\
  (set_z = true -> between (1000000 # 2000001) 1000000 (z after)).
Proof.
  intros Hcos Hcur Hwf Hn Hj after.
  destruct (update_shape_front E set_z Hwf) as (_ & Hnth).
  assert (Ht : in_range (target_z after)).
  { unfold after. rewrite (Hnth j Hj).
    apply shape_target_in_range; try assumption.
    apply tongue_zone_single; [lia | exact Hn]. }
  split; [exact Ht|].
  intros ->. revert Ht. unfold after. rewrite (Hnth j Hj).
  unfold shape_segment.
  destruct (_ <? _)%Z; [|destruct (_ <=? _)%Z]; intro Ht; exact Ht.
Qed.

Lemma update_shape_targets_in_range_witness :
  let after :=
    nth 4 (segments_front (update_shape (env_at 44100) true unshaped_u))
        nowhere in
  between (1000000 # 2000001) 1000000 (target_z after) /\
  (true = true -> between (1000000 # 2000001) 1000000 (z after)).
Proof.
  refine (@update_shape_targets_in_range (env_at 44100) true unshaped_u 4
            _ _ _ _ _).
  - exact cos_poly_within_unit.
  - vm_compute. repeat split; discriminate.
  - split; reflexivity.
  - discriminate.
  - vm_compute. repeat constructor.
Defined.

(** ** An impedance that is not a number *)

Lemma dadd_nan_r (x : double) : dadd x NaN = NaN.
Proof. destruct x; reflexivity. Qed.

Lemma dmul_nan_r (x : double) : dmul x NaN = NaN.
Proof. destruct x; reflexivity. Qed.

Lemma reflection_nan_l (y : double) : reflection NaN y = NaN.
Proof.
  unfold reflection, dsub. cbn [dneg]. rewrite !dadd_nan_r. reflexivity.
Qed.

Lemma reflection_nan_r (x : double) : reflection x NaN = NaN.
Proof. reflexivity. Qed.

Lemma carried_nan (seg : Segment) : z seg = NaN -> z (carried seg) = NaN.
Proof.
  intro H. unfold carried. cbn [z]. rewrite H. reflexivity.
Qed.

Lemma final_z_nan (n : Z) (front : list Segment) (i : nat) (z0 : double) :
  z0 = NaN \/
  (i <> 0%nat /\ z (nth (i - 1) front nowhere) = NaN) \/
  (Z.of_nat i <> (n - 1)%Z /\ z (nth (i + 1) front nowhere) = NaN) ->
  final_z n front i z0 = NaN.
Proof.
  intro H. unfold final_z.
  assert (Ha : area_left n front i (area_right front i (ddiv (Fin 1) z0))
               = NaN).
  { unfold area_left, area_right, reflected_right, reflected_left.
    destruct H as [-> | [(Hi & Hz) | (Hi & Hz)]].
    - cbn [ddiv]. destruct (i =? 0)%nat; reflexivity.
    - replace (i =? 0)%nat with false by (symmetry; apply Nat.eqb_neq; exact Hi).
      rewrite Hz, reflection_nan_l, dmul_nan_r. cbn [dmul].
      rewrite dadd_nan_r. reflexivity.
    - replace (Z.of_nat i =? n - 1)%Z with false
        by (symmetry; apply Z.eqb_neq; exact Hi).
      rewrite Hz, reflection_nan_l, dmul_nan_r. cbn [dmul].
      apply dadd_nan_r. }
  rewrite Ha. reflexivity.
Qed.

Lemma run_tract_well_formed (E : Env) (glottal_source : double) (s : State) :
  well_formed s -> well_formed (snd (run_tract E glottal_source s)).
Proof.
  intro Hwf. destruct (proj1 (well_formed_front s) Hwf) as (Hlf & _).
  destruct (run_tract_front E glottal_source Hwf) as (Hlen & Hback & _).
  apply well_formed_front. rewrite run_tract_nsegments, Hback.
  split; assumption.
Qed.

(** A NaN impedance stays, and reaches both neighbours in one sample. *)
Lemma nan_spreads (E : Env) (glottal_source : double) (s : State)
    (j i : nat) :
  well_formed s ->
  (j < Z.to_nat (nsegments s))%nat ->
  (i < Z.to_nat (nsegments s))%nat ->
  z (nth j (segments_front s) nowhere) = NaN ->
  (i = j \/ i + 1 = j \/ i = j + 1)%nat ->
  z (nth i (segments_front (snd (run_tract E glottal_source s))) nowhere)
    = NaN.
Proof.
  intros Hwf Hj Hi Hz Hnear.
  destruct (run_tract_front E glottal_source Hwf) as (_ & _ & Hnth).
  destruct (Hnth i Hi) as (_ & _ & Fz & _). rewrite Fz.
  apply final_z_nan.
  destruct Hnear as [-> | [<- | ->]].
  - left. apply carried_nan. exact Hz.
  - right. right. split; [lia | exact Hz].
  - right. left. split; [lia|].
    replace (j + 1 - 1)%nat with j by lia. exact Hz.
Qed.

Lemma nan_at_lips (E : Env) (glottal_source : double) (s : State) :
  (0 < nsegments s)%Z ->
  z (nth (Z.to_nat (nsegments s - 1)) (segments_front s) nowhere) = NaN ->
  fst (run_tract E glottal_source s) = NaN.
Proof.
  intros Hn Hz. rewrite run_tract_output.
  replace (0 <? nsegments s)%Z with true by (symmetry; apply Z.ltb_lt; lia).
  unfold reflected_lips. rewrite Hz, reflection_nan_l, dmul_nan_r.
  unfold dsub. cbn [dneg]. apply dadd_nan_r.
Qed.

Lemma run_samples_outputs (E : Env) (source : double) (rest : list double)
    (s : State) :
  fst (run_samples E (source :: rest) s) =
  fst (run_tract E source s)
    :: fst (run_samples E rest (snd (run_tract E source s))).
Proof.
  cbn [run_samples]. destruct (run_tract E source s) as [out s1].
  cbn [fst snd]. destruct (run_samples E rest s1) as [outs s2]. reflexivity.
Qed.

(** X19. A NaN impedance is permanent and spreads by one segment per
    sample in both directions; once it has reached the last segment every
    output sample is NaN.  So when segment [j] of a chain of [n] segments
    has a NaN impedance, all the outputs of [run_tract] from the
    [(n - j)]-th call on are NaN, whatever the input samples are. *)
Theorem nan_impedance_reaches_the_output (E : Env) (inputs : list double) :
  forall (s : State) (j k : nat),
    well_formed s ->
    (j < Z.to_nat (nsegments s))%nat ->
    z (nth j (segments_front s) nowhere) = NaN ->
    (Z.to_nat (nsegments s) - 1 - j <= k)%nat ->
    (k < length inputs)%nat ->
    nth k (fst (run_samples E inputs s)) (Fin 0) = NaN /\
    z (nth j (segments_front (snd (run_samples E inputs s))) nowhere) = NaN.
Proof.
  induction inputs as [|x l IH]; intros s j k Hwf Hj Hz Hk Hlen.
  - cbn [length] in Hlen. lia.
  - rewrite run_samples_outputs, run_samples_cons.
    pose proof (run_tract_well_formed E x Hwf) as Hwf1.
    pose proof (run_tract_nsegments E x s) as Hn1.
    assert (Hstay : forall m (s0 : State) (i : nat),
               well_formed s0 ->
               (i < Z.to_nat (nsegments s0))%nat ->
               z (nth i (segments_front s0) nowhere) = NaN ->
               z (nth i (segments_front (snd (run_samples E m s0))) nowhere)
                 = NaN).
    { induction m as [|y m IHm]; intros s0 i W0 Hi0 Hz0.
      - exact Hz0.
      - rewrite run_samples_cons. apply IHm.
        + apply run_tract_well_formed. exact W0.
        + rewrite run_tract_nsegments. exact Hi0.
        + apply (@nan_spreads E y s0 i i W0 Hi0 Hi0 Hz0). left. reflexivity. }
    split.
    + destruct k as [|k'].
      * cbn [nth]. apply nan_at_lips; [lia|].
        replace (Z.to_nat (nsegments s - 1)) with j by lia. exact Hz.
      * cbn [nth].
        destruct (Nat.eq_dec (j + 1) (Z.to_nat (nsegments s))) as [Hlast|Hin].
        -- apply (IH (snd (run_tract E x s)) j k');
             [exact Hwf1 | rewrite Hn1; exact Hj | | rewrite Hn1; lia
             | cbn [length] in Hlen; lia].
           apply (@nan_spreads E x s j j Hwf Hj Hj Hz). left. reflexivity.
        -- apply (IH (snd (run_tract E x s)) (j + 1)%nat k');
             [exact Hwf1 | rewrite Hn1; lia | | rewrite Hn1; lia
             | cbn [length] in Hlen; lia].
           apply (@nan_spreads E x s j (j + 1) Hwf Hj ltac:(lia) Hz).
           right. right. reflexivity.
    + apply Hstay; [exact Hwf1 | rewrite Hn1; exact Hj|].
      apply (@nan_spreads E x s j j Hwf Hj Hj Hz). left. reflexivity.
Qed.

Lemma nan_impedance_reaches_the_output_witness :
  nth 1 (fst (run_samples (env_at 11025) [Fin 1; Fin 0; Fin 0] short_tract))
      (Fin 0) = NaN /\
  z (nth 0 (segments_front
              (snd (run_samples (env_at 11025) [Fin 1; Fin 0; Fin 0]
                                short_tract))) nowhere) = NaN.
Proof.
  refine (@nan_impedance_reaches_the_output (env_at 11025)
            [Fin 1; Fin 0; Fin 0] short_tract 0 1 _ _ _ _ _).
  - split; vm_compute; reflexivity.
  - vm_compute. repeat constructor.
  - vm_compute. reflexivity.
  - vm_compute. repeat constructor.
  - cbn [length]. lia.
Defined.

(** ** Silence *)

Lemma null_dadd (x y : double) :
  x =d= Fin 0 -> y =d= Fin 0 -> dadd x y =d= Fin 0.
Proof. intros -> ->. cbn [dadd deq]. lra. Qed.

Lemma null_dsub (x y : double) :
  x =d= Fin 0 -> y =d= Fin 0 -> dsub x y =d= Fin 0.
Proof. intros -> ->. cbn [dsub dneg dadd deq]. lra. Qed.

Lemma null_dmul_l (x y : double) :
  x =d= Fin 0 -> finite y -> dmul x y =d= Fin 0.
Proof.
  intros -> Hy. apply finite_inv in Hy. destruct Hy as [q ->].
  cbn [dmul deq]. lra.
Qed.

Lemma null_dmul_r (x y : double) :
  finite x -> y =d= Fin 0 -> dmul x y =d= Fin 0.
Proof.
  intros Hx ->. apply finite_inv in Hx. destruct Hx as [q ->].
  cbn [dmul deq]. lra.
Qed.

Lemma null_clip_velocity (x : double) :
  x =d= Fin 0 -> clip_velocity x =d= Fin 0.
Proof.
  destruct x as [q| | |]; cbn [deq]; try contradiction.
  intro H. rewrite clip_velocity_fin. cbn [deq]. apply clipq_null. exact H.
Qed.

Lemma silent_nth (l : list Segment) :
  silent l <->
  forall j, (j < length l)%nat ->
    left (nth j l nowhere) =d= Fin 0 /\ right (nth j l nowhere) =d= Fin 0.
Proof.
  unfold silent. rewrite Forall_nth. split.
  - intros H j Hj. apply H. exact Hj.
  - intros H j d Hj. rewrite (nth_indep l d nowhere Hj). apply H. exact Hj.
Qed.

Section SilentStep.
Variable E : Env.
Variable n : Z.
Variable front : list Segment.
Variables damping diaphram_pressure glottal_source : double.
Variable c0 : nat.

Hypothesis rand_max : RAND_MAX E <> 0%Z.
Hypothesis front_regular :
  forall j, (j < Z.to_nat n)%nat -> regular_segment (nth j front nowhere).
Hypothesis front_silent :
  forall j, (j < Z.to_nat n)%nat ->
    left (nth j front nowhere) =d= Fin 0 /\
    right (nth j front nowhere) =d= Fin 0.
Hypothesis finite_damping : finite damping.
Hypothesis no_pressure : diaphram_pressure =d= Fin 0.
Hypothesis no_source : glottal_source =d= Fin 0.

Lemma silent_reflected_right (j : nat) :
  (1 <= j < Z.to_nat n)%nat -> reflected_right front j =d= Fin 0.
Proof.
  intro Hj.
  destruct (front_regular (j := j - 1) ltac:(lia)) as (Z1 & _).
  destruct (front_regular (j := j) ltac:(lia)) as (Z2 & _).
  destruct (front_silent (j := j - 1) ltac:(lia)) as (_ & R1).
  unfold reflected_right. apply null_dmul_l; [exact R1|].
  apply finite_reflection; assumption.
Qed.

Lemma silent_reflected_left (j : nat) :
  (j + 1 < Z.to_nat n)%nat -> reflected_left front j =d= Fin 0.
Proof.
  intro Hj.
  destruct (front_regular (j := j + 1) ltac:(lia)) as (Z1 & _).
  destruct (front_regular (j := j) ltac:(lia)) as (Z2 & _).
  destruct (front_silent (j := j + 1) ltac:(lia)) as (L1 & _).
  unfold reflected_left. apply null_dmul_l; [exact L1|].
  apply finite_reflection; assumption.
Qed.

Lemma silent_reflected_lips (j : nat) :
  (j < Z.to_nat n)%nat -> reflected_lips front j =d= Fin 0.
Proof.
  intro Hj.
  destruct (front_regular Hj) as (Z1 & _).
  destruct (front_silent Hj) as (_ & R1).
  unfold reflected_lips. apply null_dmul_l; [exact R1|].
  apply (@finite_reflection_drain _ Z1).
Qed.

Lemma silent_frication (x : double) (k : nat) :
  x =d= Fin 0 ->
  dmul (dmul FRICATION (clip_velocity x)) (noise E k) =d= Fin 0.
Proof.
  intro H. apply null_dmul_l; [|apply finite_noise; exact rand_max].
  apply null_dmul_r; [exact I|]. apply null_clip_velocity. exact H.
Qed.

Lemma silent_final_right (j : nat) :
  (j < Z.to_nat n)%nat ->
  final_right E damping diaphram_pressure glottal_source front c0 j (Fin 0)
    =d= Fin 0.
Proof.
  intro Hj. unfold final_right, arrived_right, own_right, glottis_inflow.
  pose proof (@finite_one_minus damping finite_damping) as Hd.
  destruct (Nat.eqb_spec j 0) as [->|Hne].
  - destruct (front_regular Hj) as (Z0 & _).
    destruct (front_silent Hj) as (L0 & _).
    apply null_dadd; [reflexivity|].
    apply null_dadd; [apply null_dadd|exact no_pressure].
    + apply null_dmul_l; [exact L0 | exact Hd].
    + apply null_dmul_l; [exact no_source|].
      apply finite_dsub; [exact I|]. apply (@finite_reflection_drain _ Z0).
  - assert (Hl : reflected_left front (j - 1) =d= Fin 0).
    { apply silent_reflected_left. lia. }
    destruct (front_silent (j := j - 1) ltac:(lia)) as (_ & R1).
    apply null_dadd.
    + apply null_dadd; [apply null_dadd; [reflexivity|]|].
      * apply null_dmul_l; [exact Hl | exact Hd].
      * apply silent_frication. exact Hl.
    + apply null_dsub; [exact R1|]. apply silent_reflected_right. lia.
Qed.

Lemma silent_final_left (j : nat) :
  (j < Z.to_nat n)%nat ->
  final_left E n damping front c0 j (Fin 0) =d= Fin 0.
Proof.
  intro Hj. unfold final_left, own_left.
  pose proof (@finite_one_minus damping finite_damping) as Hd.
  destruct (Z.eqb_spec (Z.of_nat j) (n - 1)) as [He|Hne].
  - apply null_dadd; [reflexivity|].
    apply null_dmul_l; [|exact Hd].
    apply silent_reflected_lips. exact Hj.
  - assert (Hr : reflected_right front (j + 1) =d= Fin 0).
    { apply silent_reflected_right. lia. }
    destruct (front_silent (j := j + 1) ltac:(lia)) as (L1 & _).
    apply null_dadd; [apply null_dadd; [apply null_dadd; [reflexivity|]|]|].
    + apply null_dsub; [exact L1|]. apply silent_reflected_left. lia.
    + apply null_dmul_l; [exact Hr | exact Hd].
    + apply silent_frication. exact Hr.
Qed.

End SilentStep.

Lemma run_tract_silent (E : Env) (glottal_source : double) (s : State) :
  RAND_MAX E <> 0%Z ->
  regular s ->
  silent (segments_front s) ->
  diaphram_pressure s =d= Fin 0 ->
  glottal_source =d= Fin 0 ->
  fst (run_tract E glottal_source s) =d= Fin 0 /\
  silent (segments_front (snd (run_tract E glottal_source s))).
Proof.
  intros Hrand (Hwf & Hn & Hfr & _ & _ & _ & _ & _ & _ & Hg) Hsil Hp Hsrc.
  destruct (proj1 (well_formed_front s) Hwf) as (Hlf & _).
  destruct (run_tract_front E glottal_source Hwf) as (Hlen & _ & Hnth).
  assert (Hreg : forall j, (j < Z.to_nat (nsegments s))%nat ->
                 regular_segment (nth j (segments_front s) nowhere)).
  { intros j Hj. apply (proj1 (regular_nth _) Hfr). lia. }
  assert (Hs : forall j, (j < Z.to_nat (nsegments s))%nat ->
               left (nth j (segments_front s) nowhere) =d= Fin 0 /\
               right (nth j (segments_front s) nowhere) =d= Fin 0).
  { intros j Hj. apply (proj1 (silent_nth _) Hsil). lia. }
  split.
  - rewrite run_tract_output.
    replace (0 <? nsegments s)%Z with true by (symmetry; apply Z.ltb_lt; lia).
    apply null_dsub.
    + apply (Hs (Z.to_nat (nsegments s - 1))). lia.
    + apply (@silent_reflected_lips (nsegments s) (segments_front s) Hreg Hs).
      lia.
  - apply silent_nth. intros j Hj. rewrite Hlen in Hj.
    destruct (Hnth j Hj) as (Fr & Fl & _). rewrite Fr, Fl. split.
    + apply (@silent_final_left E (nsegments s) (segments_front s)
               (damping s) (rand_calls s) Hrand Hreg Hs Hg j Hj).
    + apply (@silent_final_right E (nsegments s) (segments_front s)
               (damping s) (diaphram_pressure s) glottal_source
               (rand_calls s) Hrand Hreg Hs Hg Hp Hsrc j Hj).
Qed.

(** X20. The tract makes no sound of its own.  In the regular regime,
    with no diaphragm pressure, a chain whose amplitudes are all 0 and
    that is fed samples of value 0 stays at amplitude 0 and puts out 0,
    for any number of samples: the frication noise is scaled by the
    reflected wave, and [rand] is called to no effect. *)
Theorem silence_is_preserved (E : Env) (inputs : list double) :
  forall s : State,
    (forall x : Q, -1 <= cos E x /\ cos E x <= 1) ->
    RAND_MAX E <> 0%Z ->
    regular s ->
    silent (segments_front s) ->
    diaphram_pressure s =d= Fin 0 ->
    Forall (fun x => x =d= Fin 0) inputs ->
    Forall (fun out => out =d= Fin 0) (fst (run_samples E inputs s)) /\
    silent (segments_front (snd (run_samples E inputs s))).
Proof.
  induction inputs as [|x l IH]; intros s Hcos Hrand Hreg Hsil Hp Hin.
  - split; [constructor | exact Hsil].
  - inversion Hin as [|x' l' Hx Hl]; subst.
    rewrite run_samples_outputs, run_samples_cons.
    destruct (@run_tract_silent E x s Hrand Hreg Hsil Hp Hx) as (Hout & Hsil1).
    assert (Hfx : finite x).
    { destruct x; cbn [deq] in Hx; try contradiction. exact I. }
    pose proof (@run_tract_regular E x s Hcos Hrand Hfx Hreg) as Hreg1.
    destruct (run_tract_phonemes E x s) as (_ & _ & _ & _ & Hp1 & _).
    destruct (IH (snd (run_tract E x s)) Hcos Hrand Hreg1 Hsil1
                 ltac:(rewrite Hp1; exact Hp) Hl) as (Houts & Hfinal).
    split; [constructor; assumption | exact Hfinal].
Qed.

Lemma silence_is_preserved_witness :
  Forall (fun out => out =d= Fin 0)
    (fst (run_samples (env_at 44100) [Fin 0; Fin 0; Fin 0] tract_at_setup)) /\
  silent (segments_front
            (snd (run_samples (env_at 44100) [Fin 0; Fin 0; Fin 0]
                              tract_at_setup))).
Proof.
  refine (@silence_is_preserved (env_at 44100) [Fin 0; Fin 0; Fin 0]
            tract_at_setup _ _ _ _ _ _).
  - exact cos_poly_within_unit.
  - discriminate.
  - apply (@main_setup_regular (env_at 44100) true true).
    + exact cos_poly_within_unit.
    + vm_compute. discriminate.
    + vm_compute. reflexivity.
  - vm_compute. repeat (constructor; [split; reflexivity|]). constructor.
  - reflexivity.
  - repeat constructor.
Defined.

(** ** Truncation to [int] *)

Lemma Qtrunc_floor (q : Q) :
  0 <= q -> inject_Z (Qtrunc q) <= q /\ q < inject_Z (Qtrunc q) + 1.
Proof.
  intro Hq.
  assert (Hf : Qtrunc q = Qfloor q).
  { unfold Qtrunc. destruct q as [a b]. cbn [Qnum Qden Qfloor].
    apply Z.quot_div_nonneg; [|lia].
    unfold Qle in Hq. cbn [Qnum Qden] in Hq. lia. }
  rewrite Hf. split; [apply Qfloor_le|].
  pose proof (Qlt_floor q) as H. rewrite inject_Z_plus in H. exact H.
Qed.

(** ** The number of segments in binary64 *)

Lemma init_tract_count (E : Env) (alloc1 alloc2 : bool)
    (desired_length : double) (s s' : State) :
  init_tract E alloc1 alloc2 desired_length s = Some s' ->
  d2i (ddiv desired_length
            (ddiv (i2d SPEED_OF_SOUND) (i2d (jack_get_sample_rate E))))
    = Some (nsegments s').
Proof.
  unfold init_tract.
  destruct (d2i _) as [n|]; [|discriminate].
  destruct (_ && _); [discriminate|].
  intro H. injection H as <-. reflexivity.
Qed.

Lemma same_count_spec (sample_rate : Z) (exact rounded : double) (n : Z) :
  same_count sample_rate exact rounded = true ->
  d2i (ddiv exact (ddiv (i2d SPEED_OF_SOUND) (i2d sample_rate))) = Some n ->
  segment_count sample_rate rounded = Some n.
Proof.
  unfold same_count. intros H Hd. rewrite Hd in H.
  destruct (segment_count sample_rate rounded) as [m|]; [|discriminate].
  apply Z.eqb_eq in H. congruence.
Qed.

Lemma common_rates_ok (sample_rate : Z) :
  In sample_rate common_rates ->
  default_count_ok sample_rate = true /\
  forall v : Z, (0 <= v <= 127)%Z -> byte_count_ok sample_rate v = true.
Proof.
  intro Hin. cbn [common_rates In] in Hin.
  repeat (destruct Hin as [<-|Hin];
          [split; [vm_compute; reflexivity
                  | apply all_bytes; vm_compute; reflexivity]|]).
  contradiction.
Qed.

(** X21. At the sample rates in common use, from 8000 Hz to 192000 Hz,
    the number of segments that [init_tract] computes in binary64 is the
    truncated exact quotient of the desired length by
    [SPEED_OF_SOUND / rate], that is, the number of segments of this
    development: for the length of [main]'s setup and for every length
    that a control change can ask for.  It is not so at every rate: at
    29400 Hz the exact quotient of 17.5 cm is 15, and the binary64
    computation gives 14. *)
Theorem segment_count_at_common_rates (sample_rate value : Z)
    (alloc1 alloc2 : bool) (s s' : State) :
  In sample_rate common_rates ->
  (0 <= value <= 127)%Z ->
  handle_event (env_at sample_rate) alloc1 alloc2 (set_length_event value) s
    = Some s' ->
  segment_count sample_rate
    (B64.map2range value (B64.rnd CONTROLLER_TRACT_LENGTH_MIN)
                         (B64.rnd CONTROLLER_TRACT_LENGTH_MAX))
    = Some (nsegments s') /\
  (forall s0 : State,
     main_setup (env_at sample_rate) alloc1 alloc2 = Some s0 ->
     segment_count sample_rate (B64.rnd TRACT_LENGTH)
       = Some (nsegments s0)) /\
  segment_count 29400 (B64.rnd TRACT_LENGTH) = Some 14%Z /\
  (forall s0 : State,
     main_setup (env_at 29400) alloc1 alloc2 = Some s0 ->
     nsegments s0 = 15%Z).
Proof.
  intros Hin Hv He.
  destruct (common_rates_ok Hin) as (H1 & H2). specialize (H2 value Hv).
  split; [|split; [|split]].
  - change (handle_event (env_at sample_rate) alloc1 alloc2
              (set_length_event value) s)
      with (resize_tract (env_at sample_rate) alloc1 alloc2
              (map2range value CONTROLLER_TRACT_LENGTH_MIN
                         CONTROLLER_TRACT_LENGTH_MAX) s) in He.
    destruct (resize_tract_buffers _ _ _ _ _ He) as (s1 & Hi & Hn & _).
    rewrite Hn. apply (same_count_spec _ _ _ H2).
    exact (init_tract_count _ _ _ _ _ Hi).
  - intros s0 H0. apply (same_count_spec _ _ _ H1).
    exact (init_tract_count _ _ _ _ _ H0).
  - vm_compute. reflexivity.
  - intros s0 H0. apply init_tract_count in H0.
    remember (nsegments s0) as n eqn:Hn. clear Hn.
    vm_compute in H0. injection H0 as <-. reflexivity.
Qed.

Lemma segment_count_at_common_rates_witness :
  segment_count 44100
    (B64.map2range 127 (B64.rnd CONTROLLER_TRACT_LENGTH_MIN)
                       (B64.rnd CONTROLLER_TRACT_LENGTH_MAX))
    = Some (nsegments tract_resized) /\
  (forall s0 : State,
     main_setup (env_at 44100) true true = Some s0 ->
     segment_count 44100 (B64.rnd TRACT_LENGTH) = Some (nsegments s0)) /\
  segment_count 29400 (B64.rnd TRACT_LENGTH) = Some 14%Z /\
  (forall s0 : State,
     main_setup (env_at 29400) true true = Some s0 ->
     nsegments s0 = 15%Z).
Proof.
  refine (@segment_count_at_common_rates 44100 127 true true
            tract_after_impulse tract_resized _ _ _).
  - cbn [common_rates In]. do 5 right. left. reflexivity.
  - lia.
  - vm_compute. reflexivity.
Defined.

(** ** Repeated events *)

Lemma init_tract_ext (E : Env) (alloc1 alloc2 : bool)
    (desired_length : double) (s t : State) :
  ambient_phoneme s = ambient_phoneme t ->
  target_phoneme s = target_phoneme t ->
  current_phoneme s = current_phoneme t ->
  interpolation_drag s = interpolation_drag t ->
  diaphram_pressure s = diaphram_pressure t ->
  damping s = damping t ->
  rand_calls s = rand_calls t ->
  init_tract E alloc1 alloc2 desired_length s
  = init_tract E alloc1 alloc2 desired_length t.
Proof.
  intros H1 H2 H3 H4 H5 H6 H7. unfold init_tract.
  rewrite H1, H2, H3, H4, H5, H6, H7. reflexivity.
Qed.

Lemma transplant_same (a b : Segment) :
  z a = z b -> target_z a = target_z b -> rigidity a = rigidity b ->
  transplant a b = a.
Proof.
  destruct a as [za ta ga la ra], b as [zb tb gb lb rb].
  cbn [z target_z rigidity transplant left right].
  intros -> -> ->. reflexivity.
Qed.

Lemma resize_tract_twice (E : Env) (alloc1 alloc2 : bool)
    (desired_length : double) (s s1 : State) :
  resize_tract E alloc1 alloc2 desired_length s = Some s1 ->
  resize_tract E alloc1 alloc2 desired_length s1 = Some s1.
Proof.
  intro H.
  destruct (resize_tract_controls _ _ _ _ _ H)
    as (Ha & Ht & Hc & Hd & Hp & Hg & Hr).
  destruct (resize_tract_buffers _ _ _ _ _ H)
    as (i1 & Hi & Hn & Hf & L1 & L2 & N1 & N2).
  pose proof (init_tract_sound _ _ _ _ _ Hi) as ((V1 & V2) & _).
  assert (Hi1 : init_tract E alloc1 alloc2 desired_length s1 = Some i1).
  { rewrite <- Hi. apply init_tract_ext; assumption. }
  revert H. unfold resize_tract. rewrite Hi, Hi1.
  intro H. injection H as H. f_equal.
  assert (Hmin : (if (nsegments s1 <? nsegments i1)%Z
                  then nsegments s1 else nsegments i1) = nsegments i1).
  { rewrite Hn, Z.ltb_irrefl. reflexivity. }
  rewrite Hmin, for_loop_to_nat.
  destruct (copy_waves_loop (buffer1 s1) (buffer2 s1)
              (Z.to_nat (nsegments i1)) (buffer1 i1) (buffer2 i1))
    as (M1 & M2 & P1 & P2).
  set (new := for_loop (Z.of_nat (Z.to_nat (nsegments i1)))
                (copy_waves (buffer1 s1) (buffer2 s1))
                (buffer1 i1, buffer2 i1)) in *.
  assert (E1 : fst new = buffer1 s1).
  { apply (nth_ext _ _ nowhere nowhere); [congruence|].
    intros j Hj. rewrite M1 in Hj. rewrite (P1 j Hj).
    replace (j <? Z.to_nat (nsegments i1))%nat with true
      by (symmetry; apply Nat.ltb_lt; lia).
    apply transplant_same; rewrite (N1 j Hj);
      destruct (j <? _)%nat; reflexivity. }
  assert (E2 : snd new = buffer2 s1).
  { apply (nth_ext _ _ nowhere nowhere); [congruence|].
    intros j Hj. rewrite M2 in Hj. rewrite (P2 j Hj).
    replace (j <? Z.to_nat (nsegments i1))%nat with true
      by (symmetry; apply Nat.ltb_lt; lia).
    apply transplant_same; rewrite (N2 j Hj);
      destruct (j <? _)%nat; reflexivity. }
  rewrite E1, E2. rewrite <- H. reflexivity.
Qed.

(** X22. Control events are absolute: an event that has been handled has
    no further effect when it is handled again.  This holds for the
    controllers of the phoneme and of the three scalar controls, for a
    note-on, and also for a change of the tract length, which rebuilds the
    same chain and copies to every segment the waves it already has. *)
Theorem events_are_idempotent (E : Env) (alloc1 alloc2 : bool)
    (ev : MidiEvent) (s s1 : State) :
  handle_event E alloc1 alloc2 ev s = Some s1 ->
  handle_event E alloc1 alloc2 ev s1 = Some s1.
Proof.
  unfold handle_event.
  destruct (Z.land (status ev) 240 =? 176)%Z.
  - destruct (data1 ev =? CONTROLLER_TRACT_LENGTH)%Z;
      [apply resize_tract_twice|].
    repeat match goal with
           | |- context [if ?c then _ else _] => destruct c
           end;
      intro H; injection H as <-; reflexivity.
  - destruct (_ && _); [intro H; injection H as <-; reflexivity|].
    destruct (_ && _); [|intro H; injection H as <-; reflexivity].
    intro H. injection H as <-.
    unfold get_mapped_phoneme.
    repeat match goal with
           | |- context [if ?c then _ else _] => destruct c
           end; reflexivity.
Qed.

Lemma events_are_idempotent_witness :
  handle_event (env_at 44100) true true (set_length_event 127) tract_resized
  = Some tract_resized.
Proof.
  refine (@events_are_idempotent (env_at 44100) true true
            (set_length_event 127) tract_after_impulse tract_resized _).
  vm_compute. reflexivity.
Defined.

(** ** Events and the undefined cast *)

Lemma init_tract_defined (E : Env) (len : Q) (s : State) :
  (0 < jack_get_sample_rate E <= INT_MAX)%Z ->
  0 <= len -> len <= 24 ->
  exists s', init_tract E true true (Fin len) s = Some s'.
Proof.
  intros (Hr0 & Hr1) Hl0 Hl1. unfold init_tract, i2d, SPEED_OF_SOUND.
  assert (R0 : 0 < inject_Z (jack_get_sample_rate E)).
  { change 0 with (inject_Z 0). rewrite <- Zlt_Qlt. exact Hr0. }
  assert (R1 : inject_Z (jack_get_sample_rate E) <= inject_Z INT_MAX).
  { rewrite <- Zle_Qle. exact Hr1. }
  rewrite (@ddiv_fin (inject_Z 34300) (inject_Z (jack_get_sample_rate E)))
    by lra.
  set (r := inject_Z (jack_get_sample_rate E)) in *.
  set (u := inject_Z 34300 / r).
  assert (Hu : 0 < u).
  { apply Qlt_shift_div_l; [lra|]. change (inject_Z 34300) with 34300. lra. }
  rewrite ddiv_fin by lra.
  assert (Hq : 0 <= len / u).
  { apply Qle_shift_div_l; [exact Hu | lra]. }
  assert (Hmax : len / u <= inject_Z INT_MAX).
  { apply Qle_shift_div_r; [exact Hu|].
    assert (H : 34300 <= inject_Z INT_MAX * u).
    { setoid_replace (inject_Z INT_MAX * u)
        with (inject_Z INT_MAX * 34300 / r)
        by (unfold u; change (inject_Z 34300) with 34300; field; lra).
      apply Qle_shift_div_l; [exact R0|]. lra. }
    lra. }
  destruct (Qtrunc_floor Hq) as (F0 & _).
  assert (N0 : (0 <= Qtrunc (len / u))%Z).
  { apply Qtrunc_lower_bound. exact Hq. }
  assert (N1 : (Qtrunc (len / u) <= INT_MAX)%Z).
  { rewrite Zle_Qle. lra. }
  unfold d2i.
  replace ((INT_MIN <=? Qtrunc (len / u))%Z
           && (Qtrunc (len / u) <=? INT_MAX)%Z) with true.
  - cbn [andb negb]. rewrite andb_false_r. eexists. reflexivity.
  - symmetry. apply andb_true_iff. split; apply Z.leb_le.
    + unfold INT_MIN. lia.
    + exact N1.
Qed.

(** X23. With a sample rate that is a positive [int] and allocations that
    succeed, the program has no undefined step in events: [main]'s setup
    has a result, and so has every event whose second data byte is from 0
    to 127.  In particular the cast [(int)(desired_length / unit_length)]
    is always within range for the lengths 8 to 24 cm that a control
    change can ask for. *)
Theorem events_are_always_handled (E : Env) (ev : MidiEvent) (s : State) :
  (0 < jack_get_sample_rate E <= INT_MAX)%Z ->
  data_byte (data2 ev) ->
  (exists s0, main_setup E true true = Some s0) /\
  (exists s', handle_event E true true ev s = Some s').
Proof.
  intros Hrate Hbyte. split.
  - unfold main_setup, TRACT_LENGTH. apply init_tract_defined; [exact Hrate | |];
      lra.
  - unfold handle_event.
    destruct (Z.land (status ev) 240 =? 176)%Z.
    + destruct (data1 ev =? CONTROLLER_TRACT_LENGTH)%Z.
      * destruct (@map2range_mix (data2 ev) 8 24 Hbyte)
          as (r & Hr & R0 & R1 & _).
        unfold CONTROLLER_TRACT_LENGTH_MIN, CONTROLLER_TRACT_LENGTH_MAX.
        rewrite Hr. rewrite Q.min_l in R0 by lra.
        rewrite Q.max_r in R1 by lra.
        destruct (@init_tract_defined E r s Hrate ltac:(lra) R1) as (s1 & H1).
        unfold resize_tract. rewrite H1. eexists. reflexivity.
      * repeat match goal with
               | |- context [if ?c then _ else _] => destruct c
               end; eexists; reflexivity.
    + repeat match goal with
             | |- context [if ?c then _ else _] => destruct c
             end; eexists; reflexivity.
Qed.

Lemma events_are_always_handled_witness :
  (exists s0, main_setup (env_at 44100) true true = Some s0) /\
  (exists s',
     handle_event (env_at 44100) true true (set_length_event 64)
                  tract_after_impulse = Some s').
Proof.
  refine (@events_are_always_handled (env_at 44100) (set_length_event 64)
            tract_after_impulse _ _).
  - cbn [env_at jack_get_sample_rate]. unfold INT_MAX. lia.
  - unfold data_byte. cbn [set_length_event data2]. lia.
Defined.
